(** * RAG assessment backend: chunking and answer pipeline

    A shallow embedding of [app/services/chunking.py],
    [app/services/rag.py] and [app/services/redis_service.py], of the file
    checks of [app/services/document_processor.py] and of the chat and
    ingestion endpoints of [app/api] (with the part of [app/config.py] they
    rely on), followed by the properties of the specification that concern
    them and by further properties of the code.

    Conventions of the embedding:
    - a Python [str] is a [list ascii], one character per code point, so a
      text holds code points below 256; [str.isspace], [str.strip] and the
      regular expression class [\s] act on all of them as Python defines
      them; [str.lower] and [str.capitalize] act as Python defines them on
      code points below 128, the strings whose case matters (queries, roles
      and file names) being taken to be ASCII;
    - a Python [int] is a [Z];
    - a [while] loop that may not terminate takes a fuel argument and
      returns [None] when the fuel runs out before the loop exits;
    - the external collaborators (embedding model, vector index, language
      model) are functions that either return a value or raise;
    - Redis is a finite map from keys to lists. *)

From Stdlib Require Import ZArith NArith Ascii String DecimalString.
From stdpp Require Import base list gmap strings.

#[local] Open Scope Z_scope.

(** ** Python strings *)

Module PyStr.

Definition str := list ascii.

(** A string literal of the source. *)
Definition lit (s : string) : str := list_ascii_of_string s.
Arguments lit _ : simpl never.

(** [len(s)] *)
Definition len {A} (s : list A) : Z := Z.of_nat (length s).

(** [c.isspace()], which is also what [\s] matches and what [str.strip]
    removes: TAB, LF, VT, FF, CR, FS, GS, RS, US, the space, NEL (133) and
    the no-break space (160). These are all the white-space characters
    among the code points below 256. *)
Definition isspace (c : ascii) : bool :=
  let n := N_of_ascii c in
  ((9 <=? n) && (n <=? 13) || (28 <=? n) && (n <=? 31) || (n =? 32) ||
   (n =? 133) || (n =? 160))%N.

Fixpoint lstrip (s : str) : str :=
  match s with
  | c :: s' => if isspace c then lstrip s' else s
  | [] => []
  end.

Definition rstrip (s : str) : str := rev (lstrip (rev s)).

(** [s.strip()] *)
Definition strip (s : str) : str := lstrip (rstrip s).

(** Truth value of a string or a list: non-empty. *)
Definition truthy {A} (s : list A) : bool :=
  match s with [] => false | _ => true end.

(** One bound of a slice, clamped as Python does: a negative bound counts
    from the end. *)
Definition clamp (n i : Z) : Z :=
  if i <? 0 then Z.max (i + n) 0 else Z.min i n.

(** [s[a:b]]; [None] is an omitted bound. *)
Definition slice {A} (s : list A) (a b : option Z) : list A :=
  let n := len s in
  let lo := match a with Some a => clamp n a | None => 0 end in
  let hi := match b with Some b => clamp n b | None => n end in
  take (Z.to_nat (hi - lo)) (drop (Z.to_nat lo) s).

Definition lower_char (c : ascii) : ascii :=
  let n := N_of_ascii c in
  if ((65 <=? n) && (n <=? 90))%N then ascii_of_N (n + 32) else c.

Definition upper_char (c : ascii) : ascii :=
  let n := N_of_ascii c in
  if ((97 <=? n) && (n <=? 122))%N then ascii_of_N (n - 32) else c.

(** [s.lower()] *)
Definition lower (s : str) : str := map lower_char s.

(** [s.capitalize()]: first character upper case, the rest lower case. *)
Definition capitalize (s : str) : str :=
  match s with
  | [] => []
  | c :: s' => upper_char c :: lower s'
  end.

(** [sep.join(parts)] *)
Fixpoint join (sep : str) (parts : list str) : str :=
  match parts with
  | [] => []
  | [p] => p
  | p :: ps => p ++ sep ++ join sep ps
  end.

Fixpoint startswith (p s : str) : bool :=
  match p, s with
  | [], _ => true
  | a :: p', b :: s' => Ascii.eqb a b && startswith p' s'
  | _ :: _, [] => false
  end.

(** [needle in hay] *)
Fixpoint contains (needle hay : str) : bool :=
  startswith needle hay ||
  match hay with
  | [] => false
  | _ :: hay' => contains needle hay'
  end.

(** [str(n)] for a non-negative [int]. *)
Definition of_nat (n : nat) : str :=
  lit (NilEmpty.string_of_uint (Nat.to_uint n)).

(** [re.sub(p+, rep, s)] for a character class [p]: every maximal run of
    characters of the class is replaced by [rep]. [in_run] tells that the
    previous character belonged to the class. *)
Fixpoint sub_runs (p : ascii -> bool) (rep : str) (in_run : bool) (s : str) : str :=
  match s with
  | [] => []
  | c :: s' =>
      if p c then (if in_run then [] else rep) ++ sub_runs p rep true s'
      else c :: sub_runs p rep false s'
  end.

Definition is_newline (c : ascii) : bool := Ascii.eqb c "010"%char.

(** The class [[.!?]]. *)
Definition is_sentence_end (c : ascii) : bool :=
  Ascii.eqb c "."%char || Ascii.eqb c "!"%char || Ascii.eqb c "?"%char.

Definition push_head (c : ascii) (pieces : list str) : list str :=
  match pieces with
  | [] => [[c]]
  | p :: ps => (c :: p) :: ps
  end.

(** [re.split(r'(?<=[.!?])\s+', s)]: the text is cut at every maximal run
    of white space that directly follows one of [.!?]; the run itself is
    discarded. [after_end] tells that the previous character is one of
    [.!?], [in_sep] that the previous character belongs to a separator.
    The head of the result is the piece under construction. *)
Fixpoint split_after_end (after_end in_sep : bool) (s : str) : list str :=
  match s with
  | [] => [[]]
  | c :: s' =>
      if isspace c then
        if in_sep then split_after_end false true s'
        else if after_end then [] :: split_after_end false true s'
        else push_head c (split_after_end false false s')
      else push_head c (split_after_end (is_sentence_end c) false s')
  end.

(** [str(z)] for an [int]. *)
Definition of_Z (z : Z) : str :=
  if z <? 0 then "-"%char :: of_nat (Z.to_nat (- z)) else of_nat (Z.to_nat z).

(** [s.split(sep)] for a separator of one character: the pieces between
    the occurrences of the separator, always at least one piece. *)
Fixpoint split_on (sep : ascii) (s : str) : list str :=
  match s with
  | [] => [[]]
  | c :: s' =>
      if Ascii.eqb c sep then [] :: split_on sep s'
      else push_head c (split_on sep s')
  end.


End PyStr.

Import PyStr.

(** ** Exceptions and configuration *)

(** A raised Python exception: its class name and [str(e)]. *)
Inductive exn : Type := Raise (kind message : str).

Definition exn_str (e : exn) : str := let 'Raise _ m := e in m.

(** [app/config.py]: the settings the core reads. They are loaded from the
    environment; [Settings.default] holds the defaults of the class. *)
Module Settings.
Record t : Type := {
  chunk_size : Z;
  chunk_overlap : Z;
  llm_model : str
}.
Definition default : t :=
  {| chunk_size := 500; chunk_overlap := 50;
     llm_model := lit "llama-3.1-8b-instant" |}.
End Settings.

(** [x or d] for an optional [int] argument: [None] and [0] are falsy. *)
Definition int_or (x : option Z) (d : Z) : Z :=
  match x with
  | Some v => if v =? 0 then d else v
  | None => d
  end.

(** ** [app/services/chunking.py] *)

(** A chunk dictionary. The fixed-size strategy fills [start_position] and
    [end_position], the semantic strategy fills [sentence_count]. *)
Module Chunk.
Record t : Type := {
  chunk_index : Z;
  chunk_text : str;
  chunk_size : Z;
  start_position : option Z;
  end_position : option Z;
  sentence_count : option Z
}.
End Chunk.

Module FixedSizeChunking.

Record t : Type := { chunk_size : Z; chunk_overlap : Z }.

(** [__init__]: no check is made on the two values. *)
Definition __init__ (settings : Settings.t) (chunk_size chunk_overlap : option Z) : t :=
  {| chunk_size := int_or chunk_size (Settings.chunk_size settings);
     chunk_overlap := int_or chunk_overlap (Settings.chunk_overlap settings) |}.

Definition _clean_text (text : str) : str :=
  let text := sub_runs isspace (lit " ") false text in
  let text := sub_runs is_newline [ "010"%char ] false text in
  strip text.

(** The state of the [while] loop of [chunk]. *)
Record state : Type := { chunks : list Chunk.t; start : Z; chunk_index : Z }.

Inductive outcome : Type :=
| Continue (st : state)
| Break (chunks : list Chunk.t).

(** One execution of the loop body, entered with [start < len(text)]. *)
Definition body (self : t) (text : str) (st : state) : outcome :=
  let end_ := start st + chunk_size self in
  let chunk_text := slice text (Some (start st)) (Some end_) in
  let '(chunks', chunk_index') :=
    if truthy (strip chunk_text) then
      (chunks st ++ [ {| Chunk.chunk_index := chunk_index st;
                         Chunk.chunk_text := strip chunk_text;
                         Chunk.chunk_size := len chunk_text;
                         Chunk.start_position := Some (start st);
                         Chunk.end_position := Some end_;
                         Chunk.sentence_count := None |} ],
       chunk_index st + 1)
    else (chunks st, chunk_index st) in
  let start' := end_ - chunk_overlap self in
  if (start' <=? 0) && (end_ >=? len text) then Break chunks'
  else Continue {| chunks := chunks'; start := start'; chunk_index := chunk_index' |}.

(** The loop: [fuel] bounds the number of executions of the body. *)
Fixpoint loop (fuel : nat) (self : t) (text : str) (st : state) : option (list Chunk.t) :=
  if start st <? len text then
    match fuel with
    | O => None
    | S fuel' =>
        match body self text st with
        | Break chunks' => Some chunks'
        | Continue st' => loop fuel' self text st'
        end
    end
  else Some (chunks st).

Definition chunk (fuel : nat) (self : t) (text : str) : option (list Chunk.t) :=
  let text := _clean_text text in
  loop fuel self text {| chunks := []; start := 0; chunk_index := 0 |}.

End FixedSizeChunking.

Module SemanticChunking.

Record t : Type := { chunk_size : Z; min_chunk_size : Z }.

(** [__init__]; [min_chunk_size] defaults to 100 when it is not given. *)
Definition __init__ (settings : Settings.t) (chunk_size min_chunk_size : option Z) : t :=
  {| chunk_size := int_or chunk_size (Settings.chunk_size settings);
     min_chunk_size := default 100 min_chunk_size |}.

Definition _clean_text (text : str) : str :=
  let text := sub_runs isspace (lit " ") false text in
  let text := sub_runs is_newline (lit " ") false text in
  strip text.

Definition _split_into_sentences (text : str) : list str :=
  let sentences := split_after_end false false text in
  map strip (filter (fun s => truthy (strip s) = true) sentences).

(** The variables of [chunk] that the [for] loop updates. *)
Record state : Type := {
  chunks : list Chunk.t;
  current_chunk : list str;
  current_size : Z;
  chunk_index : Z
}.

(** The [if len(chunk_text) >= self.min_chunk_size] block, which both the
    loop and the final flush run on the joined sentences. *)
Definition emit (self : t) (chunks : list Chunk.t) (chunk_index : Z)
    (current_chunk : list str) : list Chunk.t * Z :=
  let chunk_text := join (lit " ") current_chunk in
  if len chunk_text >=? min_chunk_size self then
    (chunks ++ [ {| Chunk.chunk_index := chunk_index;
                    Chunk.chunk_text := chunk_text;
                    Chunk.chunk_size := len chunk_text;
                    Chunk.start_position := None;
                    Chunk.end_position := None;
                    Chunk.sentence_count := Some (len current_chunk) |} ],
     chunk_index + 1)
  else (chunks, chunk_index).

(** One iteration of [for sentence in sentences]. *)
Definition body (self : t) (st : state) (sentence : str) : state :=
  let sentence_length := len sentence in
  if (current_size st + sentence_length >? chunk_size self) && truthy (current_chunk st) then
    let '(chunks', chunk_index') := emit self (chunks st) (chunk_index st) (current_chunk st) in
    {| chunks := chunks'; current_chunk := [sentence];
       current_size := sentence_length; chunk_index := chunk_index' |}
  else
    {| chunks := chunks st; current_chunk := current_chunk st ++ [sentence];
       current_size := current_size st + sentence_length;
       chunk_index := chunk_index st |}.

Definition chunk (self : t) (text : str) : list Chunk.t :=
  let text := _clean_text text in
  let sentences := _split_into_sentences text in
  let st := foldl (body self) {| chunks := []; current_chunk := [];
                                 current_size := 0; chunk_index := 0 |} sentences in
  if truthy (current_chunk st) then
    fst (emit self (chunks st) (chunk_index st) (current_chunk st))
  else chunks st.

End SemanticChunking.

Inductive ChunkingStrategy : Type :=
| Fixed (self : FixedSizeChunking.t)
| Semantic (self : SemanticChunking.t).

(** The factory: the two known names build a strategy from the settings
    alone, any other name raises [ValueError]. *)
Definition get_chunking_strategy (settings : Settings.t) (strategy : str)
  : exn + ChunkingStrategy :=
  if bool_decide (strategy = lit "fixed") then
    inr (Fixed (FixedSizeChunking.__init__ settings None None))
  else if bool_decide (strategy = lit "semantic") then
    inr (Semantic (SemanticChunking.__init__ settings None None))
  else
    inl (Raise (lit "ValueError")
           (lit "Unknown chunking strategy: " ++ strategy ++
            lit ". Available strategies: ['fixed', 'semantic']")).

(** ** Data of the answer pipeline *)

(** The payload of a search result; a field is [None] when the key is
    absent from the dictionary. *)
Module Metadata.
Record t : Type := {
  document_id : option str;
  filename : option str;
  chunk_text : option str
}.
(** The empty dictionary, the default of [result.get("metadata", {})]. *)
Definition empty : t :=
  {| document_id := None; filename := None; chunk_text := None |}.
End Metadata.

(** A search result; [float] is the type of its score. *)
Module SearchResult.
Record t (float : Type) : Type := {
  score : option float;
  metadata : option Metadata.t
}.
Arguments score {float} _.
Arguments metadata {float} _.
End SearchResult.

(** A formatted source. *)
Module Source.
Record t (float : Type) : Type := {
  document_id : str;
  filename : str;
  chunk_text : str;
  relevance_score : float
}.
Arguments document_id {float} _.
Arguments filename {float} _.
Arguments chunk_text {float} _.
Arguments relevance_score {float} _.
End Source.

(** A conversation message as [_generate_answer] reads it. *)
Module Message.
Record t : Type := { role : option str; content : option str }.
End Message.

(** The dictionary [query] returns: ["type"] and ["sources"] are always
    present, ["message"] or ["answer"] according to the type. *)
Module QueryResult.
Record t (float : Type) : Type := {
  type : str;
  message : option str;
  answer : option str;
  sources : list (Source.t float)
}.
Arguments type {float} _.
Arguments message {float} _.
Arguments answer {float} _.
Arguments sources {float} _.
End QueryResult.

(** ** [app/services/redis_service.py] *)

Module RedisService.

(** The lists Redis holds. A stored element is the message that
    [json.loads] gives back from what [json.dumps] wrote. *)
Abbreviation store := (gmap str (list Message.t)).

Definition _get_session_key (session_id : str) : str :=
  lit "chat:session:" ++ session_id.

(** [RPUSH key value] *)
Definition rpush (db : store) (key : str) (value : Message.t) : store :=
  <[ key := default [] (db !! key) ++ [value] ]> db.

(** [LRANGE key start stop]: both ends inclusive, negative offsets count
    from the end, out-of-range offsets are clamped, a missing key is an
    empty list. *)
Definition lrange (db : store) (key : str) (start stop : Z) : list Message.t :=
  let l := default [] (db !! key) in
  let n := len l in
  let s := if start <? 0 then Z.max (start + n) 0 else start in
  let e := if stop <? 0 then stop + n else Z.min stop (n - 1) in
  if s >? e then [] else take (Z.to_nat (e - s + 1)) (drop (Z.to_nat s) l).

Definition save_message (db : store) (session_id role content : str) : store :=
  let message := {| Message.role := Some role; Message.content := Some content |} in
  rpush db (_get_session_key session_id) message.

Definition get_conversation_history (db : store) (session_id : str)
    (limit : option Z) : list Message.t :=
  let key := _get_session_key session_id in
  match limit with
  | Some l => if l =? 0 then lrange db key 0 (-1) else lrange db key (- l) (-1)
  | None => lrange db key 0 (-1)
  end.

(** [DEL key] *)
Definition clear_conversation (db : store) (session_id : str) : store :=
  delete (_get_session_key session_id) db.

(** [LLEN key]: a missing key counts as an empty list. *)
Definition get_conversation_length (db : store) (session_id : str) : Z :=
  len (default [] (db !! _get_session_key session_id)).

(** [EXISTS key > 0] *)
Definition session_exists (db : store) (session_id : str) : bool :=
  bool_decide (is_Some (db !! _get_session_key session_id)).


End RedisService.

(** ** [app/services/rag.py] *)

Module RAGService.

Definition nl : str := [ "010"%char ].

Definition booking_keywords : list str :=
  [ lit "book"; lit "schedule"; lit "interview"; lit "appointment";
    lit "meeting"; lit "set up"; lit "arrange"; lit "reserve" ].

Definition _is_booking_intent (query : str) : bool :=
  let query_lower := lower query in
  existsb (fun keyword => contains keyword query_lower) booking_keywords.

(** The conversation history string of [_generate_answer]. *)
Definition history_parts (conversation_history : list Message.t) : list str :=
  foldl (fun history_parts msg =>
           let role := default [] (Message.role msg) in
           let content := default [] (Message.content msg) in
           if truthy role && truthy content then
             history_parts ++ [capitalize role ++ lit ": " ++ content]
           else history_parts)
        [] (slice conversation_history (Some (-6)) None).

Definition history_text (conversation_history : list Message.t) : str :=
  join nl (history_parts conversation_history).

Definition system_prompt : str :=
  lit "You are a helpful AI assistant. Answer questions based on the provided context." ++ nl ++
  lit "If the context doesn't contain relevant information, say so politely." ++ nl ++
  lit "Be concise and accurate. Use the conversation history for context.".

Definition user_prompt (history_text context_text query : str) : str :=
  lit "Previous conversation:" ++ nl ++
  (if truthy history_text then history_text else lit "No previous conversation") ++ nl ++
  nl ++
  lit "Context from documents:" ++ nl ++
  (if truthy context_text then context_text else lit "No relevant context found") ++ nl ++
  nl ++
  lit "Question: " ++ query ++ nl ++
  nl ++
  lit "Please provide a clear and concise answer based on the context above.".

(** The calls made to the collaborators, in the order they are made. The
    call to the language model also passes [temperature=0.7] and
    [max_tokens=500]; these constants are left out. *)
Inductive call (float : Type) : Type :=
| CallEmbedding (text : str)
| CallSearch (query_vector : list float) (top_k : Z)
| CallHistoryRead (session_id : str) (limit : option Z)
| CallLLM (model system user : str)
| CallHistoryWrite (session_id role content : str).
Arguments CallEmbedding {float} _.
Arguments CallSearch {float} _ _.
Arguments CallHistoryRead {float} _ _.
Arguments CallLLM {float} _ _ _.
Arguments CallHistoryWrite {float} _ _ _.

Section Service.

(** Python's [float], with [round(x, 4)] and the constant [0.0]. *)
Context {float : Type} (round4 : float -> float) (zero : float).

(** The context string of [_generate_answer]; [idx] is the counter of
    [enumerate(context_results, 1)]. *)
Definition context_parts (context_results : list (SearchResult.t float)) : list str :=
  fst (foldl (fun '(context_parts, idx) result =>
                let metadata := default Metadata.empty (SearchResult.metadata result) in
                let chunk_text := default [] (Metadata.chunk_text metadata) in
                let source := default (lit "Unknown") (Metadata.filename metadata) in
                (context_parts ++
                   [lit "[Source " ++ of_nat idx ++ lit ": " ++ source ++ lit "]" ++ nl ++
                    chunk_text ++ nl],
                 S idx))
             ([], 1%nat) context_results).

Definition context_text (context_results : list (SearchResult.t float)) : str :=
  join nl (context_parts context_results).

Definition _format_sources (search_results : list (SearchResult.t float))
  : list (Source.t float) :=
  foldl (fun sources result =>
           let metadata := default Metadata.empty (SearchResult.metadata result) in
           sources ++
             [ {| Source.document_id := default [] (Metadata.document_id metadata);
                  Source.filename := default (lit "Unknown") (Metadata.filename metadata);
                  Source.chunk_text :=
                    slice (default [] (Metadata.chunk_text metadata)) None (Some 200)
                      ++ lit "...";
                  Source.relevance_score :=
                    round4 (default zero (SearchResult.score result)) |} ])
        [] search_results.

(** The collaborators. Each either returns or raises. The response of
    the language model is the list of the [message.content] of its
    choices, a content being [None] when the model sent none. *)
Record collaborators : Type := {
  generate_embedding : str -> exn + list float;
  search : list float -> Z -> exn + list (SearchResult.t float);
  chat_completions_create : str -> str -> str -> exn + list (option str)
}.

Record world : Type := { redis : RedisService.store; calls : list (call float) }.

(** Computations of the service: they read and update the world, and
    return a value or raise. *)
Definition M (A : Type) : Type := world -> world * (exn + A).

Definition ret {A} (a : A) : M A := fun w => (w, inr a).

Definition bind {A B} (m : M A) (k : A -> M B) : M B :=
  fun w => match m w with
           | (w', inr a) => k a w'
           | (w', inl e) => (w', inl e)
           end.

(** [try: m except Exception as e: h e] *)
Definition try_except {A} (m : M A) (h : exn -> M A) : M A :=
  fun w => match m w with
           | (w', inr a) => (w', inr a)
           | (w', inl e) => h e w'
           end.

Definition raise {A} (e : exn) : M A := fun w => (w, inl e).

Definition log (c : call float) : M unit :=
  fun w => ({| redis := redis w; calls := calls w ++ [c] |}, inr tt).

Definition lift {A} (r : exn + A) : M A := fun w => (w, r).

#[local] Notation "'do' x <- m ; k" := (bind m (fun x => k))
  (at level 10, x name, m at level 100, k at level 200).
#[local] Notation "'run' m ; k" := (bind m (fun _ => k))
  (at level 10, m at level 100, k at level 200).

Variable self : collaborators.
Variable settings : Settings.t.

Definition embedding_service_generate_embedding (text : str) : M (list float) :=
  run log (CallEmbedding text); lift (generate_embedding self text).

Definition vector_store_search (query_vector : list float) (top_k : Z)
  : M (list (SearchResult.t float)) :=
  run log (CallSearch query_vector top_k); lift (search self query_vector top_k).

Definition redis_service_get_conversation_history (session_id : str) (limit : option Z)
  : M (list Message.t) :=
  run log (CallHistoryRead session_id limit);
  fun w => (w, inr (RedisService.get_conversation_history (redis w) session_id limit)).

Definition redis_service_save_message (session_id role content : str) : M unit :=
  run log (CallHistoryWrite session_id role content);
  fun w => ({| redis := RedisService.save_message (redis w) session_id role content;
               calls := calls w |}, inr tt).

Definition llm_client_chat_completions_create (model system user : str)
  : M (list (option str)) :=
  run log (CallLLM model system user); lift (chat_completions_create self model system user).

(** [response.choices[0].message.content.strip()], with the two
    exceptions the expression can raise. *)
Definition first_content_stripped (choices : list (option str)) : M str :=
  match choices with
  | [] => raise (Raise (lit "IndexError") (lit "list index out of range"))
  | None :: _ =>
      raise (Raise (lit "AttributeError")
               (lit "'NoneType' object has no attribute 'strip'"))
  | Some content :: _ => ret (strip content)
  end.

Definition _generate_answer (query : str)
    (context_results : list (SearchResult.t float))
    (conversation_history : list Message.t) : M str :=
  let context_text := context_text context_results in
  let history_text := history_text conversation_history in
  let user_prompt := user_prompt history_text context_text query in
  try_except
    (do response <- llm_client_chat_completions_create
                      (Settings.llm_model settings) system_prompt user_prompt;
     do answer <- first_content_stripped response;
     ret answer)
    (fun e => ret (lit "Error generating answer: " ++ exn_str e)).

Definition query (user_query session_id : str) (top_k : Z) : M (QueryResult.t float) :=
  if _is_booking_intent user_query then
    ret {| QueryResult.type := lit "booking_intent";
           QueryResult.message := Some (lit "I detected you want to book an interview. Please provide: name, email, date (YYYY-MM-DD), and time (HH:MM)");
           QueryResult.answer := None;
           QueryResult.sources := [] |}
  else
    do query_embedding <- embedding_service_generate_embedding user_query;
    do search_results <- vector_store_search query_embedding top_k;
    do conversation_history <-
      redis_service_get_conversation_history session_id (Some 10);
    do answer <- _generate_answer user_query search_results conversation_history;
    run redis_service_save_message session_id (lit "user") user_query;
    run redis_service_save_message session_id (lit "assistant") answer;
    let sources := _format_sources search_results in
    ret {| QueryResult.type := lit "answer";
           QueryResult.message := None;
           QueryResult.answer := Some answer;
           QueryResult.sources := sources |}.

Definition _retrieve_context (query_embedding : list float) (top_k : Z)
  : M (list (SearchResult.t float)) :=
  do results <- vector_store_search query_embedding top_k;
  ret results.


End Service.

End RAGService.

(** ** [app/services/document_processor.py] *)

Module DocumentProcessor.

(** [filename.lower().split('.')[-1]] and the test of the extension. *)
Definition _get_file_type (filename : str) : exn + str :=
  match last (split_on "."%char (lower filename)) with
  | None => inl (Raise (lit "IndexError") (lit "list index out of range"))
  | Some extension =>
      if bool_decide (extension = lit "pdf") then inr (lit "pdf")
      else if bool_decide (extension = lit "txt") then inr (lit "txt")
      else inl (Raise (lit "ValueError")
                  (lit "Unsupported file extension: ." ++ extension))
  end.

(** [validate_file]; [format_mb file_size] stands for the formatted
    quotient [f"{file_size / 1024 / 1024:.2f}"], a computation on floats. *)
Definition validate_file (format_mb : Z -> str) (filename : str)
    (file_size max_size_mb : Z) : exn + unit :=
  match _get_file_type filename with
  | inl e => inl e
  | inr _ =>
      let max_size_bytes := max_size_mb * 1024 * 1024 in
      if file_size >? max_size_bytes then
        inl (Raise (lit "ValueError")
               (lit "File size (" ++ format_mb file_size ++ lit " MB) exceeds " ++
                lit "maximum allowed size (" ++ of_Z max_size_mb ++ lit " MB)"))
      else if file_size =? 0 then
        inl (Raise (lit "ValueError") (lit "File is empty"))
      else inr tt
  end.

(** [_extract_from_txt]: [content] is what [file.read()] returned,
    [decode_utf8] is [content.decode('utf-8')] ([None] when it raises
    [UnicodeDecodeError]) and [decode_latin1] is
    [content.decode('latin-1')], which never fails and gives for every
    byte the character of the same number. The test [text.strip()] removes
    the white space of [isspace], the no-break space and NEL included.
    Whatever is raised inside the [try] comes out as a [ValueError]. *)
Definition _extract_from_txt {bytes : Type} (decode_utf8 : bytes -> option str)
    (decode_latin1 : bytes -> str) (content : bytes) : exn + str :=
  let text :=
    match decode_utf8 content with
    | Some text => text
    | None => decode_latin1 content
    end in
  if negb (truthy (strip text)) then
    inl (Raise (lit "ValueError")
           (lit "Error extracting text from TXT: " ++ lit "Text file is empty"))
  else inr text.

End DocumentProcessor.

(** ** [app/api/ingestion.py] and [app/api/chat.py] *)

(** [HTTPException(status_code, detail)]; the detail is a string or, for a
    booking intent, the dictionary with the keys [error], [message] and
    [suggestion]. *)
Inductive http_detail : Type :=
| DetailText (text : str)
| DetailBooking (error : str) (message : option str) (suggestion : str).

Inductive http_exn : Type := HTTPException (status_code : Z) (detail : http_detail).

Module Ingestion.

(** [chunker.chunk(text)], by the class of the strategy. *)
Definition chunk_with (fuel : nat) (chunker : ChunkingStrategy) (text : str)
  : option (list Chunk.t) :=
  match chunker with
  | Fixed self => FixedSizeChunking.chunk fuel self text
  | Semantic self => Some (SemanticChunking.chunk self text)
  end.

(** The part of [ingest_document] between the extraction of the text and
    the embeddings: the test of the extracted text, step 3 and the test of
    its result. [None] when the fuel does not suffice for the chunker. *)
Definition chunk_step (fuel : nat) (settings : Settings.t) (chunking_strategy text : str)
  : option (http_exn + list Chunk.t) :=
  if negb (truthy (strip text)) then
    Some (inl (HTTPException 400 (DetailText (lit "No text could be extracted from the file"))))
  else
    match get_chunking_strategy settings chunking_strategy with
    | inl e =>
        Some (inl (HTTPException 400 (DetailText (lit "Chunking failed: " ++ exn_str e))))
    | inr chunker =>
        match chunk_with fuel chunker text with
        | None => None
        | Some chunks =>
            if negb (truthy chunks) then
              Some (inl (HTTPException 400 (DetailText (lit "Chunking produced no results"))))
            else Some (inr chunks)
        end
    end.

End Ingestion.

(** A row of the [chat_history] table. *)
Module ChatHistory.
Record t : Type := {
  session_id : str;
  user_id : option str;
  query : str;
  response : str
}.
End ChatHistory.

Module ChatRequest.
Record t : Type := { query : str; session_id : str; user_id : option str }.
End ChatRequest.

(** The response of the chat endpoint, without its time stamp. *)
Module ChatResponse.
Record t (float : Type) : Type := {
  answer : str;
  sources : list (Source.t float);
  session_id : str
}.
Arguments answer {float} _.
Arguments sources {float} _.
Arguments session_id {float} _.
End ChatResponse.

Module ChatEndpoint.

Section Endpoint.

Context {float : Type} (round4 : float -> float) (zero : float).
Variable rag_service : RAGService.collaborators (float := float).
Variable settings : Settings.t.

(** The world of the endpoint: that of the service and the rows added to
    the [chat_history] table. *)
Record state : Type := {
  service : RAGService.world (float := float);
  chat_history : list ChatHistory.t
}.

(** [chat]: the query is run with [top_k=5]; a booking intent is a 400; an
    answer is saved to the table and returned; any other exception is a
    500 that carries its text. *)
Definition chat (request : ChatRequest.t) (st : state)
  : state * (http_exn + ChatResponse.t float) :=
  let '(w, outcome) :=
    RAGService.query round4 zero rag_service settings
      (ChatRequest.query request) (ChatRequest.session_id request) 5 (service st) in
  let st' := {| service := w; chat_history := chat_history st |} in
  let failed (message : str) :=
    (st', inl (HTTPException 500
                 (DetailText (lit "Error processing chat request: " ++ message)))) in
  match outcome with
  | inl e => failed (exn_str e)
  | inr result =>
      if bool_decide (QueryResult.type result = lit "booking_intent") then
        (st', inl (HTTPException 400
                     (DetailBooking (lit "booking_intent_detected")
                        (QueryResult.message result)
                        (lit "Please use the /book-interview endpoint with complete booking details"))))
      else
        match QueryResult.answer result with
        | None => failed (lit "'answer'")
        | Some answer =>
            let chat_record :=
              {| ChatHistory.session_id := ChatRequest.session_id request;
                 ChatHistory.user_id := ChatRequest.user_id request;
                 ChatHistory.query := ChatRequest.query request;
                 ChatHistory.response := answer |} in
            ({| service := w; chat_history := chat_history st ++ [chat_record] |},
             inr {| ChatResponse.answer := answer;
                    ChatResponse.sources := QueryResult.sources result;
                    ChatResponse.session_id := ChatRequest.session_id request |})
        end
  end.

End Endpoint.

End ChatEndpoint.



(** * Vocabulary of the specification *)

(** A string of white space only. *)
Definition blank (s : str) : Prop := Forall (fun c => isspace c = true) s.

(** A run, indexed by its fuel, returns [r]: enough fuel gives [r]. *)
Definition returns {A} (run : nat → option A) (r : A) : Prop :=
  ∃ n, ∀ fuel, (n ≤ fuel)%nat → run fuel = Some r.

(** ** White-space normalization *)

(** The pieces of [s] between its white-space characters, the empty ones
    included. *)
Fixpoint split_space (s : str) : list str :=
  match s with
  | [] => [[]]
  | c :: s' =>
      if isspace c then [] :: split_space s' else push_head c (split_space s')
  end.

(** The words of [s]: its maximal runs of characters that are no white
    space, in order (what [s.split()] returns). The white-space-normalized
    text of the specification is the words joined by single spaces. *)
Definition words (s : str) : list str := filter (fun w => w ≠ []) (split_space s).

(** The characters of [s] that are no white space, in order. *)
Definition non_space (s : str) : str :=
  filter (fun c => isspace c = false) (s : list ascii).

(** ** Fixed-size chunking *)

(** A valid configuration: [chunk_size > 0] and
    [0 <= chunk_overlap < chunk_size]. *)
Definition valid_fixed (self : FixedSizeChunking.t) : Prop :=
  0 < FixedSizeChunking.chunk_size self ∧
  0 ≤ FixedSizeChunking.chunk_overlap self < FixedSizeChunking.chunk_size self.

(** The advance of the window at each step. *)
Definition stride (self : FixedSizeChunking.t) : Z :=
  FixedSizeChunking.chunk_size self - FixedSizeChunking.chunk_overlap self.

(** The number of windows the loop visits on a text of [n] characters:
    [n / stride] rounded up. *)
Definition window_steps (self : FixedSizeChunking.t) (n : Z) : nat :=
  Z.to_nat ((n + stride self - 1) / stride self).

(** The text of the chunk lies in [text] at a place that contains
    position [i]. *)
Definition occurs_at (text : str) (c : Chunk.t) (i : nat) : Prop :=
  ∃ before after,
    text = before ++ Chunk.chunk_text c ++ after ∧
    (length before ≤ i < length before + length (Chunk.chunk_text c))%nat.

Definition start_of (c : Chunk.t) : Z := default 0 (Chunk.start_position c).

(** The chunk is the trimmed, non-blank window of [text] that starts at its
    [start_position] and is [chunk_size] wide. *)
Definition window_chunk (self : FixedSizeChunking.t) (text : str) (c : Chunk.t) : Prop :=
  let s := start_of c in
  let e := s + FixedSizeChunking.chunk_size self in
  0 ≤ s ∧
  Chunk.start_position c = Some s ∧
  Chunk.end_position c = Some e ∧
  Chunk.chunk_text c = strip (slice text (Some s) (Some e)) ∧
  Chunk.chunk_size c = len (slice text (Some s) (Some e)) ∧
  Chunk.chunk_text c ≠ [].

(** What one execution of the body of the loop appends to [chunks]. *)
Definition emitted (self : FixedSizeChunking.t) (text : str) (st : FixedSizeChunking.state)
  : list Chunk.t :=
  let end_ := FixedSizeChunking.start st + FixedSizeChunking.chunk_size self in
  let chunk_text := slice text (Some (FixedSizeChunking.start st)) (Some end_) in
  if truthy (strip chunk_text) then
    [ {| Chunk.chunk_index := FixedSizeChunking.chunk_index st;
         Chunk.chunk_text := strip chunk_text;
         Chunk.chunk_size := len chunk_text;
         Chunk.start_position := Some (FixedSizeChunking.start st);
         Chunk.end_position := Some end_;
         Chunk.sentence_count := None |} ]
  else [].

(** The invariant of the loop under a valid configuration: the chunks are
    numbered by their place in the list, each is the trimmed window at its
    start, the starts increase, and every character that is no white space
    and lies below the end of the last window is in a chunk. *)
Definition chunk_inv (self : FixedSizeChunking.t) (text : str)
    (st : FixedSizeChunking.state) : Prop :=
  0 ≤ FixedSizeChunking.start st ∧
  FixedSizeChunking.chunk_index st = len (FixedSizeChunking.chunks st) ∧
  (∀ k c, FixedSizeChunking.chunks st !! k = Some c →
          Chunk.chunk_index c = Z.of_nat k ∧ window_chunk self text c ∧
          start_of c < FixedSizeChunking.start st) ∧
  (∀ j k cj ck, FixedSizeChunking.chunks st !! j = Some cj →
                FixedSizeChunking.chunks st !! k = Some ck →
                (j < k)%nat → start_of cj < start_of ck) ∧
  (∀ i ch, text !! i = Some ch → isspace ch = false →
           0 < FixedSizeChunking.start st →
           Z.of_nat i < FixedSizeChunking.start st + FixedSizeChunking.chunk_overlap self →
           ∃ c, c ∈ FixedSizeChunking.chunks st ∧ occurs_at text c i).

(** ** Semantic chunking *)

(** The sentence groups as the specification words them: sentences are
    accumulated greedily; when the next sentence would make the accumulated
    length exceed [chunk_size] and the accumulator is not empty, the group is
    closed and a new one starts with that sentence; what is left at the end
    is a last group. *)
Fixpoint sentence_groups (chunk_size : Z) (current : list str) (current_size : Z)
    (sentences : list str) : list (list str) :=
  match sentences with
  | [] => if truthy current then [current] else []
  | s :: rest =>
      if (current_size + len s >? chunk_size) && truthy current then
        current :: sentence_groups chunk_size [s] (len s) rest
      else sentence_groups chunk_size (current ++ [s]) (current_size + len s) rest
  end.

(** The joined text reaches the floor. *)
Definition above_floor (self : SemanticChunking.t) (chunk_text : str) : Prop :=
  SemanticChunking.min_chunk_size self ≤ len chunk_text.

#[global] Instance above_floor_dec self chunk_text : Decision (above_floor self chunk_text).
Proof. unfold above_floor. apply _. Defined.

(** The final flush of [SemanticChunking.chunk], on the state the loop
    leaves. *)
Definition flush (self : SemanticChunking.t) (st : SemanticChunking.state) : list Chunk.t :=
  if truthy (SemanticChunking.current_chunk st) then
    fst (SemanticChunking.emit self (SemanticChunking.chunks st)
           (SemanticChunking.chunk_index st) (SemanticChunking.current_chunk st))
  else SemanticChunking.chunks st.

(** What holds of the chunks emitted so far and of the next index. *)
Definition emitted_ok (self : SemanticChunking.t) (chunks : list Chunk.t) (chunk_index : Z) : Prop :=
  chunk_index = len chunks ∧
  ∀ k c, chunks !! k = Some c →
         Chunk.chunk_index c = Z.of_nat k ∧
         SemanticChunking.min_chunk_size self ≤ len (Chunk.chunk_text c) ∧
         Chunk.chunk_size c = len (Chunk.chunk_text c).

(** ** Answer pipeline *)

(** The answer [_generate_answer] returns for each outcome of the call to
    the language model. *)
Definition answer_of (response : exn + list (option str)) : str :=
  match response with
  | inl e => lit "Error generating answer: " ++ exn_str e
  | inr [] => lit "Error generating answer: list index out of range"
  | inr (None :: _) =>
      lit "Error generating answer: 'NoneType' object has no attribute 'strip'"
  | inr (Some content :: _) => strip content
  end.

(** The user prompt [query] sends, given what retrieval and the history
    read returned. *)
Definition prompt_of {float : Type} (user_query : str)
    (search_results : list (SearchResult.t float))
    (conversation_history : list Message.t) : str :=
  RAGService.user_prompt (RAGService.history_text conversation_history)
    (RAGService.context_text search_results) user_query.

(** The last [n] elements of a list, all of them when there are fewer. *)
Definition last_n {A} (n : nat) (l : list A) : list A := drop (length l - n) l.

(** The line of the prompt for one message. *)
Definition render (m : Message.t) : str :=
  capitalize (default [] (Message.role m)) ++ lit ": " ++ default [] (Message.content m).

(** The message has a role and a content, and neither is empty. *)
Definition has_role_and_content (m : Message.t) : Prop :=
  default [] (Message.role m) ≠ [] ∧ default [] (Message.content m) ≠ [].

#[global] Instance has_role_and_content_dec m : Decision (has_role_and_content m).
Proof. unfold has_role_and_content. apply _. Defined.

(** The source record the specification describes for one search result. *)
Definition source_of {float : Type} (round4 : float → float) (zero : float)
    (result : SearchResult.t float) : Source.t float :=
  let metadata := default Metadata.empty (SearchResult.metadata result) in
  {| Source.document_id := default [] (Metadata.document_id metadata);
     Source.filename :=
       match Metadata.filename metadata with Some name => name | None => lit "Unknown" end;
     Source.chunk_text := take 200 (default [] (Metadata.chunk_text metadata)) ++ lit "...";
     Source.relevance_score := round4 (default zero (SearchResult.score result)) |}.

(** * Sample inputs *)

Definition cfg_10_3 : FixedSizeChunking.t :=
  {| FixedSizeChunking.chunk_size := 10; FixedSizeChunking.chunk_overlap := 3 |}.

Definition cfg_10_10 : FixedSizeChunking.t :=
  {| FixedSizeChunking.chunk_size := 10; FixedSizeChunking.chunk_overlap := 10 |}.

Definition cfg_3_1 : FixedSizeChunking.t :=
  {| FixedSizeChunking.chunk_size := 3; FixedSizeChunking.chunk_overlap := 1 |}.

Definition settings_10_10 : Settings.t :=
  {| Settings.chunk_size := 10; Settings.chunk_overlap := 10;
     Settings.llm_model := Settings.llm_model Settings.default |}.

(** A text of 100 characters that cleaning leaves as it is. *)
Definition text_100 : str :=
  lit "The quick brown fox jumps over the lazy dog while the cat sleeps on a mat and birds sing in the sky.".

(** A language model that is down, with an index that holds one chunk. *)
Definition failing_llm : RAGService.collaborators (float := Z) :=
  {| RAGService.generate_embedding := fun _ => inr [1; 2];
     RAGService.search := fun _ _ =>
       inr [ {| SearchResult.score := Some 5;
                SearchResult.metadata :=
                  Some {| Metadata.document_id := Some (lit "d1");
                          Metadata.filename := None;
                          Metadata.chunk_text := Some (lit "some text") |} |} ];
     RAGService.chat_completions_create := fun _ _ _ =>
       inl (Raise (lit "APITimeoutError") (lit "Request timed out.")) |}.

Definition empty_world : RAGService.world (float := Z) :=
  {| RAGService.redis := ∅; RAGService.calls := [] |}.

Definition msg (role content : string) : Message.t :=
  {| Message.role := Some (lit role); Message.content := Some (lit content) |}.

(** Six messages, the fourth of which is an assistant message with an
    empty content (a model response that was blank before [strip]). *)
Definition history_with_blank : list Message.t :=
  [ msg "user" "What is RAG?"; msg "assistant" "Retrieval-augmented generation.";
    msg "user" "And chunking?"; msg "assistant" "";
    msg "user" "Hello?"; msg "assistant" "Chunking splits documents." ].

(** Seven messages, all with a role and a content. *)
Definition history_seven : list Message.t :=
  [ msg "user" "Hi"; msg "assistant" "Hello.";
    msg "user" "What is RAG?"; msg "assistant" "Retrieval-augmented generation.";
    msg "user" "And chunking?"; msg "assistant" "Chunking splits documents.";
    msg "user" "Thanks" ].

(** * Vocabulary of the further properties *)

(** White space occurs in [s] only as single spaces, each followed by a
    character that is no white space or by the end of [s]. *)
Fixpoint single_spaced (s : str) : Prop :=
  match s with
  | [] => True
  | c :: s' =>
      (isspace c = true →
       c = " "%char ∧ match s' with d :: _ => isspace d = false | [] => True end) ∧
      single_spaced s'
  end.

(** [s] neither starts nor ends with white space. *)
Definition trimmed (s : str) : Prop :=
  (∀ c, head s = Some c → isspace c = false) ∧
  (∀ c, last s = Some c → isspace c = false).

(** A piece of text that is not empty and is trimmed. *)
Definition good_piece (p : str) : Prop := p ≠ [] ∧ trimmed p.

(** The sum of the lengths of the strings. *)
Definition total_len (l : list str) : Z := foldr (fun s acc => len s + acc) 0 l.

(** The group holds one sentence, or its sentences fit together in
    [chunk_size] characters (the joining spaces not counted). *)
Definition group_fits (chunk_size : Z) (g : list str) : Prop :=
  length g = 1%nat ∨ total_len g ≤ chunk_size.

(** The chunk is made of the group of sentences [g]. *)
Definition chunk_of_group (c : Chunk.t) (g : list str) : Prop :=
  Chunk.chunk_text c = join (lit " ") g ∧
  Chunk.sentence_count c = Some (len g) ∧
  Chunk.chunk_size c = len (join (lit " ") g) ∧
  Chunk.start_position c = None ∧ Chunk.end_position c = None.

(** The sentences and the sentence groups of a text. *)
Definition sentences_of (text : str) : list str :=
  SemanticChunking._split_into_sentences (SemanticChunking._clean_text text).

Definition groups_of (self : SemanticChunking.t) (text : str) : list (list str) :=
  sentence_groups (SemanticChunking.chunk_size self) [] 0 (sentences_of text).

(** The joined group reaches the floor. *)
Definition group_above_floor (self : SemanticChunking.t) (g : list str) : Prop :=
  above_floor self (join (lit " ") g).

#[global] Instance group_above_floor_dec self g : Decision (group_above_floor self g).
Proof. unfold group_above_floor. apply _. Defined.

(** The window of the loop is on the grid of the multiples of the stride,
    and so is the start of every chunk, which lies inside the text. *)
Definition grid_inv (self : FixedSizeChunking.t) (text : str)
    (st : FixedSizeChunking.state) : Prop :=
  (∃ k : nat, FixedSizeChunking.start st = Z.of_nat k * stride self) ∧
  ∀ c, c ∈ FixedSizeChunking.chunks st →
       ∃ k : nat, start_of c = Z.of_nat k * stride self ∧ start_of c < len text.

(** No key of the store holds an empty list: Redis removes a list when its
    last element goes. *)
Definition no_empty_list (db : gmap str (list Message.t)) : Prop :=
  ∀ key l, db !! key = Some l → l ≠ [].

(** The whole history of a session, oldest message first. *)
Definition stored_history (db : gmap str (list Message.t)) (session_id : str)
  : list Message.t :=
  default [] (db !! RedisService._get_session_key session_id).

(** The block of the context string for the result numbered [idx]. *)
Definition source_block {float : Type} (idx : nat) (result : SearchResult.t float) : str :=
  let metadata := default Metadata.empty (SearchResult.metadata result) in
  lit "[Source " ++ of_nat idx ++ lit ": " ++
  default (lit "Unknown") (Metadata.filename metadata) ++ lit "]" ++ RAGService.nl ++
  default [] (Metadata.chunk_text metadata) ++ RAGService.nl.

(** The user prompt of a query when there is neither history nor context. *)
Definition bare_prompt (query : str) : str :=
  lit "Previous conversation:" ++ RAGService.nl ++
  lit "No previous conversation" ++ RAGService.nl ++ RAGService.nl ++
  lit "Context from documents:" ++ RAGService.nl ++
  lit "No relevant context found" ++ RAGService.nl ++ RAGService.nl ++
  lit "Question: " ++ query ++ RAGService.nl ++ RAGService.nl ++
  lit "Please provide a clear and concise answer based on the context above.".

(** The two messages [query] saves for a query and its answer. *)
Definition user_message (content : str) : Message.t :=
  {| Message.role := Some (lit "user"); Message.content := Some content |}.

Definition assistant_message (content : str) : Message.t :=
  {| Message.role := Some (lit "assistant"); Message.content := Some content |}.

(** * Further sample inputs *)

Definition semantic_20_13 : SemanticChunking.t :=
  {| SemanticChunking.chunk_size := 20; SemanticChunking.min_chunk_size := 13 |}.

Definition semantic_20_1 : SemanticChunking.t :=
  {| SemanticChunking.chunk_size := 20; SemanticChunking.min_chunk_size := 1 |}.

Definition four_sentences : str :=
  lit "Hello world.  This is a test! Is this working? No.".

(** The chunk [semantic_20_13] makes of the last two of the four sentences. *)
Definition last_two_sentences : Chunk.t :=
  {| Chunk.chunk_index := 1; Chunk.chunk_text := lit "Is this working? No.";
     Chunk.chunk_size := 20; Chunk.start_position := None; Chunk.end_position := None;
     Chunk.sentence_count := Some 2 |}.

(** An embedding service that is down. *)
Definition failing_embedding : RAGService.collaborators (float := Z) :=
  {| RAGService.generate_embedding := fun _ =>
       inl (Raise (lit "RuntimeError") (lit "model not loaded"));
     RAGService.search := fun _ _ => inr [];
     RAGService.chat_completions_create := fun _ _ _ => inr [Some (lit " Fine. ")] |}.

Definition sample_request : ChatRequest.t :=
  {| ChatRequest.query := lit "What is RAG?"; ChatRequest.session_id := lit "s1";
     ChatRequest.user_id := None |}.

Definition booking_request : ChatRequest.t :=
  {| ChatRequest.query := lit "Please book me a slot"; ChatRequest.session_id := lit "s1";
     ChatRequest.user_id := None |}.

Definition empty_state : ChatEndpoint.state (float := Z) :=
  {| ChatEndpoint.service := empty_world; ChatEndpoint.chat_history := [] |}.


(** * Auxiliary facts *)

(** ** Python strings *)

Section StrFacts.

Implicit Types s t : str.

Lemma lstrip_split s :
  ∃ pre, s = pre ++ lstrip s ∧ blank pre.
Proof.
  induction s as [|c s [pre [Hs Hpre]]]; simpl.
  - exists []. split; [done | constructor].
  - destruct (isspace c) eqn:Hc.
    + exists (c :: pre). split; [simpl; congruence | by constructor].
    + exists []. split; [done | constructor].
Qed.

Lemma lstrip_head s c s' : lstrip s = c :: s' → isspace c = false.
Proof.
  induction s as [|d s IH]; simpl; [done|].
  destruct (isspace d) eqn:Hd; [done|]. intros [= -> _]. done.
Qed.

Lemma rstrip_split s :
  ∃ post, s = rstrip s ++ post ∧ blank post.
Proof.
  destruct (lstrip_split (rev s)) as [pre [Hs Hpre]].
  exists (rev pre). split.
  - unfold rstrip. rewrite <- rev_app_distr, <- Hs. by rewrite rev_involutive.
  - unfold blank. by apply Forall_rev.
Qed.

(** [strip] removes a blank prefix and a blank suffix. *)
Lemma strip_split s :
  ∃ pre post, s = pre ++ strip s ++ post ∧ blank pre ∧ blank post.
Proof.
  destruct (rstrip_split s) as [post [Hs Hpost]].
  destruct (lstrip_split (rstrip s)) as [pre [Hr Hpre]].
  exists pre, post. split; [|done].
  unfold strip. rewrite app_assoc, <- Hr. done.
Qed.

(** What [strip] leaves starts with a character that is no white space. *)
Lemma strip_not_blank s : strip s ≠ [] → ¬ blank (strip s).
Proof.
  unfold strip. destruct (lstrip (rstrip s)) as [|c s'] eqn:E; [done|].
  intros _ Hb. apply lstrip_head in E.
  inversion Hb; congruence.
Qed.

Lemma strip_nil_blank s : strip s = [] → blank s.
Proof.
  intros E. destruct (strip_split s) as (pre & post & Hs & Hpre & Hpost).
  rewrite E in Hs. rewrite Hs. by apply Forall_app.
Qed.

Lemma length_strip s : (length (strip s) ≤ length s)%nat.
Proof.
  destruct (strip_split s) as (pre & post & Hs & _).
  rewrite Hs at 2. rewrite !length_app. lia.
Qed.

Lemma truthy_true {A} (l : list A) : truthy l = true ↔ l ≠ [].
Proof. by destruct l. Qed.

Lemma truthy_false {A} (l : list A) : truthy l = false ↔ l = [].
Proof. by destruct l. Qed.

(** A slice with non-negative bounds. *)
Lemma slice_nonneg {A} (l : list A) (a b : Z) :
  0 ≤ a → 0 ≤ b →
  slice l (Some a) (Some b) =
    take (Z.to_nat (Z.min b (len l) - Z.min a (len l))) (drop (Z.to_nat (Z.min a (len l))) l).
Proof.
  intros Ha Hb. unfold slice, clamp.
  destruct (a <? 0) eqn:Ea; [lia|]. destruct (b <? 0) eqn:Eb; [lia|]. done.
Qed.

Lemma length_slice_le {A} (l : list A) (a b : Z) :
  0 ≤ a → a ≤ b → len (slice l (Some a) (Some b)) ≤ b - a.
Proof.
  intros Ha Hb. rewrite slice_nonneg by lia. unfold len.
  rewrite length_take, length_drop. lia.
Qed.

Lemma slice_lookup {A} (l : list A) (a b : Z) (j : nat) :
  0 ≤ a → 0 ≤ b → Z.of_nat j < b - a →
  slice l (Some a) (Some b) !! j = l !! (Z.to_nat a + j)%nat.
Proof.
  intros Ha Hb Hj. rewrite slice_nonneg by lia. unfold len.
  destruct (decide (Z.to_nat a + j < length l)%nat) as [Hlt|Hge].
  - rewrite lookup_take_lt by lia. rewrite lookup_drop. f_equal. lia.
  - rewrite (lookup_ge_None_2 l) by lia.
    apply lookup_ge_None_2. rewrite length_take, length_drop. lia.
Qed.

(** A slice is a segment of the list. *)
Lemma slice_segment {A} (l : list A) (a b : Z) :
  0 ≤ a → a ≤ len l → 0 ≤ b →
  ∃ before after, l = before ++ slice l (Some a) (Some b) ++ after ∧
                  len before = a.
Proof.
  intros Ha Hal Hb. rewrite slice_nonneg by lia.
  exists (take (Z.to_nat a) l),
         (drop (Z.to_nat (Z.min b (len l) - Z.min a (len l))) (drop (Z.to_nat (Z.min a (len l))) l)).
  split.
  - rewrite take_drop. replace (Z.min a (len l)) with a by lia.
    by rewrite take_drop.
  - unfold len in *. rewrite length_take. lia.
Qed.

Lemma lstrip_id (s : str) :
  match s with c :: _ => isspace c = false | [] => True end → lstrip s = s.
Proof. destruct s as [|c s]; simpl; [done|]. by intros ->. Qed.

Lemma lstrip_head_ok (s : str) :
  match lstrip s with c :: _ => isspace c = false | [] => True end.
Proof. destruct (lstrip s) eqn:E; [done|]. by eapply lstrip_head. Qed.

Lemma strip_idemp (s : str) : strip (strip s) = strip s.
Proof.
  unfold strip. set (y := rstrip s).
  assert (Hr : rstrip (lstrip y) = lstrip y).
  { unfold rstrip. rewrite lstrip_id; [by rewrite rev_involutive|].
    destruct (rev (lstrip y)) as [|c r] eqn:E; [done|].
    destruct (lstrip_split y) as (pre & Hy & _).
    assert (Hrev : rev y = c :: r ++ rev pre).
    { rewrite Hy at 1. rewrite rev_app_distr, E. done. }
    unfold y, rstrip in Hrev. rewrite rev_involutive in Hrev.
    by eapply lstrip_head. }
  rewrite Hr. apply lstrip_id, lstrip_head_ok.
Qed.

Lemma slice_all {A} (l : list A) (b : Z) :
  len l ≤ b → slice l (Some 0) (Some b) = l.
Proof.
  intros Hb. assert (0 ≤ len l) by (unfold len; lia).
  rewrite slice_nonneg by lia.
  rewrite (Z.min_l 0) by lia. rewrite Z.min_r by lia.
  rewrite Z.sub_0_r. change (Z.to_nat 0) with 0%nat. rewrite drop_0.
  apply take_ge. unfold len. lia.
Qed.

End StrFacts.

(** ** Lists and slices *)

Section ListFacts.

Context {A B : Type}.

Lemma foldl_snoc_map (f : A → B) (l : list A) (acc : list B) :
  foldl (fun acc x => acc ++ [f x]) acc l = acc ++ map f l.
Proof.
  revert acc. induction l as [|x l IH]; intros acc; simpl.
  - by rewrite app_nil_r.
  - rewrite IH, <- app_assoc. done.
Qed.

Lemma foldl_snoc_filter (P : A → Prop) `{∀ x, Decision (P x)} (p : A → bool) (f : A → B)
    (l : list A) (acc : list B) :
  (∀ x, p x = true ↔ P x) →
  foldl (fun acc x => if p x then acc ++ [f x] else acc) acc l =
    acc ++ map f (filter P l).
Proof.
  intros Hp. revert acc. induction l as [|x l IH]; intros acc; simpl.
  - by rewrite app_nil_r.
  - rewrite IH, filter_cons. destruct (p x) eqn:E.
    + rewrite decide_True by (by apply Hp). simpl. by rewrite <- app_assoc.
    + rewrite decide_False; [done|]. rewrite <- Hp. congruence.
Qed.

Lemma slice_prefix (l : list A) (n : nat) :
  slice l None (Some (Z.of_nat n)) = take n l.
Proof.
  unfold slice, clamp. destruct (Z.of_nat n <? 0) eqn:E; [apply Z.ltb_lt in E; lia|].
  rewrite Z.sub_0_r. change (Z.to_nat 0) with 0%nat. rewrite drop_0.
  unfold len. destruct (decide (n ≤ length l)%nat).
  - f_equal. lia.
  - rewrite !take_ge; [done|lia|lia].
Qed.

Lemma slice_suffix (l : list A) (n : nat) :
  (0 < n)%nat → slice l (Some (- Z.of_nat n)) None = last_n n l.
Proof.
  intros Hn. unfold slice, clamp, last_n. destruct (- Z.of_nat n <? 0) eqn:E; [|apply Z.ltb_ge in E; lia].
  unfold len. replace (Z.to_nat (Z.max (- Z.of_nat n + Z.of_nat (length l)) 0))
    with (length l - n)%nat by lia.
  apply take_ge. rewrite length_drop. lia.
Qed.

Lemma last_n_app (l : list A) (n : nat) :
  l = take (length l - n) l ++ last_n n l.
Proof. unfold last_n. by rewrite take_drop. Qed.

Lemma length_last_n (l : list A) (n : nat) :
  length (last_n n l) = Nat.min n (length l).
Proof. unfold last_n. rewrite length_drop. lia. Qed.

Lemma last_n_app_exact (earlier recent : list A) :
  last_n (length recent) (earlier ++ recent) = recent.
Proof.
  unfold last_n. rewrite length_app.
  replace (length earlier + length recent - length recent)%nat with (length earlier) by lia.
  apply drop_app_length.
Qed.

Lemma last_n_short (l : list A) (n : nat) : (length l ≤ n)%nat → last_n n l = l.
Proof. intros H. unfold last_n. by replace (length l - n)%nat with 0%nat by lia. Qed.

End ListFacts.

(** ** The loop of the fixed-size strategy *)

Section FixedFacts.

Import FixedSizeChunking.

Variable self : FixedSizeChunking.t.
Variable text : str.

Lemma body_emitted st :
  body self text st =
    let st' := {| chunks := chunks st ++ emitted self text st;
                  start := start st + stride self;
                  chunk_index := chunk_index st + len (emitted self text st) |} in
    if (start st' <=? 0) && (start st + chunk_size self >=? len text)
    then Break (chunks st') else Continue st'.
Proof.
  unfold body, emitted, stride. cbv zeta.
  destruct (truthy _); simpl;
    replace (start st + chunk_size self - chunk_overlap self)
      with (start st + (chunk_size self - chunk_overlap self)) by lia;
    rewrite ?app_nil_r, ?Z.add_0_r; done.
Qed.

(** With a valid configuration the window always advances and the guard
    of the loop never fires. *)
Lemma body_valid st :
  valid_fixed self → 0 ≤ start st →
  body self text st =
    Continue {| chunks := chunks st ++ emitted self text st;
                start := start st + stride self;
                chunk_index := chunk_index st + len (emitted self text st) |}.
Proof.
  intros [Hs Ho] Hst. rewrite body_emitted. cbv zeta. simpl.
  unfold stride. destruct (_ <=? 0) eqn:E; [lia|]. done.
Qed.

(** An invariant that every execution of the body preserves holds when
    the loop exits, and the loop exits through its condition. *)
Lemma loop_invariant (I : state → Prop) :
  (∀ st, I st → start st < len text →
         ∃ st', body self text st = Continue st' ∧ I st') →
  ∀ fuel st cs, I st → loop fuel self text st = Some cs →
    ∃ st', I st' ∧ chunks st' = cs ∧ len text ≤ start st'.
Proof.
  intros Hbody. induction fuel as [|fuel IH]; intros st cs Hst; simpl.
  - destruct (start st <? len text) eqn:E; [done|].
    intros [= <-]. exists st. split_and!; [done..|lia].
  - destruct (start st <? len text) eqn:E.
    + destruct (Hbody st Hst) as (st' & -> & Hst'); [lia|].
      by apply IH.
    + intros [= <-]. exists st. split_and!; [done..|lia].
Qed.

(** The loop exits as soon as the fuel covers the windows left. *)
Lemma loop_terminates fuel st :
  valid_fixed self → 0 ≤ start st →
  len text - start st ≤ Z.of_nat fuel * stride self →
  is_Some (loop fuel self text st).
Proof.
  intros Hv. revert st. induction fuel as [|fuel IH]; intros st Hst Hfuel; simpl.
  - destruct (start st <? len text) eqn:E; [lia|]. by eexists.
  - destruct (start st <? len text) eqn:E; [|by eexists].
    rewrite body_valid by done. apply IH; simpl; [unfold stride; destruct Hv; lia|].
    lia.
Qed.

Lemma loop_out_of_fuel fuel st :
  valid_fixed self → 0 ≤ start st →
  Z.of_nat fuel * stride self < len text - start st →
  loop fuel self text st = None.
Proof.
  intros Hv. revert st. induction fuel as [|fuel IH]; intros st Hst Hfuel; simpl.
  - destruct (start st <? len text) eqn:E; [done|lia].
  - assert (0 < stride self) by (unfold stride; destruct Hv; lia).
    destruct (start st <? len text) eqn:E; [|lia].
    rewrite body_valid by done. apply IH; simpl; lia.
Qed.

Lemma loop_fuel_mono fuel fuel' st cs :
  loop fuel self text st = Some cs → (fuel ≤ fuel')%nat →
  loop fuel' self text st = Some cs.
Proof.
  revert fuel' st. induction fuel as [|fuel IH]; intros fuel' st; simpl.
  - destruct (start st <? len text) eqn:E; [done|].
    intros H _. destruct fuel'; simpl; by rewrite E.
  - intros H Hle. destruct fuel' as [|fuel']; [lia|]. simpl.
    destruct (start st <? len text) eqn:E; [|done].
    destruct (body self text st); [|done]. apply IH; [done|lia].
Qed.

End FixedFacts.

Section Coverage.

Import FixedSizeChunking.

Lemma window_occurs (t : str) (s size : Z) (i : nat) (ch : ascii) :
  0 ≤ s → s ≤ Z.of_nat i < s + size →
  t !! i = Some ch → isspace ch = false →
  let w := slice t (Some s) (Some (s + size)) in
  strip w ≠ [] ∧
  ∃ before after, t = before ++ strip w ++ after ∧
    (length before ≤ i < length before + length (strip w))%nat.
Proof.
  intros Hs Hi Hch Hsp w.
  assert (Hlen : (i < length t)%nat) by (by eapply lookup_lt_Some).
  assert (Hw : w !! (i - Z.to_nat s)%nat = Some ch).
  { unfold w. rewrite slice_lookup by lia. rewrite <- Hch. f_equal. lia. }
  destruct (strip_split w) as (pre & post & Ew & Hpre & Hpost).
  assert (Hge : (length pre ≤ i - Z.to_nat s)%nat).
  { destruct (decide (length pre ≤ i - Z.to_nat s)%nat) as [|Hn]; [done|].
    rewrite Ew, lookup_app_l in Hw by lia.
    unfold blank in Hpre. rewrite Forall_lookup in Hpre.
    specialize (Hpre _ _ Hw). simpl in Hpre. congruence. }
  assert (Hlt : (i - Z.to_nat s < length pre + length (strip w))%nat).
  { destruct (decide (i - Z.to_nat s < length pre + length (strip w))%nat) as [|Hn]; [done|].
    rewrite Ew, app_assoc, lookup_app_r in Hw by (rewrite length_app; lia).
    unfold blank in Hpost. rewrite Forall_lookup in Hpost.
    specialize (Hpost _ _ Hw). simpl in Hpost. congruence. }
  split.
  { intros E. rewrite E in Hlt. simpl in Hlt. lia. }
  destruct (slice_segment t s (s + size)) as (before & after & Et & Hb);
    [lia | unfold len; lia | lia |].
  fold w in Et. exists (before ++ pre), (post ++ after). split.
  - rewrite Et at 1. rewrite Ew at 1. by rewrite <- !app_assoc.
  - unfold len in Hb. rewrite length_app. lia.
Qed.

Variable self : FixedSizeChunking.t.
Variable text : str.
Hypothesis Hvalid : valid_fixed self.

Lemma emitted_cases st :
  0 ≤ start st →
  (emitted self text st = [] ∧
   strip (slice text (Some (start st)) (Some (start st + chunk_size self))) = []) ∨
  (∃ c, emitted self text st = [c] ∧ Chunk.chunk_index c = chunk_index st ∧
        start_of c = start st ∧ window_chunk self text c).
Proof.
  intros Hst. unfold emitted. cbv zeta.
  destruct (truthy _) eqn:E.
  - right. eexists. split; [done|]. apply truthy_true in E.
    unfold window_chunk, start_of. simpl. done.
  - left. apply truthy_false in E. done.
Qed.

Lemma chunk_inv_body st :
  chunk_inv self text st → start st < len text →
  ∃ st', body self text st = Continue st' ∧ chunk_inv self text st'.
Proof.
  intros (Hst & Hidx & Hwf & Hsorted & Hcov) Hlt.
  destruct Hvalid as [Hsize Hov].
  eexists. split; [by apply body_valid|].
  assert (Hstride : 0 < stride self) by (unfold stride; lia).
  unfold chunk_inv. simpl.
  destruct (emitted_cases st Hst) as [[-> Hblank] | (c & -> & Hci & Hcs & Hcw)].
  - rewrite app_nil_r. split_and!; try done; try lia.
    + unfold len in *. simpl. lia.
    + intros k c Hk. destruct (Hwf k c Hk) as (? & ? & ?). split_and!; [done..|lia].
    + intros i ch Hi Hsp _ Hbound.
      destruct (decide (0 < start st ∧ Z.of_nat i < start st + chunk_overlap self)) as [[? ?]|Hn].
      { by eapply Hcov. }
      exfalso.
      destruct (window_occurs text (start st) (chunk_size self) i ch) as [Hne _];
        try done. unfold stride in *. lia.
  - split_and!; try lia.
    + unfold len in *. rewrite length_app. simpl. lia.
    + intros k c' Hk. apply lookup_app_Some in Hk as [Hk | [Hge Hk]].
      * destruct (Hwf k c' Hk) as (? & ? & ?). split_and!; [done..|lia].
      * apply list_lookup_singleton_Some in Hk as [Hk <-].
        split_and!; [|done|lia]. rewrite Hci, Hidx. unfold len. lia.
    + intros j k cj ck Hj Hk Hjk.
      apply lookup_app_Some in Hk as [Hk | [Hge Hk]].
      * assert (Hj' : chunks st !! j = Some cj).
        { apply lookup_lt_Some in Hk. by rewrite lookup_app_l in Hj by lia. }
        eauto.
      * apply list_lookup_singleton_Some in Hk as [Hk <-].
        assert (Hj' : chunks st !! j = Some cj).
        { by rewrite lookup_app_l in Hj by lia. }
        destruct (Hwf j cj Hj') as (_ & _ & ?). lia.
    + intros i ch Hi Hsp _ Hbound.
      destruct (decide (0 < start st ∧ Z.of_nat i < start st + chunk_overlap self)) as [[? ?]|Hn].
      { destruct (Hcov i ch) as (c' & Hin & Hocc); try done.
        exists c'. split; [|done]. apply elem_of_app. by left. }
      exists c. split; [apply elem_of_app; right; by apply list_elem_of_singleton|].
      destruct (window_occurs text (start st) (chunk_size self) i ch)
        as [_ (before & after & Et & Hpos)]; try done.
      { unfold stride in *. lia. }
      destruct Hcw as (_ & _ & _ & Htxt & _). rewrite Hcs in Htxt.
      exists before, after. rewrite Htxt. done.
Qed.

Lemma chunk_inv_init :
  chunk_inv self text {| chunks := []; start := 0; chunk_index := 0 |}.
Proof.
  unfold chunk_inv. simpl. split_and!; try done; intros; lia.
Qed.

End Coverage.

Section FixedResults.

Import FixedSizeChunking.

Variable self : FixedSizeChunking.t.
Hypothesis Hvalid : valid_fixed self.

Lemma window_steps_enough (n : Z) :
  0 ≤ n → n ≤ Z.of_nat (window_steps self n) * stride self.
Proof.
  intros Hn. unfold window_steps.
  assert (Hd : 0 < stride self) by (unfold stride; destruct Hvalid; lia).
  pose proof (Z.div_mod (n + stride self - 1) (stride self) ltac:(lia)) as Hq.
  pose proof (Z.mod_pos_bound (n + stride self - 1) (stride self) Hd) as Hr.
  assert (0 ≤ (n + stride self - 1) / stride self) by (apply Z.div_pos; lia).
  rewrite Z2Nat.id by done. nia.
Qed.

Lemma window_steps_needed (n : Z) (fuel : nat) :
  0 ≤ n → (fuel < window_steps self n)%nat → Z.of_nat fuel * stride self < n.
Proof.
  intros Hn. unfold window_steps.
  assert (Hd : 0 < stride self) by (unfold stride; destruct Hvalid; lia).
  pose proof (Z.div_mod (n + stride self - 1) (stride self) ltac:(lia)) as Hq.
  pose proof (Z.mod_pos_bound (n + stride self - 1) (stride self) Hd) as Hr.
  assert (0 ≤ (n + stride self - 1) / stride self) by (apply Z.div_pos; lia).
  intros Hf. apply Nat2Z.inj_lt in Hf. rewrite Z2Nat.id in Hf by done. nia.
Qed.

(** The result of the loop from the initial state, with the fuel it needs
    and the invariant it establishes. *)
Lemma loop_result (t : str) :
  ∃ st,
    (∀ fuel, (window_steps self (len t) ≤ fuel)%nat →
       loop fuel self t {| chunks := []; start := 0; chunk_index := 0 |} = Some (chunks st)) ∧
    (∀ fuel, (fuel < window_steps self (len t))%nat →
       loop fuel self t {| chunks := []; start := 0; chunk_index := 0 |} = None) ∧
    chunk_inv self t st ∧ len t ≤ start st.
Proof.
  pose (st0 := {| chunks := []; start := 0; chunk_index := 0 |}).
  assert (Hn : 0 ≤ len t) by (unfold len; lia).
  destruct (loop_terminates self t (window_steps self (len t)) st0 Hvalid) as [cs Hcs];
    [done | simpl; pose proof (window_steps_enough _ Hn); lia |].
  destruct (loop_invariant self t (chunk_inv self t) (chunk_inv_body self t Hvalid)
              _ st0 cs (chunk_inv_init self t) Hcs) as (st & Hinv & <- & Hexit).
  exists st. split_and!; [|      |done|done].
  - intros fuel Hfuel. by eapply loop_fuel_mono.
  - intros fuel Hfuel. apply loop_out_of_fuel; [done..|].
    simpl. pose proof (window_steps_needed _ fuel Hn Hfuel). lia.
Qed.

Lemma window_chunk_length (t : str) (c : Chunk.t) :
  window_chunk self t c → len (Chunk.chunk_text c) ≤ chunk_size self.
Proof.
  intros (Hs & _ & _ & -> & _). destruct Hvalid as [Hsize _].
  pose proof (length_strip (slice t (Some (start_of c)) (Some (start_of c + chunk_size self)))).
  pose proof (length_slice_le t (start_of c) (start_of c + chunk_size self)).
  unfold len in *. lia.
Qed.

End FixedResults.

Lemma clean_text_stripped (text : str) :
  strip (FixedSizeChunking._clean_text text) = FixedSizeChunking._clean_text text.
Proof. unfold FixedSizeChunking._clean_text. apply strip_idemp. Qed.

(** When the overlap equals the size the window never moves: on a text
    longer than one window the guard of the loop does not fire and the
    loop runs for ever. *)
Lemma loop_stuck (self : FixedSizeChunking.t) (t : str) :
  FixedSizeChunking.chunk_overlap self = FixedSizeChunking.chunk_size self →
  0 < FixedSizeChunking.chunk_size self < len t →
  ∀ fuel chunks idx,
    FixedSizeChunking.loop fuel self t
      {| FixedSizeChunking.chunks := chunks; FixedSizeChunking.start := 0;
         FixedSizeChunking.chunk_index := idx |} = None.
Proof.
  intros Ho Hs. assert (0 ≤ len t) by (unfold len; lia).
  assert (E : (0 <? len t) = true) by (apply Z.ltb_lt; lia).
  induction fuel as [|fuel IH]; intros chunks idx;
    cbn [FixedSizeChunking.loop FixedSizeChunking.start]; rewrite E; [done|].
  rewrite body_emitted. cbn [FixedSizeChunking.start FixedSizeChunking.chunks].
  unfold stride. rewrite Ho, Z.sub_diag, Z.add_0_l.
  destruct (_ >=? len t) eqn:E2; [lia|]. rewrite andb_false_r. apply IH.
Qed.

(** The constructor keeps the two values it is given when neither is zero. *)
Lemma init_keeps_given (settings : Settings.t) (size overlap : Z) :
  size ≠ 0 → overlap ≠ 0 →
  FixedSizeChunking.__init__ settings (Some size) (Some overlap) =
    {| FixedSizeChunking.chunk_size := size; FixedSizeChunking.chunk_overlap := overlap |}.
Proof.
  intros Hs Ho. unfold FixedSizeChunking.__init__, int_or.
  destruct (size =? 0) eqn:E1; [lia|]. destruct (overlap =? 0) eqn:E2; [lia|]. done.
Qed.

(** An overlap of zero given to the constructor is taken as not given: the
    value of the settings replaces it. *)
Lemma init_replaces_zero (settings : Settings.t) (size : Z) :
  FixedSizeChunking.chunk_overlap (FixedSizeChunking.__init__ settings (Some size) (Some 0)) =
    Settings.chunk_overlap settings.
Proof. reflexivity. Qed.

(** ** The semantic strategy *)

Section SemanticFacts.

Import SemanticChunking.

Variable self : SemanticChunking.t.

Lemma emit_texts chunks idx current :
  map Chunk.chunk_text (emit self chunks idx current).1 =
    map Chunk.chunk_text chunks ++ filter (above_floor self) [join (lit " ") current].
Proof.
  unfold emit. cbv zeta. rewrite filter_cons, filter_nil.
  destruct (_ >=? _) eqn:E; cbn [fst].
  - rewrite decide_True by (unfold above_floor; lia).
    by rewrite map_app.
  - rewrite decide_False by (unfold above_floor; lia).
    by rewrite app_nil_r.
Qed.

Lemma emit_ok chunks idx current :
  emitted_ok self chunks idx →
  emitted_ok self (emit self chunks idx current).1 (emit self chunks idx current).2.
Proof.
  intros [Hidx Hall]. unfold emit. cbv zeta.
  destruct (_ >=? _) eqn:E; simpl; [|done].
  split.
  - unfold len in *. rewrite length_app. simpl. lia.
  - intros k c Hk. apply lookup_app_Some in Hk as [Hk | [Hge Hk]]; [by apply Hall|].
    apply list_lookup_singleton_Some in Hk as [Hk <-]. simpl.
    split_and!; [unfold len in *; lia | lia | done].
Qed.

Lemma body_ok st sentence :
  emitted_ok self (chunks st) (chunk_index st) →
  emitted_ok self (chunks (body self st sentence)) (chunk_index (body self st sentence)).
Proof.
  intros Hok. unfold body. cbv zeta.
  destruct (_ && _); [|done].
  pose proof (emit_ok (chunks st) (chunk_index st) (current_chunk st) Hok) as H.
  destruct (emit self _ _ _) as [chunks' idx']. done.
Qed.

Lemma foldl_body_ok sentences st :
  emitted_ok self (chunks st) (chunk_index st) →
  let st' := foldl (body self) st sentences in
  emitted_ok self (chunks st') (chunk_index st').
Proof.
  revert st. induction sentences as [|s rest IH]; intros st Hok; simpl; [done|].
  apply IH. by apply body_ok.
Qed.

Lemma flush_ok st :
  emitted_ok self (chunks st) (chunk_index st) →
  ∃ idx, emitted_ok self (flush self st) idx.
Proof.
  intros Hok. unfold flush. destruct (truthy _); [|by eexists].
  eexists. by apply emit_ok.
Qed.

(** The loop and the flush emit, in order, the groups of the
    specification that reach the floor. *)
Lemma flush_foldl_texts sentences st :
  map Chunk.chunk_text (flush self (foldl (body self) st sentences)) =
    map Chunk.chunk_text (chunks st) ++
    filter (above_floor self)
      (map (join (lit " "))
           (sentence_groups (chunk_size self) (current_chunk st) (current_size st) sentences)).
Proof.
  revert st. induction sentences as [|s rest IH]; intros st; simpl.
  - unfold flush. destruct (truthy (current_chunk st)) eqn:E.
    + rewrite emit_texts. done.
    + simpl. by rewrite filter_nil, app_nil_r.
  - rewrite IH. unfold body. cbv zeta.
    destruct (_ && _) eqn:E.
    + pose proof (emit_texts (chunks st) (chunk_index st) (current_chunk st)) as He.
      destruct (emit self _ _ _) as [chunks' idx']. simpl in *.
      rewrite He. rewrite <- app_assoc. f_equal.
      rewrite (filter_cons _ (join _ _)), filter_nil.
      rewrite (filter_cons _ (join _ _)).
      destruct (decide _); by simpl.
    + done.
Qed.

End SemanticFacts.

(** For a chunk of the semantic strategy [chunk_size] is the length of the
    stored text. *)
Lemma semantic_chunk_size (self : SemanticChunking.t) (text : str) (c : Chunk.t) :
  c ∈ SemanticChunking.chunk self text →
  Chunk.chunk_size c = len (Chunk.chunk_text c).
Proof.
  intros Hc.
  pose (st0 := {| SemanticChunking.chunks := []; SemanticChunking.current_chunk := [];
                  SemanticChunking.current_size := 0; SemanticChunking.chunk_index := 0 |}).
  assert (Hok0 : emitted_ok self (SemanticChunking.chunks st0) (SemanticChunking.chunk_index st0)).
  { split; [done|]. intros k c' Hk. done. }
  destruct (flush_ok self _ (foldl_body_ok self
              (SemanticChunking._split_into_sentences (SemanticChunking._clean_text text))
              st0 Hok0)) as [idx [_ Hall]].
  apply list_elem_of_lookup in Hc as [k Hk]. by apply (Hall k c).
Qed.

(** ** Keyword detection *)

Section ContainsFacts.

Lemma startswith_spec (p s : str) :
  startswith p s = true ↔ ∃ after, s = p ++ after.
Proof.
  revert s. induction p as [|a p IH]; intros s; simpl.
  - split; [intros _; by exists s | done].
  - destruct s as [|b s].
    + split; [done|]. intros [after H]. done.
    + rewrite andb_true_iff, IH, Ascii.eqb_eq. split.
      * intros [-> [after ->]]. by exists after.
      * intros [after [= -> ->]]. split; [done | by exists after].
Qed.

Lemma contains_spec (needle hay : str) :
  contains needle hay = true ↔ ∃ before after, hay = before ++ needle ++ after.
Proof.
  induction hay as [|c hay IH].
  - simpl. rewrite orb_false_r, startswith_spec. split.
    + intros [after H]. by exists [], after.
    + intros (before & after & H). destruct before as [|? ?]; [by exists after|done].
  - cbn [contains]. rewrite orb_true_iff, startswith_spec, IH. split.
    + intros [[after H] | (before & after & H)].
      * by exists [], after.
      * exists (c :: before), after. simpl. by rewrite H.
    + intros (before & after & H). destruct before as [|b before].
      * left. by exists after.
      * right. simpl in H. injection H as -> H. by exists before, after.
Qed.

Lemma is_booking_intent_spec (query : str) :
  RAGService._is_booking_intent query = true ↔
  ∃ keyword before after,
    keyword ∈ RAGService.booking_keywords ∧ lower query = before ++ keyword ++ after.
Proof.
  unfold RAGService._is_booking_intent. rewrite existsb_exists. split.
  - intros (kw & Hin & Hc). apply contains_spec in Hc as (before & after & H).
    exists kw, before, after. split; [by apply list_elem_of_In | done].
  - intros (kw & before & after & Hin & H). exists kw.
    split; [by apply list_elem_of_In|]. apply contains_spec. by exists before, after.
Qed.

End ContainsFacts.

(** ** The run of a query *)

Section PipelineFacts.

Import RAGService.

Context {float : Type} (round4 : float → float) (zero : float).
Variable self : collaborators (float := float).
Variable settings : Settings.t.

Lemma generate_answer_run query results history (w : world) :
  _generate_answer self settings query results history w =
    ({| redis := redis w;
        calls := calls w ++
          [CallLLM (Settings.llm_model settings) system_prompt (prompt_of query results history)] |},
     inr (answer_of (chat_completions_create self (Settings.llm_model settings)
                       system_prompt (prompt_of query results history)))).
Proof.
  unfold _generate_answer, try_except, bind, llm_client_chat_completions_create,
    bind, log, lift, first_content_stripped, ret, raise, prompt_of. simpl.
  destruct (chat_completions_create _ _ _ _) as [e | [|[content|] choices]]; done.
Qed.

(** A failure of the embedding or of the retrieval aborts [query]: the
    exception comes out, and nothing is read from or written to the
    history. *)
Lemma query_embedding_raises user_query session_id top_k (w : world) e :
  _is_booking_intent user_query = false →
  generate_embedding self user_query = inl e →
  query round4 zero self settings user_query session_id top_k w =
    ({| redis := redis w; calls := calls w ++ [CallEmbedding user_query] |}, inl e).
Proof.
  intros Hb He. unfold query. rewrite Hb.
  unfold bind at 1. unfold embedding_service_generate_embedding, bind, log, lift.
  by rewrite He.
Qed.

Lemma query_search_raises user_query session_id top_k (w : world) v e :
  _is_booking_intent user_query = false →
  generate_embedding self user_query = inr v →
  search self v top_k = inl e →
  query round4 zero self settings user_query session_id top_k w =
    ({| redis := redis w;
        calls := calls w ++ [CallEmbedding user_query; CallSearch v top_k] |}, inl e).
Proof.
  intros Hb He Hs. unfold query. rewrite Hb.
  unfold bind at 1. unfold embedding_service_generate_embedding, bind, log, lift.
  rewrite He. unfold vector_store_search, bind, log, lift. cbn [redis calls].
  rewrite Hs. by rewrite <- app_assoc.
Qed.

(** The whole run of [query] on a query without booking intent, when the
    embedding and the retrieval succeed. *)
Lemma query_answer_run user_query session_id top_k (w : world) v results :
  _is_booking_intent user_query = false →
  generate_embedding self user_query = inr v →
  search self v top_k = inr results →
  let history := RedisService.get_conversation_history (redis w) session_id (Some 10) in
  let prompt := prompt_of user_query results history in
  let answer := answer_of (chat_completions_create self (Settings.llm_model settings)
                             system_prompt prompt) in
  query round4 zero self settings user_query session_id top_k w =
    ({| redis := RedisService.save_message
                   (RedisService.save_message (redis w) session_id (lit "user") user_query)
                   session_id (lit "assistant") answer;
        calls := calls w ++
          [ CallEmbedding user_query;
            CallSearch v top_k;
            CallHistoryRead session_id (Some 10);
            CallLLM (Settings.llm_model settings) system_prompt prompt;
            CallHistoryWrite session_id (lit "user") user_query;
            CallHistoryWrite session_id (lit "assistant") answer ] |},
     inr {| QueryResult.type := lit "answer";
            QueryResult.message := None;
            QueryResult.answer := Some answer;
            QueryResult.sources := _format_sources round4 zero results |}).
Proof.
  intros Hb He Hs history prompt answer.
  unfold query. rewrite Hb.
  unfold bind at 1. unfold embedding_service_generate_embedding, bind, log, lift.
  rewrite He. unfold vector_store_search, bind, log, lift. cbn [redis calls].
  rewrite Hs. unfold redis_service_get_conversation_history, bind, log. cbn [redis calls].
  rewrite generate_answer_run. cbn [redis calls].
  unfold redis_service_save_message, bind, log, ret. cbn [redis calls].
  fold history. fold prompt. fold answer.
  rewrite <- !app_assoc. done.
Qed.

End PipelineFacts.

Lemma save_two_messages (db : RedisService.store) (session_id : str) (m1 m2 : str * str) :
  RedisService.save_message
    (RedisService.save_message db session_id m1.1 m1.2) session_id m2.1 m2.2
    !! RedisService._get_session_key session_id =
  Some (default [] (db !! RedisService._get_session_key session_id) ++
        [ {| Message.role := Some m1.1; Message.content := Some m1.2 |};
          {| Message.role := Some m2.1; Message.content := Some m2.2 |} ]).
Proof.
  unfold RedisService.save_message, RedisService.rpush.
  rewrite lookup_insert_eq. rewrite lookup_insert_eq. simpl.
  by rewrite <- app_assoc.
Qed.

(** ** The history lines *)

Section HistoryFacts.

Import RAGService.

Lemma rendered_iff (m : Message.t) :
  truthy (default [] (Message.role m)) && truthy (default [] (Message.content m)) = true
  ↔ has_role_and_content m.
Proof.
  unfold has_role_and_content. rewrite andb_true_iff, !truthy_true. done.
Qed.

(** The history lines are the lines of the messages, among the last six,
    that have a role and a content. *)
Lemma history_parts_spec (history : list Message.t) :
  history_parts history = map render (filter has_role_and_content (last_n 6 history)).
Proof.
  unfold history_parts.
  change (Some (-6)) with (Some (- Z.of_nat 6)).
  rewrite (slice_suffix history 6) by lia.
  rewrite (foldl_snoc_filter has_role_and_content
             (fun m => truthy (default [] (Message.role m)) &&
                       truthy (default [] (Message.content m))) render).
  - done.
  - apply rendered_iff.
Qed.

End HistoryFacts.

(** * Further auxiliary facts *)

(** ** The normal form of a cleaned text *)

Section NormalForm.

Implicit Types s t : str.

Lemma lstrip_blank s : blank s → lstrip s = [].
Proof.
  induction 1 as [|c s Hc Hs IH]; simpl; [done|]. by rewrite Hc.
Qed.

Lemma strip_blank s : blank s → strip s = [].
Proof.
  intros Hb. unfold strip, rstrip.
  rewrite (lstrip_blank (rev s)); [done|]. unfold blank. by apply Forall_rev.
Qed.

Lemma rstrip_fixed s : strip s = s → rstrip s = s.
Proof.
  intros E.
  destruct (rstrip_split s) as (post & Hs & _).
  destruct (lstrip_split (rstrip s)) as (pre & Hr & _).
  fold (strip s) in Hr. rewrite E in Hr.
  assert (Hlen : length s = (length pre + length s + length post)%nat).
  { rewrite Hs at 1. rewrite Hr at 1. rewrite !length_app. lia. }
  destruct pre; [|simpl in Hlen; lia]. done.
Qed.

Lemma last_rev_head s c : last s = Some c → ∃ r, rev s = c :: r.
Proof.
  intros H. apply last_Some in H as [l' ->]. exists (rev l').
  by rewrite rev_app_distr.
Qed.

Lemma strip_fixed_trimmed s : strip s = s → trimmed s.
Proof.
  intros E. split.
  - intros c Hc. destruct s as [|d s']; [done|]. injection Hc as ->.
    unfold strip in E. by eapply lstrip_head.
  - intros c Hc. apply last_rev_head in Hc as [r Hr].
    pose proof (rstrip_fixed s E) as Hrs. unfold rstrip in Hrs.
    assert (Hl : lstrip (rev s) = rev s).
    { rewrite <- Hrs at 2. by rewrite rev_involutive. }
    rewrite Hr in Hl. by eapply lstrip_head.
Qed.

Lemma trimmed_strip s : trimmed s → strip s = s.
Proof.
  intros [Hh Hl]. unfold strip.
  assert (Hr : rstrip s = s).
  { unfold rstrip. rewrite lstrip_id; [by rewrite rev_involutive|].
    destruct (rev s) as [|c r] eqn:E; [done|]. apply Hl.
    apply last_Some. exists (rev r).
    rewrite <- (rev_involutive s), E. done. }
  rewrite Hr. apply lstrip_id. destruct s; [done|]. by apply Hh.
Qed.

Lemma trimmed_strip_of s : trimmed (strip s).
Proof. apply strip_fixed_trimmed, strip_idemp. Qed.

Lemma single_spaced_app_l s t : single_spaced (s ++ t) → single_spaced s.
Proof.
  induction s as [|c s IH]; simpl; [done|].
  intros [Hc Hs]. split; [|by apply IH].
  intros Hsp. destruct (Hc Hsp) as [-> Hn]. split; [done|].
  destruct s; [done|]. done.
Qed.

Lemma single_spaced_app_r s t : single_spaced (s ++ t) → single_spaced t.
Proof.
  induction s as [|c s IH]; simpl; [done|]. intros [_ Hs]. by apply IH.
Qed.

Lemma single_spaced_strip s : single_spaced s → single_spaced (strip s).
Proof.
  intros H. destruct (strip_split s) as (pre & post & E & _).
  rewrite E in H. by apply single_spaced_app_r, single_spaced_app_l in H.
Qed.

(** What [re.sub(r'\s+', ' ', s)] returns is single spaced. *)
Lemma sub_runs_single_spaced s b :
  let r := sub_runs isspace (lit " ") b s in
  single_spaced r ∧
  (b = true → match r with d :: _ => isspace d = false | [] => True end).
Proof.
  revert b. induction s as [|c s IH]; intros b; simpl; [done|].
  destruct (isspace c) eqn:Hc.
  - destruct (IH true) as [Hs Hh]. specialize (Hh eq_refl).
    destruct b; simpl; [done|]. split; [|done]. split; [|done].
    intros _. done.
  - destruct (IH false) as [Hs _]. simpl. split; [|done]. split; [|done].
    intros Hsp. congruence.
Qed.

Lemma sub_runs_none (p : ascii → bool) (rep : str) s b :
  Forall (fun c => p c = false) s → sub_runs p rep b s = s.
Proof.
  intros H. revert b. induction H as [|c s Hc Hs IH]; intros b; simpl; [done|].
  by rewrite Hc, IH.
Qed.

Lemma single_spaced_no_newline s :
  single_spaced s → Forall (fun c => is_newline c = false) s.
Proof.
  induction s as [|c s IH]; simpl; [done|]. intros [Hc Hs].
  constructor; [|by apply IH].
  destruct (is_newline c) eqn:E; [|done].
  unfold is_newline in E. apply Ascii.eqb_eq in E. subst c.
  destruct (Hc eq_refl) as [? _]. done.
Qed.

(** On a single-spaced string this substitution changes nothing. *)
Lemma sub_runs_fixed s b :
  single_spaced s →
  (b = true → match s with d :: _ => isspace d = false | [] => True end) →
  sub_runs isspace (lit " ") b s = s.
Proof.
  revert b. induction s as [|c s IH]; intros b; simpl; [done|].
  intros [Hc Hs] Hb. destruct (isspace c) eqn:E.
  - destruct (Hc eq_refl) as [-> Hn].
    destruct b; [by specialize (Hb eq_refl)|].
    simpl. f_equal. by apply IH.
  - f_equal. by apply IH.
Qed.

Lemma sub_runs_blank s b :
  blank (sub_runs isspace (lit " ") b s) ↔ blank s.
Proof.
  unfold blank. revert b. induction s as [|c s IH]; intros b; simpl; [done|].
  destruct (isspace c) eqn:E.
  - rewrite Forall_app, Forall_cons, IH. split.
    + intros [_ H]. done.
    + intros [_ H]. split; [|done]. destruct b; repeat constructor.
  - rewrite !Forall_cons, IH. done.
Qed.

(** The two [_clean_text] methods compute the same string. *)
Lemma clean_text_eq text :
  FixedSizeChunking._clean_text text = strip (sub_runs isspace (lit " ") false text) ∧
  SemanticChunking._clean_text text = strip (sub_runs isspace (lit " ") false text).
Proof.
  unfold FixedSizeChunking._clean_text, SemanticChunking._clean_text.
  pose proof (sub_runs_single_spaced text false) as [Hs _]. cbv zeta in Hs.
  cbv zeta. rewrite !(sub_runs_none is_newline) by (by apply single_spaced_no_newline). done.
Qed.

End NormalForm.

Section CleanText.

Implicit Types s t : str.

Lemma length_sub_runs s b :
  (length (sub_runs isspace (lit " ") b s) ≤ length s)%nat.
Proof.
  revert b. induction s as [|c s IH]; intros b; simpl; [done|].
  destruct (isspace c).
  - rewrite length_app. specialize (IH true). destruct b; simpl; lia.
  - simpl. specialize (IH false). lia.
Qed.

Lemma clean_text_single_spaced text :
  single_spaced (FixedSizeChunking._clean_text text).
Proof.
  destruct (clean_text_eq text) as [-> _].
  apply single_spaced_strip. apply (sub_runs_single_spaced text false).
Qed.

Lemma clean_text_trimmed text : trimmed (FixedSizeChunking._clean_text text).
Proof. destruct (clean_text_eq text) as [-> _]. apply trimmed_strip_of. Qed.

Lemma clean_text_fixed_point t :
  trimmed t → single_spaced t → FixedSizeChunking._clean_text t = t.
Proof.
  intros Ht Hs. destruct (clean_text_eq t) as [-> _].
  rewrite sub_runs_fixed by done. by apply trimmed_strip.
Qed.

Lemma clean_text_nil_iff text :
  FixedSizeChunking._clean_text text = [] ↔ blank text.
Proof.
  destruct (clean_text_eq text) as [-> _]. split.
  - intros E. apply strip_nil_blank in E. by apply sub_runs_blank in E.
  - intros Hb. apply strip_blank. by apply sub_runs_blank.
Qed.

End CleanText.

(** ** Sentences *)

Section SplitFacts.

Implicit Types s t p : str.

Lemma split_after_end_nonempty b1 b2 s : split_after_end b1 b2 s ≠ [].
Proof.
  revert b1 b2. induction s as [|c s IH]; intros b1 b2; simpl; [done|].
  destruct (isspace c).
  - destruct b2; [apply IH|]. destruct b1; [done|].
    specialize (IH false false). by destruct (split_after_end false false s).
  - specialize (IH (is_sentence_end c) false).
    by destruct (split_after_end (is_sentence_end c) false s).
Qed.

Lemma join_push_head (sep : str) c (l : list str) :
  l ≠ [] → join sep (push_head c l) = c :: join sep l.
Proof. destruct l as [|p [|q l]]; done. Qed.

(** After a separator, a text that starts with no white space is split as
    at its beginning. *)
Lemma split_after_sep s b :
  match s with d :: _ => isspace d = false | [] => True end →
  s ≠ [] →
  split_after_end false true s = split_after_end b false s.
Proof.
  destruct s as [|d s]; [done|]. simpl. intros -> _. done.
Qed.

(** On a single-spaced text the pieces, joined by one space, give the text
    back. *)
Lemma join_split_after_end s b :
  single_spaced s → join (lit " ") (split_after_end b false s) = s.
Proof.
  revert b. induction s as [|c s IH]; intros b; simpl; [done|].
  intros [Hc Hs]. destruct (isspace c) eqn:E.
  - destruct (Hc eq_refl) as [-> Hn]. destruct b.
    + destruct s as [|d s'].
      * done.
      * rewrite (split_after_sep (d :: s') false) by done.
        specialize (IH false Hs).
        pose proof (split_after_end_nonempty false false (d :: s')) as Hne.
        destruct (split_after_end false false (d :: s')) as [|p ps]; [done|].
        cbn [join]. cbn [join] in IH. rewrite IH. done.
    + rewrite join_push_head by apply split_after_end_nonempty.
      by rewrite IH.
  - rewrite join_push_head by apply split_after_end_nonempty.
    by rewrite IH.
Qed.


Lemma split_pieces s b :
  single_spaced s → (∀ c, last s = Some c → isspace c = false) →
  ∃ h r, split_after_end b false s = h :: r ∧
         Forall good_piece r ∧
         (∀ c, last h = Some c → isspace c = false) ∧
         (∀ d, head s = Some d → isspace d = false → h ≠ [] ∧ head h = Some d).
Proof.
  revert b. induction s as [|c s IH]; intros b; simpl.
  { intros _ _. exists [], []. split_and!; [done|constructor|done|done]. }
  intros [Hc Hs] Hlast.
  assert (Hlast' : ∀ c', last s = Some c' → isspace c' = false).
  { intros c' H. apply Hlast. destruct s; [done|]. by rewrite last_cons_cons. }
  destruct (isspace c) eqn:E.
  - destruct (Hc eq_refl) as [-> Hn].
    destruct s as [|d s'].
    { specialize (Hlast " "%char eq_refl). done. }
    destruct (IH false Hs Hlast') as (h & r & Hsplit & Hr & Hh & Hd).
    destruct (Hd d eq_refl Hn) as [Hne Hhd].
    destruct b.
    + rewrite (split_after_sep (d :: s') false) by done. rewrite Hsplit.
      exists [], (h :: r). split_and!; [done| |done|].
      * constructor; [|done]. split; [done|]. split; [|done].
        intros c' Hc'. rewrite Hhd in Hc'. by injection Hc' as <-.
      * intros d' [= <-] Hd'. simpl in E. congruence.
    + rewrite Hsplit. simpl. exists (" "%char :: h), r. split_and!; [done|done| |].
      * intros c' Hc'. apply Hh. destruct h; [done|]. by rewrite last_cons_cons in Hc'.
      * intros d' [= <-] Hd'. simpl in E. congruence.
  - destruct (IH (is_sentence_end c) Hs Hlast') as (h & r & Hsplit & Hr & Hh & Hd).
    rewrite Hsplit. simpl. exists (c :: h), r. split_and!; [done|done| |].
    + intros c' Hc'. destruct h as [|x h'].
      * by injection Hc' as <-.
      * apply Hh. by rewrite last_cons_cons in Hc'.
    + intros d' [= <-] _. done.
Qed.

Lemma good_piece_keep (l : list str) :
  Forall good_piece l →
  map strip (filter (fun s => truthy (strip s) = true) l) = l.
Proof.
  induction 1 as [|p l [Hne Ht] Hl IH]; [done|].
  rewrite filter_cons_True.
  - simpl. rewrite IH. by rewrite trimmed_strip.
  - rewrite trimmed_strip by done. by apply truthy_true.
Qed.

(** The sentences of a normalized text, joined by one space, are the text. *)
Lemma join_sentences t :
  trimmed t → single_spaced t →
  join (lit " ") (SemanticChunking._split_into_sentences t) = t.
Proof.
  intros [Hh Hl] Hs. unfold SemanticChunking._split_into_sentences. cbv zeta.
  destruct t as [|d t'] eqn:Et; [done|]. rewrite <- Et in *.
  destruct (split_pieces t false Hs Hl) as (h & r & Hsplit & Hr & Hlh & Hd).
  assert (Hd0 : isspace d = false) by (apply Hh; by rewrite Et).
  destruct (Hd d) as [Hne Hhd]; [by rewrite Et|done|].
  assert (Hall : Forall good_piece (h :: r)).
  { constructor; [|done]. split; [done|]. split; [|done].
    intros c' Hc'. rewrite Hhd in Hc'. by injection Hc' as <-. }
  rewrite Hsplit, good_piece_keep by done.
  rewrite <- Hsplit. by apply join_split_after_end.
Qed.

Lemma sentences_good text :
  Forall good_piece (SemanticChunking._split_into_sentences text).
Proof.
  unfold SemanticChunking._split_into_sentences. cbv zeta.
  apply Forall_forall. intros p Hp. apply list_elem_of_fmap in Hp as (q & -> & Hq).
  apply list_elem_of_filter in Hq as [Hq _]. split.
  - by apply truthy_true.
  - apply trimmed_strip_of.
Qed.

End SplitFacts.

(** ** Joined strings *)

Section JoinFacts.

Implicit Types l : list str.

Lemma total_len_app l1 l2 : total_len (l1 ++ l2) = total_len l1 + total_len l2.
Proof. induction l1 as [|s l1 IH]; simpl; [done|]. rewrite IH. lia. Qed.

Lemma total_len_nonneg l : 0 ≤ total_len l.
Proof. induction l as [|s l IH]; simpl; [done|]. unfold len. lia. Qed.

Lemma len_join_one_space l :
  l ≠ [] → len (join (lit " ") l) = total_len l + (len l - 1).
Proof.
  induction l as [|s l IH]; [done|]. intros _.
  destruct l as [|s' l'].
  - simpl. unfold len. simpl. lia.
  - change (join (lit " ") (s :: s' :: l')) with (s ++ lit " " ++ join (lit " ") (s' :: l')).
    change (total_len (s :: s' :: l')) with (len s + total_len (s' :: l')).
    unfold len in *. rewrite !length_app. specialize (IH ltac:(done)).
    change (length (lit " ")) with 1%nat. change (length (s :: s' :: l')) with (S (length (s' :: l'))).
    lia.
Qed.

Lemma join_app (sep : str) l1 l2 :
  l1 ≠ [] → l2 ≠ [] → join sep (l1 ++ l2) = join sep l1 ++ sep ++ join sep l2.
Proof.
  induction l1 as [|s l1 IH]; [done|]. intros _ H2.
  destruct l1 as [|s' l1'].
  - destruct l2; [done|]. done.
  - change (join sep ((s :: s' :: l1') ++ l2)) with (s ++ sep ++ join sep ((s' :: l1') ++ l2)).
    rewrite IH by done. change (join sep (s :: s' :: l1')) with (s ++ sep ++ join sep (s' :: l1')).
    by rewrite <- !app_assoc.
Qed.

Lemma join_concat (sep : str) (groups : list (list str)) :
  Forall (fun g => g ≠ []) groups →
  join sep (map (join sep) groups) = join sep (concat groups).
Proof.
  induction 1 as [|g gs Hg Hgs IH]; [done|].
  destruct gs as [|g' gs'].
  - simpl. by rewrite app_nil_r.
  - change (join sep (map (join sep) (g :: g' :: gs')))
      with (join sep g ++ sep ++ join sep (map (join sep) (g' :: gs'))).
    rewrite IH. change (concat (g :: g' :: gs')) with (g ++ concat (g' :: gs')).
    rewrite join_app; [done|done|].
    inversion Hgs; subst. simpl. by destruct g'.
Qed.

(** A segment of a list of strings is not longer, once joined, than the
    whole list. *)
Lemma len_join_segment before g after :
  len (join (lit " ") g) ≤ len (join (lit " ") (before ++ g ++ after)).
Proof.
  destruct g as [|s g'].
  { simpl. unfold len. simpl. lia. }
  rewrite !len_join_one_space; [|by destruct before|done].
  rewrite !total_len_app. unfold len. rewrite !length_app.
  pose proof (total_len_nonneg before). pose proof (total_len_nonneg after). lia.
Qed.

End JoinFacts.

Section GroupFacts.

Variable chunk_size : Z.

(** The groups cut the sentences in consecutive, non-empty groups, each of
    one sentence or fitting in [chunk_size]. *)
Lemma sentence_groups_spec sentences current current_size :
  current_size = total_len current →
  current = [] ∨ group_fits chunk_size current →
  let groups := sentence_groups chunk_size current current_size sentences in
  concat groups = current ++ sentences ∧
  Forall (fun g => g ≠ []) groups ∧
  Forall (group_fits chunk_size) groups.
Proof.
  revert current current_size.
  induction sentences as [|s rest IH]; intros current current_size Hsize Hfit; simpl.
  - destruct current as [|x current'] eqn:E; simpl.
    + done.
    + rewrite app_nil_r. split_and!; [done| |].
      * by repeat constructor.
      * constructor; [|constructor]. by destruct Hfit.
  - destruct ((current_size + len s >? chunk_size) && truthy current) eqn:Egt.
    + apply andb_true_iff in Egt as [Egt Hne]. apply truthy_true in Hne.
      destruct (IH [s] (len s)) as (Hc & Hn & Hf); [simpl; lia | right; by left |].
      split_and!.
      * cbn [concat]. rewrite Hc. done.
      * by constructor.
      * constructor; [|done]. by destruct Hfit.
    + destruct (IH (current ++ [s]) (current_size + len s)) as (Hc & Hn & Hf).
      * rewrite total_len_app. simpl. lia.
      * right. apply andb_false_iff in Egt as [Egt | Hnil].
        -- right. rewrite total_len_app. simpl. lia.
        -- apply truthy_false in Hnil. subst current. by left.
      * rewrite <- app_assoc in Hc. done.
Qed.

End GroupFacts.

Section SemanticShape.

Import SemanticChunking.

Variable self : SemanticChunking.t.

Lemma emit_groups chunks idx current gs :
  Forall2 chunk_of_group chunks gs →
  Forall2 chunk_of_group (emit self chunks idx current).1
    (gs ++ filter (group_above_floor self) [current]).
Proof.
  intros H. unfold emit. cbv zeta. rewrite filter_cons, filter_nil.
  destruct (_ >=? _) eqn:E; cbn [fst].
  - rewrite decide_True by (unfold group_above_floor, above_floor; lia).
    apply Forall2_app; [done|]. constructor; [|constructor].
    unfold chunk_of_group. simpl. done.
  - rewrite decide_False by (unfold group_above_floor, above_floor; lia).
    by rewrite app_nil_r.
Qed.

(** The chunks are made of the groups that reach the floor, in order. *)
Lemma flush_foldl_groups sentences st gs :
  Forall2 chunk_of_group (chunks st) gs →
  Forall2 chunk_of_group (flush self (foldl (body self) st sentences))
    (gs ++ filter (group_above_floor self)
             (sentence_groups (chunk_size self) (current_chunk st) (current_size st) sentences)).
Proof.
  revert st gs. induction sentences as [|s rest IH]; intros st gs Hgs; simpl.
  - unfold flush. destruct (truthy (current_chunk st)) eqn:E.
    + by apply emit_groups.
    + simpl. by rewrite filter_nil, app_nil_r.
  - unfold body. cbv zeta. destruct (_ && _) eqn:E.
    + pose proof (emit_groups (chunks st) (chunk_index st) (current_chunk st) gs Hgs) as He.
      destruct (emit self _ _ _) as [chunks' idx']. cbn [fst] in He.
      specialize (IH {| chunks := chunks'; current_chunk := [s];
                        current_size := len s; chunk_index := idx' |} _ He).
      cbn [chunks current_chunk current_size] in IH.
      rewrite filter_cons. rewrite filter_cons, filter_nil in IH.
      destruct (decide _); [|by rewrite app_nil_r in IH].
      by rewrite <- app_assoc in IH.
    + apply (IH {| chunks := chunks st; current_chunk := current_chunk st ++ [s];
                   current_size := current_size st + len s;
                   chunk_index := chunk_index st |} gs Hgs).
Qed.

Lemma chunk_groups text :
  let sentences := _split_into_sentences (_clean_text text) in
  let groups := sentence_groups (chunk_size self) [] 0 sentences in
  Forall2 chunk_of_group (chunk self text) (filter (group_above_floor self) groups) ∧
  concat groups = sentences ∧
  Forall (fun g => g ≠ []) groups ∧
  Forall (group_fits (chunk_size self)) groups.
Proof.
  intros sentences groups. split.
  - apply (flush_foldl_groups sentences
             {| chunks := []; current_chunk := []; current_size := 0; chunk_index := 0 |} []).
    constructor.
  - apply (sentence_groups_spec (chunk_size self) sentences [] 0); [done | by left].
Qed.

End SemanticShape.

Section FilterFacts.

Context {A : Type} (P : A → Prop) `{∀ x, Decision (P x)}.

Lemma filter_all (l : list A) : Forall P l → filter P l = l.
Proof.
  induction 1 as [|x l Hx Hl IH]; [done|]. rewrite filter_cons_True by done. by rewrite IH.
Qed.

Lemma filter_none (l : list A) : Forall (fun x => ¬ P x) l → filter P l = [].
Proof.
  induction 1 as [|x l Hx Hl IH]; [done|]. by rewrite filter_cons_False.
Qed.

End FilterFacts.

Section SemanticResults.

Variable self : SemanticChunking.t.
Variable text : str.

Lemma semantic_clean_normal :
  trimmed (SemanticChunking._clean_text text) ∧
  single_spaced (SemanticChunking._clean_text text).
Proof.
  destruct (clean_text_eq text) as [E1 E2]. rewrite E2, <- E1.
  split; [apply clean_text_trimmed | apply clean_text_single_spaced].
Qed.

Lemma groups_of_spec :
  Forall2 chunk_of_group (SemanticChunking.chunk self text)
    (filter (group_above_floor self) (groups_of self text)) ∧
  concat (groups_of self text) = sentences_of text ∧
  Forall (fun g => g ≠ []) (groups_of self text) ∧
  Forall (group_fits (SemanticChunking.chunk_size self)) (groups_of self text).
Proof. apply chunk_groups. Qed.

Lemma group_segment g :
  g ∈ groups_of self text → ∃ before after, sentences_of text = before ++ g ++ after.
Proof.
  intros Hg. destruct groups_of_spec as (_ & Hc & _).
  apply list_elem_of_split in Hg as (gs1 & gs2 & E).
  exists (concat gs1), (concat gs2). rewrite <- Hc, E, concat_app. done.
Qed.

Lemma group_sentences_good g : g ∈ groups_of self text → Forall good_piece g.
Proof.
  intros Hg. destruct (group_segment g Hg) as (before & after & E).
  pose proof (sentences_good (SemanticChunking._clean_text text)) as Hs.
  fold (sentences_of text) in Hs. rewrite E in Hs.
  by apply Forall_app in Hs as [_ [Hs _]%Forall_app].
Qed.

Lemma group_join_positive g : g ∈ groups_of self text → 1 ≤ len (join (lit " ") g).
Proof.
  intros Hg. pose proof (group_sentences_good g Hg) as Hgood.
  destruct groups_of_spec as (_ & _ & Hne & _).
  rewrite Forall_forall in Hne. specialize (Hne g Hg).
  rewrite len_join_one_space by done.
  destruct g as [|s g']; [done|]. inversion Hgood as [|? ? [Hs _] Hg']; subst.
  simpl. pose proof (total_len_nonneg g'). unfold len. simpl.
  destruct s; [done|]. simpl. lia.
Qed.

Lemma group_join_le g :
  g ∈ groups_of self text →
  len (join (lit " ") g) ≤ len (SemanticChunking._clean_text text).
Proof.
  intros Hg. destruct (group_segment g Hg) as (before & after & E).
  destruct semantic_clean_normal as [Ht Hs].
  assert (Ej : len (SemanticChunking._clean_text text) =
               len (join (lit " ") (sentences_of text))).
  { unfold sentences_of. by rewrite join_sentences. }
  rewrite Ej, E. apply len_join_segment.
Qed.

End SemanticResults.

Lemma chunk_of_group_texts (cs : list Chunk.t) (gs : list (list str)) :
  Forall2 chunk_of_group cs gs → map Chunk.chunk_text cs = map (join (lit " ")) gs.
Proof.
  induction 1 as [|c g cs gs (Ht & _) H IH]; [done|]. simpl. by rewrite Ht, IH.
Qed.

Lemma semantic_short_nil (self : SemanticChunking.t) (text : str) :
  len (SemanticChunking._clean_text text) < SemanticChunking.min_chunk_size self →
  SemanticChunking.chunk self text = [].
Proof.
  intros Hshort.
  destruct (groups_of_spec self text) as (Hall & _).
  rewrite filter_none in Hall.
  - by inversion Hall.
  - apply Forall_forall. intros g Hg. unfold group_above_floor, above_floor.
    pose proof (group_join_le self text g Hg). lia.
Qed.

(** ** The words of a text *)

Section Words.

Implicit Types s t : str.

Lemma split_space_nonempty s : split_space s ≠ [].
Proof.
  induction s as [|c s IH]; simpl; [done|].
  destruct (isspace c); [done|]. by destruct (split_space s).
Qed.

Lemma split_space_app s c t :
  isspace c = true → split_space (s ++ c :: t) = split_space s ++ split_space t.
Proof.
  intros Hc. induction s as [|d s IH]; simpl.
  - by rewrite Hc.
  - rewrite IH. destruct (isspace d); [done|].
    pose proof (split_space_nonempty s). by destruct (split_space s).
Qed.

Lemma words_app s c t :
  isspace c = true → words (s ++ c :: t) = words s ++ words t.
Proof.
  intros Hc. unfold words. rewrite split_space_app by done. by rewrite filter_app.
Qed.

Lemma words_cons_space c s : isspace c = true → words (c :: s) = words s.
Proof.
  intros Hc. unfold words. simpl. rewrite Hc. by rewrite filter_cons_False by (by intros ?).
Qed.

Lemma words_blank s : blank s → words s = [].
Proof.
  induction 1 as [|c s Hc Hs IH]; [done|]. by rewrite words_cons_space.
Qed.

Lemma words_app_blank_l pre s : blank pre → words (pre ++ s) = words s.
Proof.
  induction 1 as [|c pre Hc Hpre IH]; [done|]. simpl. by rewrite words_cons_space.
Qed.

Lemma words_app_blank_r s post : blank post → words (s ++ post) = words s.
Proof.
  intros Hb. destruct Hb as [|c post Hc Hpost]; [by rewrite app_nil_r|].
  rewrite words_app by done. rewrite (words_blank post) by done. by rewrite app_nil_r.
Qed.

(** Trimming the text keeps its words. *)
Lemma words_strip s : words (strip s) = words s.
Proof.
  destruct (strip_split s) as (pre & post & E & Hpre & Hpost).
  rewrite E at 2. by rewrite words_app_blank_l, words_app_blank_r.
Qed.

(** Replacing the runs of white space by single spaces keeps the words:
    outside a run the first piece and the words that follow it are kept,
    inside a run the words are. *)
Lemma split_space_space c s :
  isspace c = true → split_space (c :: s) = [] :: split_space s.
Proof. intros Hc. cbn [split_space]. by rewrite Hc. Qed.

Lemma split_space_char c s :
  isspace c = false →
  ∃ p ps, split_space s = p :: ps ∧ split_space (c :: s) = (c :: p) :: ps.
Proof.
  intros Hc. cbn [split_space]. rewrite Hc.
  pose proof (split_space_nonempty s).
  destruct (split_space s) as [|p ps]; [done|]. by exists p, ps.
Qed.

Lemma words_sub_runs s :
  (∃ (p : list ascii) (ps qs : list (list ascii)),
      split_space (sub_runs isspace (lit " ") false s) = p :: ps ∧
              split_space s = p :: qs ∧
              filter (fun w => w ≠ []) ps = filter (fun w => w ≠ []) qs) ∧
  words (sub_runs isspace (lit " ") true s) = words s.
Proof.
  induction s as [|c s [(p & ps & qs & E1 & E2 & E3) IH2]].
  { split; [|done]. by exists [], [], []. }
  destruct (isspace c) eqn:Hc.
  - assert (Ef : sub_runs isspace (lit " ") false (c :: s) =
                 " "%char :: sub_runs isspace (lit " ") true s).
    { cbn [sub_runs]. by rewrite Hc. }
    assert (Et : sub_runs isspace (lit " ") true (c :: s) =
                 sub_runs isspace (lit " ") true s).
    { cbn [sub_runs]. by rewrite Hc. }
    rewrite Ef, Et. split.
    + exists [], (split_space (sub_runs isspace (lit " ") true s)), (split_space s).
      split_and!; [by apply split_space_space..|]. exact IH2.
    + by rewrite IH2, words_cons_space.
  - assert (Ef : ∀ b, sub_runs isspace (lit " ") b (c :: s) =
                      c :: sub_runs isspace (lit " ") false s).
    { intros b. cbn [sub_runs]. by rewrite Hc. }
    rewrite !Ef.
    destruct (split_space_char c (sub_runs isspace (lit " ") false s) Hc)
      as (p1 & ps1 & F1 & F2).
    destruct (split_space_char c s Hc) as (p2 & ps2 & G1 & G2).
    rewrite E1 in F1. injection F1 as <- <-.
    rewrite E2 in G1. injection G1 as <- <-.
    split.
    + by exists (c :: p), ps, qs.
    + unfold words. rewrite F2, G2. rewrite !filter_cons_True by done. by rewrite E3.
Qed.

(** The pieces of a text whose white space is made of single spaces,
    joined by spaces, give the text back. *)
Lemma join_split_space t : single_spaced t → join (lit " ") (split_space t) = t.
Proof.
  induction t as [|c t IH]; [done|]. cbn [single_spaced split_space].
  intros [Hc Ht]. destruct (isspace c) eqn:E.
  - destruct (Hc eq_refl) as [-> _].
    pose proof (split_space_nonempty t) as Hne.
    destruct (split_space t) as [|p ps] eqn:Ep; [done|].
    change (join (lit " ") ([] :: p :: ps)) with (lit " " ++ join (lit " ") (p :: ps)).
    by rewrite IH.
  - rewrite join_push_head by apply split_space_nonempty. by rewrite IH.
Qed.

(** A text that ends with no white space and whose white space is made of
    single spaces has no empty piece, but the first one when the text starts
    with a space. *)
Lemma split_space_pieces t :
  single_spaced t →
  (∀ c, last t = Some c → isspace c = false) →
  match t with
  | [] => True
  | c :: _ =>
      if isspace c
      then ∃ l, split_space t = [] :: l ∧ Forall (fun w => w ≠ []) l
      else Forall (fun w => w ≠ []) (split_space t)
  end.
Proof.
  induction t as [|c t IH]; [done|]. cbn [single_spaced].
  intros [Hc Ht] Hlast. cbn [split_space].
  assert (Hlast' : ∀ d, last t = Some d → isspace d = false).
  { intros d Hd. apply Hlast. destruct t; [done|]. exact Hd. }
  specialize (IH Ht Hlast').
  destruct (isspace c) eqn:E.
  - exists (split_space t). split; [done|].
    destruct (Hc eq_refl) as [_ Hn].
    destruct t as [|d t]; [specialize (Hlast c eq_refl); congruence|].
    by rewrite Hn in IH.
  - destruct t as [|d t]; [by repeat constructor|].
    destruct (isspace d) eqn:Ed.
    + destruct IH as (l & -> & Hl). by constructor.
    + pose proof (split_space_nonempty (d :: t)) as Hne.
      destruct (split_space (d :: t)) as [|p ps]; [done|].
      inversion IH; subst. by constructor.
Qed.

(** A text in normal form is its words joined by single spaces. *)
Lemma normal_form_words t :
  trimmed t → single_spaced t → t = join (lit " ") (words t).
Proof.
  intros [Hh Hl] Hs. destruct t as [|c t]; [done|].
  pose proof (split_space_pieces (c :: t) Hs Hl) as Hp.
  cbv beta iota in Hp. rewrite (Hh c eq_refl) in Hp.
  unfold words. rewrite filter_all by done. by rewrite join_split_space.
Qed.

Lemma words_clean_text text : words (FixedSizeChunking._clean_text text) = words text.
Proof.
  destruct (clean_text_eq text) as [-> _]. rewrite words_strip.
  destruct (words_sub_runs text) as [(p & ps & qs & E1 & E2 & E3) _].
  unfold words. rewrite E1, E2.
  destruct (decide (p ≠ [])).
  - rewrite !filter_cons_True by done. by rewrite E3.
  - rewrite !filter_cons_False by done. done.
Qed.

(** The cleaned text is the words of the text joined by single spaces. *)
Lemma clean_text_words text :
  FixedSizeChunking._clean_text text = join (lit " ") (words text).
Proof.
  rewrite <- words_clean_text.
  apply normal_form_words; [apply clean_text_trimmed | apply clean_text_single_spaced].
Qed.

Lemma concat_push_head c (l : list str) :
  l ≠ [] → concat (push_head c l) = c :: concat l.
Proof. by destruct l. Qed.

(** The words hold the characters that are no white space, in order. *)
Lemma concat_words s : concat (words s) = non_space s.
Proof.
  unfold words, non_space.
  assert (E : ∀ l : list (list ascii), concat (filter (fun w => w ≠ []) l) = concat l).
  { induction l as [|w l IH]; [done|]. destruct w as [|a w].
    - by rewrite filter_cons_False by (by intros ?).
    - rewrite filter_cons_True by done. simpl. by rewrite IH. }
  rewrite E. induction s as [|c s IH]; [done|]. cbn [split_space].
  destruct (isspace c) eqn:Hc.
  - rewrite filter_cons_False by congruence. done.
  - rewrite filter_cons_True by done.
    rewrite concat_push_head by apply split_space_nonempty. by rewrite IH.
Qed.

(** Cleaning keeps the characters that are no white space, in order. *)
Lemma non_space_clean_text text :
  non_space (FixedSizeChunking._clean_text text) = non_space text.
Proof. by rewrite <- !concat_words, words_clean_text. Qed.

End Words.

(** ** The grid of the windows *)

Section FixedGeometry.

Import FixedSizeChunking.

Variable self : FixedSizeChunking.t.
Variable text : str.
Hypothesis Hvalid : valid_fixed self.

Lemma grid_inv_body st :
  chunk_inv self text st ∧ grid_inv self text st → start st < len text →
  ∃ st', body self text st = Continue st' ∧ chunk_inv self text st' ∧ grid_inv self text st'.
Proof.
  intros [Hinv [[k Hk] Hall]] Hlt.
  destruct (chunk_inv_body self text Hvalid st Hinv Hlt) as (st' & Hbody & Hinv').
  exists st'. split_and!; [done..|].
  rewrite body_valid in Hbody by (done || by destruct Hinv).
  injection Hbody as <-. split.
  - exists (S k). simpl. rewrite Hk. lia.
  - simpl. intros c Hc. apply elem_of_app in Hc as [Hc | Hc]; [by apply Hall|].
    destruct (emitted_cases self text st) as [[E _] | (c' & E & _ & Hs & _)];
      [by destruct Hinv | by rewrite E in Hc; apply elem_of_nil in Hc |].
    rewrite E in Hc. apply list_elem_of_singleton in Hc as ->.
    exists k. rewrite Hs. split; [done|lia].
Qed.

Lemma len_window (t : str) (s size : Z) :
  0 ≤ s → s < len t → 0 < size →
  len (slice t (Some s) (Some (s + size))) = Z.min size (len t - s).
Proof.
  intros Hs Hlt Hsize. rewrite slice_nonneg by lia. unfold len in *.
  rewrite length_take, length_drop. lia.
Qed.

End FixedGeometry.

(** While the start of the window is not positive and the first window
    does not reach the end of the text, the loop never exits. *)
Lemma loop_never_exits (self : FixedSizeChunking.t) (t : str) :
  FixedSizeChunking.chunk_size self ≤ FixedSizeChunking.chunk_overlap self →
  0 < len t → FixedSizeChunking.chunk_size self < len t →
  ∀ fuel st, FixedSizeChunking.start st ≤ 0 →
    FixedSizeChunking.loop fuel self t st = None.
Proof.
  intros Ho Hpos Hs.
  induction fuel as [|fuel IH]; intros st Hst; cbn [FixedSizeChunking.loop].
  - destruct (_ <? _) eqn:E; [done|lia].
  - destruct (_ <? _) eqn:E; [|lia].
    rewrite body_emitted. cbv zeta. cbn [FixedSizeChunking.start FixedSizeChunking.chunks].
    destruct (_ >=? len t) eqn:E2; [lia|]. rewrite andb_false_r.
    apply IH. cbn [FixedSizeChunking.start]. unfold stride. lia.
Qed.

Lemma fixed_nil_iff_blank (self : FixedSizeChunking.t) (text : str)
    (fuel : nat) (cs : list Chunk.t) :
  valid_fixed self →
  FixedSizeChunking.chunk fuel self text = Some cs →
  (cs = [] ↔ blank text).
Proof.
  intros Hvalid Hcs.
  pose proof (clean_text_trimmed text) as [Hh _].
  rewrite <- clean_text_nil_iff. unfold FixedSizeChunking.chunk in Hcs.
  destruct (FixedSizeChunking._clean_text text) as [|d t'] eqn:Et.
  - split; [done|]. intros _. destruct fuel; simpl in Hcs; by injection Hcs as <-.
  - split; [|done]. intros Hnil. exfalso.
    destruct (loop_invariant self (d :: t') (chunk_inv self (d :: t'))
                (chunk_inv_body self (d :: t') Hvalid)
                fuel _ cs (chunk_inv_init self (d :: t')) Hcs) as (st & Hinv & <- & Hexit).
    destruct Hinv as (Hst & _ & _ & _ & Hcov).
    assert (Hlen : 0 < len (d :: t')) by (unfold len; simpl; lia).
    destruct (Hcov 0%nat d) as (c & Hc & _);
      [done | by apply Hh | lia | destruct Hvalid; lia |].
    rewrite Hnil in Hc. by apply elem_of_nil in Hc.
Qed.

(** ** The Redis lists *)

Section RedisFacts.

Import RedisService.

Implicit Types db : gmap str (list Message.t).

Lemma session_key_inj s1 s2 : _get_session_key s1 = _get_session_key s2 → s1 = s2.
Proof. unfold _get_session_key. apply app_inv_head. Qed.

Lemma lrange_all db key : lrange db key 0 (-1) = default [] (db !! key).
Proof.
  unfold lrange. cbv zeta. set (l := default [] (db !! key)).
  change (0 <? 0) with false. change (-1 <? 0) with true. cbv iota.
  destruct (0 >? -1 + len l) eqn:E.
  - assert (len l = 0) by (unfold len in *; lia).
    destruct l; [done|]. unfold len in *. simpl in *. lia.
  - change (Z.to_nat 0) with 0%nat. rewrite drop_0. apply take_ge. unfold len. lia.
Qed.

Lemma lrange_last db key (n : Z) :
  0 < n → lrange db key (- n) (-1) = last_n (Z.to_nat n) (default [] (db !! key)).
Proof.
  intros Hn. unfold lrange. cbv zeta. set (l := default [] (db !! key)).
  destruct (- n <? 0) eqn:E1; [|lia]. change (-1 <? 0) with true. cbv iota.
  unfold last_n. destruct (Z.max (- n + len l) 0 >? -1 + len l) eqn:E.
  - assert (len l = 0) by (unfold len in *; lia).
    destruct l; [done|]. unfold len in *. simpl in *. lia.
  - unfold len in *.
    replace (Z.to_nat (Z.max (- n + Z.of_nat (length l)) 0)) with (length l - Z.to_nat n)%nat by lia.
    apply take_ge. rewrite length_drop. lia.
Qed.

Lemma lrange_skip db key (k : Z) :
  0 < k → lrange db key k (-1) = drop (Z.to_nat k) (default [] (db !! key)).
Proof.
  intros Hk. unfold lrange. cbv zeta. set (l := default [] (db !! key)).
  destruct (k <? 0) eqn:E1; [lia|]. change (-1 <? 0) with true. cbv iota.
  destruct (k >? -1 + len l) eqn:E.
  - symmetry. apply drop_ge. unfold len in *. lia.
  - apply take_ge. rewrite length_drop. unfold len in *. lia.
Qed.

Lemma lrange_missing db key (a b : Z) : db !! key = None → lrange db key a b = [].
Proof.
  intros E. unfold lrange. rewrite E. cbv zeta.
  destruct (_ >? _); [done|]. simpl. by rewrite drop_nil, take_nil.
Qed.

Lemma history_all db session_id :
  get_conversation_history db session_id None = stored_history db session_id.
Proof. unfold get_conversation_history. apply lrange_all. Qed.

Lemma stored_history_save db session_id role content :
  stored_history (save_message db session_id role content) session_id =
    stored_history db session_id ++
      [ {| Message.role := Some role; Message.content := Some content |} ].
Proof.
  unfold stored_history, save_message, rpush. by rewrite lookup_insert_eq.
Qed.

Lemma stored_history_save_other db session_id other role content :
  other ≠ session_id →
  stored_history (save_message db session_id role content) other = stored_history db other.
Proof.
  intros Hne. unfold stored_history, save_message, rpush.
  rewrite lookup_insert_ne; [done|]. intros E. by apply session_key_inj in E.
Qed.

End RedisFacts.

Lemma history_last (db : gmap str (list Message.t)) (session_id : str) (n : Z) :
  0 < n →
  RedisService.get_conversation_history db session_id (Some n) =
    last_n (Z.to_nat n) (stored_history db session_id).
Proof.
  intros Hn. unfold RedisService.get_conversation_history, stored_history.
  destruct (n =? 0) eqn:E; [lia|]. apply lrange_last. lia.
Qed.

Section LastFacts.

Context {A : Type}.
Implicit Types l : list A.

Lemma last_n_last_n l (n m : nat) : (n ≤ m)%nat → last_n n (last_n m l) = last_n n l.
Proof.
  intros H. unfold last_n. rewrite length_drop, drop_drop. f_equal. lia.
Qed.

Lemma last_n_app_short l1 l2 (n : nat) :
  (length l2 ≤ n)%nat → last_n n (l1 ++ l2) = last_n (n - length l2) l1 ++ l2.
Proof.
  intros H. unfold last_n. rewrite length_app, drop_app.
  replace (length l1 + length l2 - n)%nat with (length l1 - (n - length l2))%nat by lia.
  f_equal. replace (length l1 - (n - length l2) - length l1)%nat with 0%nat by lia. done.
Qed.

End LastFacts.

(** ** The prompt *)

Section PromptFacts.

Import RAGService.

Context {float : Type}.

Lemma context_parts_fold (rs : list (SearchResult.t float)) (acc : list str) (idx : nat) :
  foldl (fun '(context_parts, idx) result =>
           let metadata := default Metadata.empty (SearchResult.metadata result) in
           let chunk_text := default [] (Metadata.chunk_text metadata) in
           let source := default (lit "Unknown") (Metadata.filename metadata) in
           (context_parts ++
              [lit "[Source " ++ of_nat idx ++ lit ": " ++ source ++ lit "]" ++ nl ++
               chunk_text ++ nl],
            S idx))
        (acc, idx) rs =
    (acc ++ imap (fun i => source_block (idx + i)) rs, (idx + length rs)%nat).
Proof.
  revert acc idx. induction rs as [|r rs IH]; intros acc idx; simpl.
  - by rewrite app_nil_r, Nat.add_0_r.
  - rewrite IH. f_equal.
    + rewrite <- app_assoc. f_equal. simpl. f_equal.
      * unfold source_block. by rewrite Nat.add_0_r.
      * apply imap_ext. intros i x _. simpl. f_equal. lia.
    + lia.
Qed.

Lemma context_parts_imap (rs : list (SearchResult.t float)) :
  context_parts rs = imap (fun i => source_block (S i)) rs.
Proof. unfold context_parts. by rewrite context_parts_fold. Qed.

Lemma join_nil_inv (sep : str) (l : list str) :
  Forall (fun p => p ≠ []) l → join sep l = [] → l = [].
Proof.
  intros H. destruct H as [|p l Hp Hl]; [done|]. destruct l.
  - simpl. done.
  - simpl. intros E. by apply app_eq_nil in E as [? _].
Qed.

Lemma render_nonempty m : render m ≠ [].
Proof.
  unfold render. intros E. apply app_eq_nil in E as [_ E].
  by apply app_eq_nil in E as [E _].
Qed.

Lemma history_text_nil_iff (history : list Message.t) :
  history_text history = [] ↔
  Forall (fun m => ¬ has_role_and_content m) (last_n 6 history).
Proof.
  unfold history_text. rewrite history_parts_spec. split.
  - intros E. apply join_nil_inv in E.
    + apply fmap_nil_inv in E. apply Forall_forall. intros m Hm Hhas.
      assert (Hin : m ∈ filter has_role_and_content (last_n 6 history))
        by (by apply list_elem_of_filter).
      rewrite E in Hin. by apply elem_of_nil in Hin.
    + apply Forall_forall. intros p Hp. apply list_elem_of_fmap in Hp as (m & -> & _).
      apply render_nonempty.
  - intros H. by rewrite filter_none.
Qed.

Lemma context_text_nil_iff (rs : list (SearchResult.t float)) :
  context_text rs = [] ↔ rs = [].
Proof.
  unfold context_text. rewrite context_parts_imap. split; [|by intros ->].
  intros E. apply join_nil_inv in E.
  - destruct rs; [done|]. done.
  - apply Forall_forall. intros p Hp. apply list_elem_of_lookup in Hp as [i Hi].
    rewrite list_lookup_imap in Hi. destruct (rs !! i); [|done]. injection Hi as <-.
    unfold source_block. done.
Qed.

End PromptFacts.

Section CaseFacts.

Lemma lower_upper_char c : lower_char (upper_char c) = lower_char c.
Proof. destruct c as [[] [] [] [] [] [] [] []]; reflexivity. Qed.

Lemma lower_lower_char c : lower_char (lower_char c) = lower_char c.
Proof. destruct c as [[] [] [] [] [] [] [] []]; reflexivity. Qed.

End CaseFacts.

Section QueryFacts.

Import RAGService.

Context {float : Type} (round4 : float → float) (zero : float).
Variable self : collaborators (float := float).
Variable settings : Settings.t.

(** The Redis store after [query], in each of its four outcomes. *)
Lemma query_redis_cases user_query session_id top_k (w : world) :
  let w' := (query round4 zero self settings user_query session_id top_k w).1 in
  redis w' = redis w ∨
  ∃ answer,
    redis w' =
      RedisService.save_message
        (RedisService.save_message (redis w) session_id (lit "user") user_query)
        session_id (lit "assistant") answer.
Proof.
  intros w'. unfold w'.
  destruct (_is_booking_intent user_query) eqn:Hb.
  { left. unfold query. by rewrite Hb. }
  destruct (generate_embedding self user_query) as [e|v] eqn:He.
  { left. by rewrite (query_embedding_raises round4 zero self settings _ _ _ _ e). }
  destruct (search self v top_k) as [e|results] eqn:Hs.
  { left. by rewrite (query_search_raises round4 zero self settings _ _ _ _ v e). }
  right. rewrite (query_answer_run round4 zero self settings _ _ _ _ v results) by done.
  by eexists.
Qed.

End QueryFacts.

(** ** File names *)

Section SplitOn.

Variable sep : ascii.
Implicit Types s e : str.

Lemma split_on_nonempty s : split_on sep s ≠ [].
Proof.
  induction s as [|c s IH]; simpl; [done|].
  destruct (Ascii.eqb c sep); [done|]. by destruct (split_on sep s).
Qed.

Lemma push_head_app c (l1 l2 : list str) :
  l1 ≠ [] → push_head c (l1 ++ l2) = push_head c l1 ++ l2.
Proof. by destruct l1. Qed.

(** [(a + sep + b).split(sep) == a.split(sep) + b.split(sep)] *)
Lemma split_on_app a b :
  split_on sep (a ++ sep :: b) = split_on sep a ++ split_on sep b.
Proof.
  induction a as [|c a IH]; simpl.
  - by rewrite Ascii.eqb_refl.
  - rewrite IH. destruct (Ascii.eqb c sep); [done|].
    apply push_head_app, split_on_nonempty.
Qed.

Lemma split_on_free e : Forall (fun c => c ≠ sep) e → split_on sep e = [e].
Proof.
  induction 1 as [|c e Hc He IH]; simpl; [done|].
  apply Ascii.eqb_neq in Hc. by rewrite Hc, IH.
Qed.

Lemma last_separator s :
  Forall (fun c => c ≠ sep) s ∨
  ∃ stem e, s = stem ++ sep :: e ∧ Forall (fun c => c ≠ sep) e.
Proof.
  induction s as [|c s [Hfree | (stem & e & -> & He)]].
  - left. constructor.
  - destruct (decide (c = sep)) as [->|Hne].
    + right. by exists [], s.
    + left. by constructor.
  - right. by exists (c :: stem), e.
Qed.

(** The last piece of the split is what follows the last separator, or the
    whole string when it holds no separator. *)
Lemma last_split_on s e :
  last (split_on sep s) = Some e ↔
  Forall (fun c => c ≠ sep) e ∧ (s = e ∨ ∃ stem, s = stem ++ sep :: e).
Proof.
  assert (Hsuffix : ∀ stem e', Forall (fun c => c ≠ sep) e' →
            last (split_on sep (stem ++ sep :: e')) = Some e').
  { intros stem e' He'. rewrite split_on_app, (split_on_free e') by done.
    by rewrite last_snoc. }
  split.
  - intros Hl. destruct (last_separator s) as [Hfree | (stem & e' & -> & He')].
    + rewrite split_on_free in Hl by done. injection Hl as <-. split; [done|by left].
    + rewrite Hsuffix in Hl by done. injection Hl as <-. split; [done|]. right. by exists stem.
  - intros [He [-> | [stem ->]]].
    + by rewrite split_on_free.
    + by apply Hsuffix.
Qed.

End SplitOn.

Section FileType.

Import DocumentProcessor.

(** The extension [_get_file_type] looks at. *)
Lemma get_file_type_cases filename :
  ∃ extension,
    last (split_on "."%char (lower filename)) = Some extension ∧
    _get_file_type filename =
      if bool_decide (extension = lit "pdf") then inr (lit "pdf")
      else if bool_decide (extension = lit "txt") then inr (lit "txt")
      else inl (Raise (lit "ValueError") (lit "Unsupported file extension: ." ++ extension)).
Proof.
  unfold _get_file_type.
  destruct (last (split_on "."%char (lower filename))) as [extension|] eqn:E.
  - by exists extension.
  - apply last_None in E. by apply split_on_nonempty in E.
Qed.

End FileType.

(** ** The chunking step and the endpoint *)

Section StepFacts.

Import Ingestion.

Lemma strip_truthy_iff (text : str) : truthy (strip text) = false ↔ blank text.
Proof.
  rewrite truthy_false. split; [apply strip_nil_blank | apply strip_blank].
Qed.

Lemma chunk_step_blank fuel settings strategy text :
  blank text →
  chunk_step fuel settings strategy text =
    Some (inl (HTTPException 400 (DetailText (lit "No text could be extracted from the file")))).
Proof.
  intros Hb. unfold chunk_step. apply strip_truthy_iff in Hb. by rewrite Hb.
Qed.

Lemma chunk_step_not_blank fuel settings strategy text :
  ¬ blank text →
  chunk_step fuel settings strategy text =
    match get_chunking_strategy settings strategy with
    | inl e => Some (inl (HTTPException 400 (DetailText (lit "Chunking failed: " ++ exn_str e))))
    | inr chunker =>
        match chunk_with fuel chunker text with
        | None => None
        | Some chunks =>
            if negb (truthy chunks) then
              Some (inl (HTTPException 400 (DetailText (lit "Chunking produced no results"))))
            else Some (inr chunks)
        end
    end.
Proof.
  intros Hb. unfold chunk_step.
  destruct (truthy (strip text)) eqn:E; [done|]. by apply strip_truthy_iff in E.
Qed.

(** A content that is no UTF-8 and that Latin-1 decodes to no-break spaces
    is refused as empty. *)
Lemma extract_from_txt_no_break_spaces {bytes : Type}
    (decode_utf8 : bytes → option str) (decode_latin1 : bytes → str) (content : bytes) :
  decode_utf8 content = None →
  decode_latin1 content = ["160"%char; "160"%char] →
  DocumentProcessor._extract_from_txt decode_utf8 decode_latin1 content =
    inl (Raise (lit "ValueError") (lit "Error extracting text from TXT: Text file is empty")).
Proof.
  intros E1 E2. unfold DocumentProcessor._extract_from_txt. by rewrite E1, E2.
Qed.

End StepFacts.

Section EndpointFacts.

Import ChatEndpoint.

Context {float : Type} (round4 : float → float) (zero : float).
Variable rag_service : RAGService.collaborators (float := float).
Variable settings : Settings.t.

Lemma chat_of_query (request : ChatRequest.t) (st : state) w outcome :
  RAGService.query round4 zero rag_service settings
    (ChatRequest.query request) (ChatRequest.session_id request) 5 (service st) = (w, outcome) →
  chat round4 zero rag_service settings request st =
    match outcome with
    | inl e =>
        ({| service := w; chat_history := chat_history st |},
         inl (HTTPException 500
                (DetailText (lit "Error processing chat request: " ++ exn_str e))))
    | inr result =>
        if bool_decide (QueryResult.type result = lit "booking_intent") then
          ({| service := w; chat_history := chat_history st |},
           inl (HTTPException 400
                  (DetailBooking (lit "booking_intent_detected") (QueryResult.message result)
                     (lit "Please use the /book-interview endpoint with complete booking details"))))
        else
          match QueryResult.answer result with
          | None =>
              ({| service := w; chat_history := chat_history st |},
               inl (HTTPException 500
                      (DetailText (lit "Error processing chat request: " ++ lit "'answer'"))))
          | Some answer =>
              ({| service := w;
                  chat_history := chat_history st ++
                    [ {| ChatHistory.session_id := ChatRequest.session_id request;
                         ChatHistory.user_id := ChatRequest.user_id request;
                         ChatHistory.query := ChatRequest.query request;
                         ChatHistory.response := answer |} ] |},
               inr {| ChatResponse.answer := answer;
                      ChatResponse.sources := QueryResult.sources result;
                      ChatResponse.session_id := ChatRequest.session_id request |})
          end
    end.
Proof. intros E. unfold chat. by rewrite E. Qed.

End EndpointFacts.

(** * The claims *)

(** C1. Fail-soft answer and history append. For a query without booking
    intent whose embedding and retrieval succeed, whatever the call to the
    language model does, [query] returns a result of type ["answer"]; when
    the call raises [e] the answer is ["Error generating answer: "]
    followed by [str(e)]; and the history of the session is the former one
    followed by two messages, the user query then the answer (the error
    text included), written by the last two calls, in this order. *)
Theorem fail_soft_answer_and_history {float : Type} (round4 : float → float) (zero : float)
    (self : RAGService.collaborators) (settings : Settings.t)
    (user_query session_id : str) (top_k : Z) (w : RAGService.world)
    (v : list float) (results : list (SearchResult.t float)) :
  RAGService._is_booking_intent user_query = false →
  RAGService.generate_embedding self user_query = inr v →
  RAGService.search self v top_k = inr results →
  let key := RedisService._get_session_key session_id in
  let history := RedisService.get_conversation_history (RAGService.redis w) session_id (Some 10) in
  let prompt := prompt_of user_query results history in
  let response :=
    RAGService.chat_completions_create self (Settings.llm_model settings)
      RAGService.system_prompt prompt in
  ∃ w' answer,
    RAGService.query round4 zero self settings user_query session_id top_k w =
      (w', inr {| QueryResult.type := lit "answer";
                  QueryResult.message := None;
                  QueryResult.answer := Some answer;
                  QueryResult.sources := RAGService._format_sources round4 zero results |}) ∧
    (∀ e, response = inl e → answer = lit "Error generating answer: " ++ exn_str e) ∧
    RAGService.redis w' !! key =
      Some (default [] (RAGService.redis w !! key) ++
            [ {| Message.role := Some (lit "user"); Message.content := Some user_query |};
              {| Message.role := Some (lit "assistant"); Message.content := Some answer |} ]) ∧
    RAGService.calls w' =
      RAGService.calls w ++
        [ RAGService.CallEmbedding user_query;
          RAGService.CallSearch v top_k;
          RAGService.CallHistoryRead session_id (Some 10);
          RAGService.CallLLM (Settings.llm_model settings) RAGService.system_prompt prompt;
          RAGService.CallHistoryWrite session_id (lit "user") user_query;
          RAGService.CallHistoryWrite session_id (lit "assistant") answer ].
Proof.
  intros Hb He Hs key history prompt response.
  eexists. exists (answer_of response). split_and!.
  - by apply query_answer_run.
  - intros e Hr. by rewrite Hr.
  - cbn [RAGService.redis].
    apply (save_two_messages _ session_id (lit "user", user_query) (lit "assistant", _)).
  - done.
Qed.

Lemma fail_soft_answer_and_history_witness :
  ∃ w',
    RAGService.query (fun x => x) 0 failing_llm Settings.default
        (lit "What is RAG?") (lit "s1") 5 empty_world =
      (w', inr {| QueryResult.type := lit "answer";
                  QueryResult.message := None;
                  QueryResult.answer := Some (lit "Error generating answer: Request timed out.");
                  QueryResult.sources :=
                    RAGService._format_sources (fun x => x) 0
                      [ {| SearchResult.score := Some 5;
                           SearchResult.metadata :=
                             Some {| Metadata.document_id := Some (lit "d1");
                                     Metadata.filename := None;
                                     Metadata.chunk_text := Some (lit "some text") |} |} ] |}) ∧
    RAGService.redis w' !! RedisService._get_session_key (lit "s1") =
      Some [ {| Message.role := Some (lit "user"); Message.content := Some (lit "What is RAG?") |};
             {| Message.role := Some (lit "assistant");
                Message.content := Some (lit "Error generating answer: Request timed out.") |} ].
Proof.
  destruct (fail_soft_answer_and_history (fun x => x) 0 failing_llm Settings.default
              (lit "What is RAG?") (lit "s1") 5 empty_world [1; 2] _
              eq_refl eq_refl eq_refl) as (w' & answer & Hq & Herr & Hredis & _).
  specialize (Herr _ eq_refl). subst answer.
  exists w'. split; [exact Hq | exact Hredis].
Defined.

(** C2. Booking intent short-circuit. When the lower-cased query contains
    one of the keywords, [query] returns a result of type
    ["booking_intent"] and leaves the world as it is: no call is logged (no
    embedding, no search, no history read, no history write) and Redis is
    unchanged. When it contains none, the booking branch is not taken: the
    first thing [query] does is the embedding call, and any result it
    returns has type ["answer"]. *)
Theorem booking_intent_short_circuit {float : Type} (round4 : float → float) (zero : float)
    (self : RAGService.collaborators) (settings : Settings.t)
    (user_query session_id : str) (top_k : Z) (w : RAGService.world) :
  let mentions_keyword :=
    ∃ keyword before after,
      keyword ∈ RAGService.booking_keywords ∧ lower user_query = before ++ keyword ++ after in
  let run := RAGService.query round4 zero self settings user_query session_id top_k w in
  (mentions_keyword →
     ∃ r, run = (w, inr r) ∧
          QueryResult.type r = lit "booking_intent" ∧ QueryResult.sources r = []) ∧
  (¬ mentions_keyword →
     (∃ rest, RAGService.calls run.1 =
              RAGService.calls w ++ RAGService.CallEmbedding user_query :: rest) ∧
     (∀ r, run.2 = inr r → QueryResult.type r = lit "answer")).
Proof.
  intros mentions_keyword run. split.
  - intros Hm. apply is_booking_intent_spec in Hm.
    unfold run, RAGService.query. rewrite Hm. eexists. split; [done|]. done.
  - intros Hm.
    assert (Hb : RAGService._is_booking_intent user_query = false).
    { destruct (RAGService._is_booking_intent user_query) eqn:E; [|done].
      apply is_booking_intent_spec in E. done. }
    destruct (RAGService.generate_embedding self user_query) as [e|v] eqn:He.
    { unfold run. rewrite (query_embedding_raises round4 zero self settings _ _ _ _ e) by done.
      simpl. split; [by exists []|done]. }
    destruct (RAGService.search self v top_k) as [e|results] eqn:Hs.
    { unfold run. rewrite (query_search_raises round4 zero self settings _ _ _ _ v e) by done.
      simpl. split; [by eexists|done]. }
    unfold run. rewrite (query_answer_run round4 zero self settings _ _ _ _ v results) by done.
    simpl. split; [by eexists|]. by intros r [= <-].
Qed.

Lemma booking_intent_short_circuit_witness :
  (∃ keyword before after,
      keyword ∈ RAGService.booking_keywords ∧
      lower (lit "I want to SCHEDULE an Interview") = before ++ keyword ++ after) ∧
  ∃ r, RAGService.query (fun x => x) 0 failing_llm Settings.default
         (lit "I want to SCHEDULE an Interview") (lit "s1") 5 empty_world = (empty_world, inr r) ∧
       QueryResult.type r = lit "booking_intent" ∧ QueryResult.sources r = [].
Proof.
  assert (Hm : ∃ keyword before after,
      keyword ∈ RAGService.booking_keywords ∧
      lower (lit "I want to SCHEDULE an Interview") = before ++ keyword ++ after).
  { exists (lit "schedule"), (lit "i want to "), (lit " an interview").
    split; [|reflexivity]. unfold RAGService.booking_keywords.
    apply list_elem_of_further, list_elem_of_here. }
  split; [exact Hm|].
  exact (proj1 (booking_intent_short_circuit (fun x => x) 0 failing_llm Settings.default
                  (lit "I want to SCHEDULE an Interview") (lit "s1") 5 empty_world) Hm).
Defined.

(** C3. Fixed chunking coverage. For every text and every valid
    configuration ([chunk_size > 0], [0 <= chunk_overlap < chunk_size]):
    the normalized text is the words of the text, that is its maximal runs
    of characters that are no white space, joined by single spaces, so that
    it holds every character of the text that is no white space, in order;
    and the strategy returns a list of chunks such that: every character of
    the normalized text that is no white space lies inside the text of a
    chunk, at its own position (so the chunk texts, put end to end in index
    order, cover the normalized text up to the white space trimmed at the
    ends of the windows and up to the overlaps); the chunk at place [k] has
    [chunk_index = k], is the trimmed window at its start position, and its
    text is neither empty nor blank; the start positions increase with the
    index; and the empty text gives no chunk. *)
Theorem fixed_chunking_coverage (self : FixedSizeChunking.t) (text : str) :
  valid_fixed self →
  let normalized := FixedSizeChunking._clean_text text in
  normalized = join (lit " ") (words text) ∧
  non_space normalized = non_space text ∧
  ∃ cs,
    returns (fun fuel => FixedSizeChunking.chunk fuel self text) cs ∧
    (∀ i ch, normalized !! i = Some ch → isspace ch = false →
             ∃ c, c ∈ cs ∧ occurs_at normalized c i) ∧
    (∀ k c, cs !! k = Some c →
            Chunk.chunk_index c = Z.of_nat k ∧
            window_chunk self normalized c ∧
            Chunk.chunk_text c ≠ [] ∧ ¬ blank (Chunk.chunk_text c)) ∧
    (∀ j k cj ck, cs !! j = Some cj → cs !! k = Some ck →
                  (j < k)%nat → start_of cj < start_of ck) ∧
    (text = [] → cs = []).
Proof.
  intros Hvalid normalized.
  split; [apply clean_text_words|]. split; [apply non_space_clean_text|].
  destruct (loop_result self Hvalid normalized)
    as (st & Hsome & Hnone & (Hst & Hidx & Hwf & Hsorted & Hcov) & Hexit).
  exists (FixedSizeChunking.chunks st). split_and!.
  - exists (window_steps self (len normalized)). intros fuel Hfuel.
    unfold FixedSizeChunking.chunk. by apply Hsome.
  - intros i ch Hi Hsp. apply (Hcov i ch Hi Hsp).
    + apply lookup_lt_Some in Hi. unfold len in Hexit. lia.
    + apply lookup_lt_Some in Hi. unfold len in Hexit. destruct Hvalid. lia.
  - intros k c Hk. destruct (Hwf k c Hk) as (Hi & Hw & _).
    split_and!; [done..| |].
    + by destruct Hw as (_ & _ & _ & _ & _ & ?).
    + destruct Hw as (_ & _ & _ & Ht & _ & Hne). rewrite Ht in *.
      by apply strip_not_blank.
  - done.
  - intros ->. specialize (Hsome (window_steps self (len normalized)) ltac:(lia)).
    unfold normalized in Hsome. destruct (window_steps _ _); simpl in Hsome; congruence.
Qed.

Lemma fixed_chunking_coverage_witness :
  valid_fixed cfg_10_3 ∧
  FixedSizeChunking._clean_text text_100 = join (lit " ") (words text_100) ∧
  ∃ cs,
    returns (fun fuel => FixedSizeChunking.chunk fuel cfg_10_3 text_100) cs ∧
    (∀ i ch, FixedSizeChunking._clean_text text_100 !! i = Some ch → isspace ch = false →
             ∃ c, c ∈ cs ∧ occurs_at (FixedSizeChunking._clean_text text_100) c i).
Proof.
  assert (Hv : valid_fixed cfg_10_3) by (unfold valid_fixed; simpl; lia).
  split; [exact Hv|].
  destruct (fixed_chunking_coverage cfg_10_3 text_100 Hv) as (Hw & _ & cs & Hr & Hc & _).
  split; [exact Hw|].
  exists cs. split; [exact Hr | exact Hc].
Defined.

(** C4. Fixed chunking termination. For every text and every valid
    configuration, [chunk] terminates: it returns with any fuel of at least
    [window_steps] (the length of the normalized text divided by the stride,
    rounded up) and with no less, so this is the number of windows it
    visits; no chunk text is longer than [chunk_size]. With [chunk_size = 10]
    and [chunk_overlap = 3] on a normalized text of 100 characters the
    number of steps is 15, which is 100/7 rounded up, and no chunk text has
    more than 10 characters. *)
Theorem fixed_chunking_termination (self : FixedSizeChunking.t) (text : str) :
  valid_fixed self →
  let n := len (FixedSizeChunking._clean_text text) in
  let steps := window_steps self n in
  ∃ cs,
    (∀ fuel, (steps ≤ fuel)%nat → FixedSizeChunking.chunk fuel self text = Some cs) ∧
    (∀ fuel, (fuel < steps)%nat → FixedSizeChunking.chunk fuel self text = None) ∧
    (∀ c, c ∈ cs → len (Chunk.chunk_text c) ≤ FixedSizeChunking.chunk_size self) ∧
    (FixedSizeChunking.chunk_size self = 10 → FixedSizeChunking.chunk_overlap self = 3 →
     n = 100 → steps = 15%nat).
Proof.
  intros Hvalid n steps.
  destruct (loop_result self Hvalid (FixedSizeChunking._clean_text text))
    as (st & Hsome & Hnone & (Hst & Hidx & Hwf & Hsorted & Hcov) & Hexit).
  exists (FixedSizeChunking.chunks st). split_and!.
  - intros fuel Hfuel. by apply Hsome.
  - intros fuel Hfuel. by apply Hnone.
  - intros c Hc. apply list_elem_of_lookup in Hc as [k Hk].
    destruct (Hwf k c Hk) as (_ & Hw & _). by eapply window_chunk_length.
  - intros Hs Ho Hn. unfold steps, window_steps, stride. rewrite Hs, Ho, Hn. reflexivity.
Qed.

Lemma fixed_chunking_termination_witness :
  valid_fixed cfg_10_3 ∧
  ∃ cs,
    FixedSizeChunking.chunk 15 cfg_10_3 text_100 = Some cs ∧
    FixedSizeChunking.chunk 14 cfg_10_3 text_100 = None ∧
    (∀ c, c ∈ cs → len (Chunk.chunk_text c) ≤ 10).
Proof.
  assert (Hv : valid_fixed cfg_10_3) by (unfold valid_fixed; simpl; lia).
  split; [exact Hv|].
  destruct (fixed_chunking_termination cfg_10_3 text_100 Hv) as (cs & Hs & Hn & Hl & Hsteps).
  assert (E : window_steps cfg_10_3 (len (FixedSizeChunking._clean_text text_100)) = 15%nat)
    by (apply Hsteps; reflexivity).
  rewrite E in Hs, Hn.
  exists cs. split_and!; [apply Hs; lia | apply Hn; lia | exact Hl].
Defined.

(** C5, as stated, fails: a configuration with [chunk_overlap >= chunk_size]
    (here 10 and 10) is rejected neither by the factory nor by [__init__],
    and [chunk] uses it to chunk a text. *)
Lemma overlap_not_rejected :
  get_chunking_strategy settings_10_10 (lit "fixed") = inr (Fixed cfg_10_10) ∧
  FixedSizeChunking.__init__ Settings.default (Some 10) (Some 10) = cfg_10_10 ∧
  FixedSizeChunking.chunk_size cfg_10_10 ≤ FixedSizeChunking.chunk_overlap cfg_10_10 ∧
  FixedSizeChunking.chunk 1 cfg_10_10 (lit "hello") =
    Some [ {| Chunk.chunk_index := 0; Chunk.chunk_text := lit "hello"; Chunk.chunk_size := 5;
              Chunk.start_position := Some 0; Chunk.end_position := Some 10;
              Chunk.sentence_count := None |} ].
Proof. split_and!; [reflexivity | reflexivity | simpl; lia | reflexivity]. Qed.

(** C5, amended. A configuration with [chunk_overlap >= chunk_size] is not
    rejected: the factory builds the fixed strategy from whatever the
    settings hold, without an error, and [chunk] runs with such a
    configuration. When the normalized text is not empty and fits in one
    window, the guard of the loop stops it after the first window and the
    result is the single chunk that holds the whole normalized text. *)
Theorem overlap_not_validated (settings : Settings.t) (self : FixedSizeChunking.t) (text : str) :
  FixedSizeChunking.chunk_size self ≤ FixedSizeChunking.chunk_overlap self →
  let normalized := FixedSizeChunking._clean_text text in
  normalized ≠ [] →
  len normalized ≤ FixedSizeChunking.chunk_size self →
  get_chunking_strategy settings (lit "fixed") =
    inr (Fixed {| FixedSizeChunking.chunk_size := Settings.chunk_size settings;
                  FixedSizeChunking.chunk_overlap := Settings.chunk_overlap settings |}) ∧
  ∀ fuel, (1 ≤ fuel)%nat →
    FixedSizeChunking.chunk fuel self text =
      Some [ {| Chunk.chunk_index := 0;
                Chunk.chunk_text := normalized;
                Chunk.chunk_size := len normalized;
                Chunk.start_position := Some 0;
                Chunk.end_position := Some (FixedSizeChunking.chunk_size self);
                Chunk.sentence_count := None |} ].
Proof.
  intros Ho normalized Hne Hlen. split; [reflexivity|].
  intros [|fuel] Hfuel; [lia|].
  assert (Hs : strip normalized = normalized) by apply clean_text_stripped.
  assert (Ht : truthy normalized = true) by (by apply truthy_true).
  assert (E : (0 <? len normalized) = true).
  { apply Z.ltb_lt. unfold len. destruct normalized; [done|]. simpl. lia. }
  unfold FixedSizeChunking.chunk. fold normalized.
  cbn [FixedSizeChunking.loop FixedSizeChunking.start]. rewrite E.
  unfold FixedSizeChunking.body.
  cbn [FixedSizeChunking.start FixedSizeChunking.chunks FixedSizeChunking.chunk_index].
  rewrite Z.add_0_l, slice_all by done. rewrite Hs, Ht.
  destruct (_ <=? 0) eqn:E1; [|lia].
  destruct (_ >=? _) eqn:E2; [|lia]. done.
Qed.

Lemma overlap_not_validated_witness :
  FixedSizeChunking.chunk_size cfg_10_10 ≤ FixedSizeChunking.chunk_overlap cfg_10_10 ∧
  FixedSizeChunking._clean_text (lit " hello  ") ≠ [] ∧
  len (FixedSizeChunking._clean_text (lit " hello  ")) ≤ FixedSizeChunking.chunk_size cfg_10_10 ∧
  ∀ fuel, (1 ≤ fuel)%nat →
    FixedSizeChunking.chunk fuel cfg_10_10 (lit " hello  ") =
      Some [ {| Chunk.chunk_index := 0;
                Chunk.chunk_text := FixedSizeChunking._clean_text (lit " hello  ");
                Chunk.chunk_size := len (FixedSizeChunking._clean_text (lit " hello  "));
                Chunk.start_position := Some 0;
                Chunk.end_position := Some 10;
                Chunk.sentence_count := None |} ].
Proof.
  assert (H1 : FixedSizeChunking.chunk_size cfg_10_10 ≤ FixedSizeChunking.chunk_overlap cfg_10_10)
    by (simpl; lia).
  assert (H2 : FixedSizeChunking._clean_text (lit " hello  ") ≠ []) by (vm_compute; discriminate).
  assert (H3 : len (FixedSizeChunking._clean_text (lit " hello  "))
               ≤ FixedSizeChunking.chunk_size cfg_10_10) by (vm_compute; discriminate).
  split_and!; [exact H1 | exact H2 | exact H3 |].
  exact (proj2 (overlap_not_validated Settings.default cfg_10_10 (lit " hello  ") H1 H2 H3)).
Defined.

(** C6. Semantic chunking floor and indices. For every text, the texts of
    the emitted chunks are, in order, the joined sentence groups whose
    length is at least [min_chunk_size] (the groups below the floor are
    dropped, the last one included); every emitted chunk reaches the floor;
    and the chunk at place [k] of the list has [chunk_index = k], so the
    indices are 0, 1, ..., n-1 with no gap. *)
Theorem semantic_floor_and_dense_indices (self : SemanticChunking.t) (text : str) :
  let cs := SemanticChunking.chunk self text in
  let sentences :=
    SemanticChunking._split_into_sentences (SemanticChunking._clean_text text) in
  let groups := sentence_groups (SemanticChunking.chunk_size self) [] 0 sentences in
  map Chunk.chunk_text cs =
    filter (fun chunk_text => SemanticChunking.min_chunk_size self ≤ len chunk_text)
           (map (join (lit " ")) groups) ∧
  (∀ c, c ∈ cs → SemanticChunking.min_chunk_size self ≤ len (Chunk.chunk_text c)) ∧
  (∀ k c, cs !! k = Some c → Chunk.chunk_index c = Z.of_nat k).
Proof.
  intros cs sentences groups.
  pose (st0 := {| SemanticChunking.chunks := []; SemanticChunking.current_chunk := [];
                  SemanticChunking.current_size := 0; SemanticChunking.chunk_index := 0 |}).
  assert (Hcs : cs = flush self (foldl (SemanticChunking.body self) st0 sentences)) by done.
  assert (Hok0 : emitted_ok self (SemanticChunking.chunks st0) (SemanticChunking.chunk_index st0)).
  { split; [done|]. intros k c Hk. done. }
  destruct (flush_ok self _ (foldl_body_ok self sentences st0 Hok0)) as [idx [_ Hall]].
  rewrite <- Hcs in Hall.
  split_and!.
  - rewrite Hcs, flush_foldl_texts. done.
  - intros c Hc. apply list_elem_of_lookup in Hc as [k Hk]. by apply (Hall k c).
  - intros k c Hk. by apply (Hall k c).
Qed.

(** C7, as stated, fails: a history entry among the last six that has an
    empty content is not rendered. *)
Lemma history_entry_not_rendered :
  RAGService.history_parts [msg "assistant" ""] ≠ map render (last_n 6 [msg "assistant" ""]).
Proof. vm_compute. discriminate. Qed.

(** C7, amended. For every history, with [recent] its last six entries (all
    of them when there are fewer): the history lines are the lines
    ["<Role capitalized>: <content>"] of the entries of [recent] that have a
    non-empty role and a non-empty content, in their order, and the history
    text joins them with newlines; when every entry of [recent] has both,
    these are exactly the lines of [recent]; and the entries before the last
    six have no effect on the lines. *)
Theorem history_last_six_rendered (history : list Message.t) :
  let recent := last_n 6 history in
  history = take (length history - 6) history ++ recent ∧
  length recent = Nat.min 6 (length history) ∧
  RAGService.history_parts history = map render (filter has_role_and_content recent) ∧
  RAGService.history_text history =
    join RAGService.nl (map render (filter has_role_and_content recent)) ∧
  (Forall has_role_and_content recent →
   RAGService.history_parts history = map render recent) ∧
  (∀ earlier, length recent = 6%nat →
     RAGService.history_parts (earlier ++ recent) = RAGService.history_parts history).
Proof.
  intros recent. split_and!.
  - apply last_n_app.
  - apply length_last_n.
  - apply history_parts_spec.
  - unfold RAGService.history_text. by rewrite history_parts_spec.
  - intros Hall. rewrite history_parts_spec. fold recent. f_equal.
    induction Hall as [|m l Hm Hl IH]; [done|].
    rewrite filter_cons_True by done. by rewrite IH.
  - intros earlier Hlen. rewrite !history_parts_spec. fold recent.
    rewrite <- Hlen at 1. by rewrite last_n_app_exact.
Qed.

Lemma history_last_six_rendered_witness :
  Forall has_role_and_content (last_n 6 history_seven) ∧
  length (last_n 6 history_seven) = 6%nat ∧
  RAGService.history_parts history_seven =
    map render (last_n 6 history_seven) ∧
  RAGService.history_parts
      ([msg "user" "older"] ++ last_n 6 history_seven) =
    RAGService.history_parts history_seven.
Proof.
  assert (H1 : Forall has_role_and_content
                 (last_n 6 history_seven)).
  { repeat constructor; discriminate. }
  assert (H2 : length (last_n 6 history_seven) = 6%nat)
    by reflexivity.
  destruct (history_last_six_rendered history_seven)
    as (_ & _ & _ & _ & Hall & Hearlier).
  split_and!; [exact H1 | exact H2 | exact (Hall H1) | exact (Hearlier _ H2)].
Defined.

(** C8. Source formatting. [_format_sources] maps each search result to its
    source record: the list of sources has the length and the order of the
    results, the source at place [i] depends on the result at place [i]
    alone (the filename is ["Unknown"] when absent, the preview is the first
    200 characters followed by ["..."] whatever the length, the score is the
    raw score rounded to 4 digits), and formatting a list is formatting its
    parts. Being a function of the results only, it gives the same sources
    each time it is applied to the same results. *)
Theorem format_sources_pointwise {float : Type} (round4 : float → float) (zero : float)
    (search_results : list (SearchResult.t float)) :
  let sources := RAGService._format_sources round4 zero search_results in
  sources = map (source_of round4 zero) search_results ∧
  length sources = length search_results ∧
  (∀ i, sources !! i = source_of round4 zero <$> search_results !! i) ∧
  (∀ before result after,
     RAGService._format_sources round4 zero (before ++ result :: after) =
       RAGService._format_sources round4 zero before ++
       source_of round4 zero result :: RAGService._format_sources round4 zero after).
Proof.
  intros sources.
  assert (E : ∀ l, RAGService._format_sources round4 zero l = map (source_of round4 zero) l).
  { intros l. unfold RAGService._format_sources.
    rewrite (foldl_snoc_map
      (fun result =>
         let metadata := default Metadata.empty (SearchResult.metadata result) in
         {| Source.document_id := default [] (Metadata.document_id metadata);
            Source.filename := default (lit "Unknown") (Metadata.filename metadata);
            Source.chunk_text :=
              slice (default [] (Metadata.chunk_text metadata)) None (Some 200) ++ lit "...";
            Source.relevance_score := round4 (default zero (SearchResult.score result)) |})).
    simpl. apply map_ext. intros result. unfold source_of. cbv zeta.
    change (Some 200) with (Some (Z.of_nat 200)). rewrite slice_prefix.
    by destruct (Metadata.filename _). }
  unfold sources. split_and!.
  - apply E.
  - by rewrite E, length_map.
  - intros i. rewrite E. apply list_lookup_fmap.
  - intros before result after. by rewrite !E, map_app.
Qed.

(** C9. The size attribute of a chunk. For the semantic strategy
    [chunk_size] is the number of characters of [chunk_text]. For the
    fixed-size strategy it is not: [chunk_size] is the length of the window
    before trimming, which is at least the length of the stored text and
    differs from it whenever the window starts or ends with white space.
    On ["ab cd"] with [chunk_size = 3] and [chunk_overlap = 1] the first
    chunk stores ["ab"] with [chunk_size = 3]. *)
Theorem chunk_size_attribute :
  (∀ self text c, c ∈ SemanticChunking.chunk self text →
                  Chunk.chunk_size c = len (Chunk.chunk_text c)) ∧
  (∀ self text fuel cs c,
     valid_fixed self → FixedSizeChunking.chunk fuel self text = Some cs → c ∈ cs →
     len (Chunk.chunk_text c) ≤ Chunk.chunk_size c) ∧
  FixedSizeChunking.chunk 3 cfg_3_1 (lit "ab cd") =
    Some [ {| Chunk.chunk_index := 0; Chunk.chunk_text := lit "ab"; Chunk.chunk_size := 3;
              Chunk.start_position := Some 0; Chunk.end_position := Some 3;
              Chunk.sentence_count := None |};
           {| Chunk.chunk_index := 1; Chunk.chunk_text := lit "cd"; Chunk.chunk_size := 3;
              Chunk.start_position := Some 2; Chunk.end_position := Some 5;
              Chunk.sentence_count := None |};
           {| Chunk.chunk_index := 2; Chunk.chunk_text := lit "d"; Chunk.chunk_size := 1;
              Chunk.start_position := Some 4; Chunk.end_position := Some 7;
              Chunk.sentence_count := None |} ].
Proof.
  split_and!.
  - intros self text c. apply semantic_chunk_size.
  - intros self text fuel cs c Hv Hcs Hc.
    destruct (loop_invariant self (FixedSizeChunking._clean_text text)
                (chunk_inv self (FixedSizeChunking._clean_text text))
                (chunk_inv_body self _ Hv) fuel _ cs (chunk_inv_init self _) Hcs)
      as (st & (_ & _ & Hwf & _) & <- & _).
    apply list_elem_of_lookup in Hc as [k Hk].
    destruct (Hwf k c Hk) as (_ & (_ & _ & _ & -> & -> & _) & _).
    pose proof (length_strip (slice (FixedSizeChunking._clean_text text) (Some (start_of c))
      (Some (start_of c + FixedSizeChunking.chunk_size self)))).
    unfold len. lia.
  - reflexivity.
Qed.

Lemma chunk_size_attribute_witness :
  valid_fixed cfg_3_1 ∧
  ∃ cs c, FixedSizeChunking.chunk 3 cfg_3_1 (lit "ab cd") = Some cs ∧ c ∈ cs ∧
          len (Chunk.chunk_text c) ≤ Chunk.chunk_size c ∧
          len (Chunk.chunk_text c) ≠ Chunk.chunk_size c.
Proof.
  assert (Hv : valid_fixed cfg_3_1) by (unfold valid_fixed; simpl; lia).
  split; [exact Hv|].
  destruct chunk_size_attribute as (_ & Hle & Hrun).
  eexists. eexists. split; [exact Hrun|].
  split; [apply list_elem_of_here|].
  split; [|vm_compute; discriminate].
  eapply (Hle cfg_3_1 (lit "ab cd") 3%nat); [exact Hv | exact Hrun | apply list_elem_of_here].
Defined.

(** C10. Empty entries are skipped. When one of the last six entries has an
    empty (or missing) role or content, it gives no line: the history lines
    are those of the entries before it followed by those of the entries
    after it, and they are fewer than the entries, hence fewer than six
    even when the session holds six messages or more. *)
Theorem history_skips_empty_entries (history : list Message.t) (m : Message.t) :
  m ∈ last_n 6 history →
  default [] (Message.role m) = [] ∨ default [] (Message.content m) = [] →
  (length (RAGService.history_parts history) < length (last_n 6 history))%nat ∧
  (length (RAGService.history_parts history) < 6)%nat ∧
  ∀ before after, last_n 6 history = before ++ m :: after →
    RAGService.history_parts history =
      RAGService.history_parts before ++ RAGService.history_parts after.
Proof.
  intros Hin Hempty.
  assert (Hm : ¬ has_role_and_content m).
  { unfold has_role_and_content. intros [? ?]. by destruct Hempty. }
  assert (Hlt : (length (RAGService.history_parts history) < length (last_n 6 history))%nat).
  { rewrite history_parts_spec, length_map. by eapply length_filter_lt. }
  split_and!.
  - done.
  - pose proof (length_last_n history 6). lia.
  - intros before after E.
    assert (Hlen : (length before + S (length after) ≤ 6)%nat).
    { pose proof (length_last_n history 6) as Hl. rewrite E, length_app in Hl.
      cbn [length] in Hl. lia. }
    rewrite !history_parts_spec, E.
    rewrite (last_n_short before), (last_n_short after) by lia.
    rewrite filter_app, filter_cons_False by done. by rewrite map_app.
Qed.

Lemma history_skips_empty_entries_witness :
  length history_with_blank = 6%nat ∧
  msg "assistant" "" ∈ last_n 6 history_with_blank ∧
  (length (RAGService.history_parts history_with_blank) < 6)%nat.
Proof.
  assert (Hin : msg "assistant" "" ∈ last_n 6 history_with_blank).
  { unfold history_with_blank, last_n. simpl.
    do 3 apply list_elem_of_further. apply list_elem_of_here. }
  split_and!; [reflexivity | exact Hin |].
  exact (proj1 (proj2 (history_skips_empty_entries history_with_blank (msg "assistant" "")
                         Hin (or_intror eq_refl)))).
Defined.

(** * Further properties *)

(** X1. The cleaned text is in normal form: it neither starts nor ends with
    white space, its white space is made of single spaces, it is not longer
    than the text, and it is empty exactly when the text is blank. *)
Theorem clean_text_normal_form (text : str) :
  let t := FixedSizeChunking._clean_text text in
  trimmed t ∧ single_spaced t ∧
  (length t ≤ length text)%nat ∧
  (t = [] ↔ blank text).
Proof.
  intros t. split_and!.
  - apply clean_text_trimmed.
  - apply clean_text_single_spaced.
  - unfold t. destruct (clean_text_eq text) as [-> _].
    pose proof (length_strip (sub_runs isspace (lit " ") false text)).
    pose proof (length_sub_runs text false). lia.
  - apply clean_text_nil_iff.
Qed.

(** X2. The two [_clean_text] methods agree on every text, and each is
    idempotent. *)
Theorem clean_text_agree_idempotent (text : str) :
  SemanticChunking._clean_text text = FixedSizeChunking._clean_text text ∧
  FixedSizeChunking._clean_text (FixedSizeChunking._clean_text text) =
    FixedSizeChunking._clean_text text ∧
  SemanticChunking._clean_text (SemanticChunking._clean_text text) =
    SemanticChunking._clean_text text.
Proof.
  assert (E : ∀ t, SemanticChunking._clean_text t = FixedSizeChunking._clean_text t).
  { intros t. destruct (clean_text_eq t) as [-> ->]. done. }
  assert (I : FixedSizeChunking._clean_text (FixedSizeChunking._clean_text text) =
              FixedSizeChunking._clean_text text).
  { apply clean_text_fixed_point; [apply clean_text_trimmed | apply clean_text_single_spaced]. }
  split_and!; [apply E | apply I | by rewrite !E].
Qed.

(** X3. With a valid configuration every chunk of the fixed-size strategy starts
    at a multiple of the stride, inside the normalized text; its
    [end_position] is the start plus [chunk_size], whatever the length of
    the text; its [chunk_size] is the length of the window, that is the
    smaller of [chunk_size] and of what is left of the text; and its text is
    the trimmed window. *)
Theorem fixed_window_geometry (self : FixedSizeChunking.t) (text : str)
    (fuel : nat) (cs : list Chunk.t) (c : Chunk.t) :
  valid_fixed self →
  FixedSizeChunking.chunk fuel self text = Some cs →
  c ∈ cs →
  let t := FixedSizeChunking._clean_text text in
  ∃ k : nat,
    let s := Z.of_nat k * stride self in
    s < len t ∧
    Chunk.start_position c = Some s ∧
    Chunk.end_position c = Some (s + FixedSizeChunking.chunk_size self) ∧
    Chunk.chunk_size c = Z.min (FixedSizeChunking.chunk_size self) (len t - s) ∧
    Chunk.chunk_text c = strip (slice t (Some s) (Some (s + FixedSizeChunking.chunk_size self))).
Proof.
  intros Hvalid Hcs Hc t.
  destruct (loop_invariant self t (fun st => chunk_inv self t st ∧ grid_inv self t st)
              (grid_inv_body self t Hvalid) fuel
              {| FixedSizeChunking.chunks := []; FixedSizeChunking.start := 0;
                 FixedSizeChunking.chunk_index := 0 |} cs) as (st & [Hinv Hgrid] & <- & _).
  { split; [apply chunk_inv_init|]. split; [by exists 0%nat|]. intros c' Hc'.
    by apply elem_of_nil in Hc'. }
  { exact Hcs. }
  destruct Hgrid as [_ Hgrid]. destruct (Hgrid c Hc) as (k & Hk & Hlt).
  destruct Hinv as (_ & _ & Hwf & _).
  apply list_elem_of_lookup in Hc as [i Hi].
  destruct (Hwf i c Hi) as (_ & (Hs & Hsp & Hep & Htxt & Hsz & _) & _).
  exists k. cbv zeta. rewrite <- Hk. split_and!; [done..| |done].
  rewrite Hsz. apply len_window; [done..|]. by destruct Hvalid.
Qed.

Lemma fixed_window_geometry_witness :
  valid_fixed cfg_3_1 ∧
  ∃ cs c (k : nat),
    FixedSizeChunking.chunk 3 cfg_3_1 (lit "ab cd") = Some cs ∧ cs !! 1%nat = Some c ∧
    Chunk.start_position c = Some (Z.of_nat k * stride cfg_3_1) ∧
    Chunk.end_position c = Some (Z.of_nat k * stride cfg_3_1 + 3) ∧
    Chunk.chunk_size c =
      Z.min 3 (len (FixedSizeChunking._clean_text (lit "ab cd")) - Z.of_nat k * stride cfg_3_1).
Proof.
  assert (Hv : valid_fixed cfg_3_1) by (unfold valid_fixed; simpl; lia).
  split; [exact Hv|].
  destruct (FixedSizeChunking.chunk 3 cfg_3_1 (lit "ab cd")) as [cs|] eqn:Hrun;
    [|vm_compute in Hrun; discriminate Hrun].
  destruct (cs !! 1%nat) as [c|] eqn:Hc;
    [|vm_compute in Hrun; injection Hrun as <-; discriminate Hc].
  destruct (fixed_window_geometry cfg_3_1 (lit "ab cd") 3 cs c Hv Hrun
              (list_elem_of_lookup_2 _ _ _ Hc)) as (k & _ & Hs & He & Hsz & _).
  exists cs, c, k. split_and!; [reflexivity | exact Hc | exact Hs | exact He | exact Hsz].
Defined.

(** X4. With a valid configuration the fixed-size strategy returns no chunk
    exactly when the text is blank. *)
Theorem fixed_no_chunk_iff_blank (self : FixedSizeChunking.t) (text : str)
    (fuel : nat) (cs : list Chunk.t) :
  valid_fixed self →
  FixedSizeChunking.chunk fuel self text = Some cs →
  (cs = [] ↔ blank text).
Proof. apply fixed_nil_iff_blank. Qed.

Lemma fixed_no_chunk_iff_blank_witness :
  valid_fixed cfg_10_3 ∧
  FixedSizeChunking.chunk 0 cfg_10_3 (lit "   ") = Some [] ∧
  (@nil Chunk.t = [] ↔ blank (lit "   ")).
Proof.
  assert (Hv : valid_fixed cfg_10_3) by (unfold valid_fixed; simpl; lia).
  assert (Hrun : FixedSizeChunking.chunk 0 cfg_10_3 (lit "   ") = Some []) by reflexivity.
  split_and!; [exact Hv | exact Hrun |].
  exact (fixed_no_chunk_iff_blank cfg_10_3 (lit "   ") 0 [] Hv Hrun).
Defined.

(** X5. When the overlap is at least the size and the normalized text is longer
    than one window, [chunk] does not return, whatever the fuel: the window
    never moves forward and the guard of the loop never fires. *)
Theorem fixed_overlap_diverges (self : FixedSizeChunking.t) (text : str) :
  FixedSizeChunking.chunk_size self ≤ FixedSizeChunking.chunk_overlap self →
  let t := FixedSizeChunking._clean_text text in
  t ≠ [] →
  FixedSizeChunking.chunk_size self < len t →
  ∀ fuel, FixedSizeChunking.chunk fuel self text = None.
Proof.
  intros Ho t Hne Hlen fuel. unfold FixedSizeChunking.chunk. fold t.
  apply loop_never_exits; [done| |done|done].
  unfold len. destruct t; [done|]. simpl. lia.
Qed.

Lemma fixed_overlap_diverges_witness :
  FixedSizeChunking.chunk_size cfg_10_10 ≤ FixedSizeChunking.chunk_overlap cfg_10_10 ∧
  FixedSizeChunking._clean_text text_100 ≠ [] ∧
  FixedSizeChunking.chunk_size cfg_10_10 < len (FixedSizeChunking._clean_text text_100) ∧
  ∀ fuel, FixedSizeChunking.chunk fuel cfg_10_10 text_100 = None.
Proof.
  assert (H1 : FixedSizeChunking.chunk_size cfg_10_10 ≤ FixedSizeChunking.chunk_overlap cfg_10_10)
    by (simpl; lia).
  assert (H2 : FixedSizeChunking._clean_text text_100 ≠ []) by (vm_compute; discriminate).
  assert (H3 : FixedSizeChunking.chunk_size cfg_10_10 <
               len (FixedSizeChunking._clean_text text_100)) by reflexivity.
  split_and!; [exact H1 | exact H2 | exact H3 |].
  exact (fixed_overlap_diverges cfg_10_10 text_100 H1 H2 H3).
Defined.

(** X6. An overlap of zero given to the constructor is replaced by the overlap of
    the settings. When the size given is not above it, the strategy so built
    does not return on a text whose normalized form is longer than the
    size. *)
Theorem init_zero_overlap_diverges (settings : Settings.t) (size : Z) (text : str) :
  size ≠ 0 →
  size ≤ Settings.chunk_overlap settings →
  let self := FixedSizeChunking.__init__ settings (Some size) (Some 0) in
  let t := FixedSizeChunking._clean_text text in
  t ≠ [] → size < len t →
  FixedSizeChunking.chunk_size self = size ∧
  FixedSizeChunking.chunk_overlap self = Settings.chunk_overlap settings ∧
  ∀ fuel, FixedSizeChunking.chunk fuel self text = None.
Proof.
  intros Hs Ho self t Hne Hlen.
  assert (E1 : FixedSizeChunking.chunk_size self = size).
  { unfold self, FixedSizeChunking.__init__, int_or. simpl.
    destruct (size =? 0) eqn:E; [lia|done]. }
  assert (E2 : FixedSizeChunking.chunk_overlap self = Settings.chunk_overlap settings)
    by reflexivity.
  split_and!; [done..|].
  intros fuel. unfold FixedSizeChunking.chunk. fold t.
  apply loop_never_exits; [lia | | lia | done].
  unfold len. destruct t; [done|]. simpl. lia.
Qed.

Lemma init_zero_overlap_diverges_witness :
  (10 : Z) ≠ 0 ∧ 10 ≤ Settings.chunk_overlap Settings.default ∧
  FixedSizeChunking.chunk_overlap
    (FixedSizeChunking.__init__ Settings.default (Some 10) (Some 0)) = 50 ∧
  ∀ fuel,
    FixedSizeChunking.chunk fuel
      (FixedSizeChunking.__init__ Settings.default (Some 10) (Some 0)) text_100 = None.
Proof.
  assert (H1 : (10 : Z) ≠ 0) by lia.
  assert (H2 : 10 ≤ Settings.chunk_overlap Settings.default) by (simpl; lia).
  assert (H3 : FixedSizeChunking._clean_text text_100 ≠ []) by (vm_compute; discriminate).
  assert (H4 : 10 < len (FixedSizeChunking._clean_text text_100)) by reflexivity.
  destruct (init_zero_overlap_diverges Settings.default 10 text_100 H1 H2 H3 H4)
    as (_ & Ho & Hnone).
  split_and!; [exact H1 | exact H2 | exact Ho | exact Hnone].
Defined.

(** X7. The sentences of the cleaned text, joined by single spaces, give the
    cleaned text back; and every sentence, of any text, is non-empty and
    trimmed. *)
Theorem sentences_rebuild_clean_text (text : str) :
  let clean := SemanticChunking._clean_text text in
  let sentences := SemanticChunking._split_into_sentences clean in
  join (lit " ") sentences = clean ∧
  Forall good_piece sentences ∧
  Forall good_piece (SemanticChunking._split_into_sentences text).
Proof.
  intros clean sentences. destruct (semantic_clean_normal text) as [Ht Hs].
  split_and!; [by apply join_sentences | apply sentences_good | apply sentences_good].
Qed.

(** X8. Every chunk of the semantic strategy is made of consecutive sentences of
    the text, at least one: its text is their join, [sentence_count] their
    number; either there is one sentence or the lengths of the sentences sum
    to at most [chunk_size]; the text has this sum plus one character per
    joining space, and reaches the floor. *)
Theorem semantic_chunk_shape (self : SemanticChunking.t) (text : str) (c : Chunk.t) :
  c ∈ SemanticChunking.chunk self text →
  let sentences :=
    SemanticChunking._split_into_sentences (SemanticChunking._clean_text text) in
  ∃ g before after,
    sentences = before ++ g ++ after ∧
    g ≠ [] ∧
    chunk_of_group c g ∧
    (len g = 1 ∨ total_len g ≤ SemanticChunking.chunk_size self) ∧
    len (Chunk.chunk_text c) = total_len g + (len g - 1) ∧
    SemanticChunking.min_chunk_size self ≤ len (Chunk.chunk_text c).
Proof.
  intros Hc sentences.
  destruct (groups_of_spec self text) as (Hall & Hconcat & Hne & Hfit).
  apply list_elem_of_lookup in Hc as [k Hk].
  destruct (Forall2_lookup_l _ _ _ _ _ Hall Hk) as (g & Hg & Hcg).
  apply list_elem_of_lookup_2 in Hg. apply list_elem_of_filter in Hg as [Hfloor Hg].
  destruct (group_segment self text g Hg) as (before & after & E).
  rewrite Forall_forall in Hne, Hfit.
  exists g, before, after. split_and!.
  - done.
  - by apply Hne.
  - done.
  - destruct (Hfit g Hg) as [H1 | H2]; [left; unfold len; lia | by right].
  - destruct Hcg as (-> & _). apply len_join_one_space. by apply Hne.
  - destruct Hcg as (-> & _). apply Hfloor.
Qed.

Lemma semantic_chunk_shape_witness :
  last_two_sentences ∈ SemanticChunking.chunk semantic_20_13 four_sentences ∧
  ∃ g, g ≠ [] ∧ chunk_of_group last_two_sentences g ∧
       (len g = 1 ∨ total_len g ≤ 20) ∧
       len (Chunk.chunk_text last_two_sentences) = total_len g + (len g - 1).
Proof.
  assert (Hin : last_two_sentences ∈ SemanticChunking.chunk semantic_20_13 four_sentences).
  { apply (list_elem_of_lookup_2 _ 1%nat). reflexivity. }
  split; [exact Hin|].
  destruct (semantic_chunk_shape semantic_20_13 four_sentences last_two_sentences Hin)
    as (g & _ & _ & _ & Hne & Hcg & Hfit & Hlen & _).
  exists g. split_and!; [exact Hne | exact Hcg | exact Hfit | exact Hlen].
Defined.

(** X9. With a floor of at most one no group is dropped: the chunk texts, joined
    by single spaces, are the cleaned text. *)
Theorem semantic_no_loss_without_floor (self : SemanticChunking.t) (text : str) :
  SemanticChunking.min_chunk_size self ≤ 1 →
  join (lit " ") (map Chunk.chunk_text (SemanticChunking.chunk self text)) =
    SemanticChunking._clean_text text.
Proof.
  intros Hmin.
  destruct (groups_of_spec self text) as (Hall & Hconcat & Hne & Hfit).
  rewrite filter_all in Hall.
  - rewrite (chunk_of_group_texts _ _ Hall), join_concat by done.
    rewrite Hconcat. destruct (semantic_clean_normal text). by apply join_sentences.
  - apply Forall_forall. intros g Hg. unfold group_above_floor, above_floor.
    pose proof (group_join_positive self text g Hg). lia.
Qed.

Lemma semantic_no_loss_without_floor_witness :
  SemanticChunking.min_chunk_size semantic_20_1 ≤ 1 ∧
  join (lit " ") (map Chunk.chunk_text (SemanticChunking.chunk semantic_20_1 four_sentences)) =
    SemanticChunking._clean_text four_sentences.
Proof.
  assert (H : SemanticChunking.min_chunk_size semantic_20_1 ≤ 1) by (simpl; lia).
  split; [exact H|]. exact (semantic_no_loss_without_floor semantic_20_1 four_sentences H).
Defined.

(** X10. A text whose cleaned form is shorter than the floor gives no chunk. *)
Theorem semantic_short_text_dropped (self : SemanticChunking.t) (text : str) :
  len (SemanticChunking._clean_text text) < SemanticChunking.min_chunk_size self →
  SemanticChunking.chunk self text = [].
Proof. apply semantic_short_nil. Qed.

Lemma semantic_short_text_dropped_witness :
  len (SemanticChunking._clean_text (lit "Hi there.")) <
    SemanticChunking.min_chunk_size semantic_20_13 ∧
  SemanticChunking.chunk semantic_20_13 (lit "Hi there.") = [].
Proof.
  assert (H : len (SemanticChunking._clean_text (lit "Hi there.")) <
              SemanticChunking.min_chunk_size semantic_20_13) by reflexivity.
  split; [exact H|]. exact (semantic_short_text_dropped semantic_20_13 (lit "Hi there.") H).
Defined.

(** X11. [_get_file_type] returns [pdf] or [txt] exactly when the lower-cased
    file name is this word or ends with a dot followed by this word; it
    returns nothing else, and raises nothing but the [ValueError] that names
    the extension. *)
Theorem get_file_type_by_extension (filename type : str) :
  type = lit "pdf" ∨ type = lit "txt" →
  (DocumentProcessor._get_file_type filename = inr type ↔
   lower filename = type ∨ ∃ stem, lower filename = stem ++ lit "." ++ type) ∧
  (∀ result, DocumentProcessor._get_file_type filename = inr result →
             result = lit "pdf" ∨ result = lit "txt") ∧
  (∀ e, DocumentProcessor._get_file_type filename = inl e →
        ∃ extension, e = Raise (lit "ValueError")
                           (lit "Unsupported file extension: ." ++ extension)).
Proof.
  intros Htype.
  destruct (get_file_type_cases filename) as (extension & Hlast & ->).
  assert (Hfree : Forall (fun c => c ≠ "."%char) type).
  { destruct Htype as [-> | ->]; repeat constructor; done. }
  split_and!.
  - split.
    + intros H.
      assert (extension = type) as ->.
      { destruct Htype as [-> | ->]; repeat case_bool_decide; congruence. }
      apply last_split_on in Hlast as [_ [E | [stem E]]]; [by left | right; by exists stem].
    + intros H.
      assert (last (split_on "."%char (lower filename)) = Some type) as Hl.
      { apply last_split_on. split; [done|]. destruct H as [E | [stem E]]; [by left|].
        right. by exists stem. }
      rewrite Hl in Hlast. injection Hlast as <-.
      destruct Htype as [-> | ->]; done.
  - intros result H. repeat case_bool_decide; try done; injection H as <-; auto.
  - intros e H. repeat case_bool_decide; try done. injection H as <-. by eexists.
Qed.

Lemma get_file_type_by_extension_witness :
  DocumentProcessor._get_file_type (lit "Report.final.PDF") = inr (lit "pdf") ∧
  DocumentProcessor._get_file_type (lit "pdf") = inr (lit "pdf").
Proof.
  destruct (get_file_type_by_extension (lit "Report.final.PDF") (lit "pdf") (or_introl eq_refl))
    as (H1 & _).
  destruct (get_file_type_by_extension (lit "pdf") (lit "pdf") (or_introl eq_refl))
    as (H2 & _).
  split.
  - apply H1. right. exists (lit "report.final"). reflexivity.
  - apply H2. left. reflexivity.
Defined.

(** X12. [validate_file] accepts exactly the files of an accepted type whose
    size is not zero and not above the limit; the error of the type check
    comes first and unchanged; an empty file of an accepted type is refused
    as empty when the limit is not negative. *)
Theorem validate_file_accepts_iff (format_mb : Z → str) (filename : str)
    (file_size max_size_mb : Z) :
  (DocumentProcessor.validate_file format_mb filename file_size max_size_mb = inr tt ↔
   (∃ type, DocumentProcessor._get_file_type filename = inr type) ∧
   file_size ≤ max_size_mb * 1024 * 1024 ∧ file_size ≠ 0) ∧
  (∀ e, DocumentProcessor._get_file_type filename = inl e →
        DocumentProcessor.validate_file format_mb filename file_size max_size_mb = inl e) ∧
  ((∃ type, DocumentProcessor._get_file_type filename = inr type) →
   file_size = 0 → 0 ≤ max_size_mb →
   DocumentProcessor.validate_file format_mb filename file_size max_size_mb =
     inl (Raise (lit "ValueError") (lit "File is empty"))).
Proof.
  unfold DocumentProcessor.validate_file. split_and!.
  - destruct (DocumentProcessor._get_file_type filename) as [e|type].
    + split; [done|]. by intros [[? ?] _].
    + cbv zeta. destruct (_ >? _) eqn:E1; [split; [done|lia]|].
      destruct (_ =? 0) eqn:E2; [split; [done|lia]|].
      split; [|done]. intros _. split_and!; [by eexists|lia|lia].
  - by intros e ->.
  - intros [type ->] -> Hmax. cbv zeta.
    destruct (_ >? _) eqn:E1; [lia|]. done.
Qed.

(** X13. A text that [_extract_from_txt] returns is the decoded content and is
    not blank, so the test of the extracted text in [ingest_document]
    never refuses it; when the extraction fails on a content that was read,
    the decoded text is blank and the error is a [ValueError] that says so. *)
Theorem txt_extraction_never_blank {bytes : Type} (decode_utf8 : bytes → option str)
    (decode_latin1 : bytes → str) (content : bytes) :
  let result := DocumentProcessor._extract_from_txt decode_utf8 decode_latin1 content in
  (∀ text, result = inr text →
     ¬ blank text ∧
     text = default (decode_latin1 content) (decode_utf8 content) ∧
     ∀ fuel settings strategy,
       Ingestion.chunk_step fuel settings strategy text ≠
         Some (inl (HTTPException 400
                      (DetailText (lit "No text could be extracted from the file"))))) ∧
  (∀ e, result = inl e →
     blank (default (decode_latin1 content) (decode_utf8 content)) ∧
     e = Raise (lit "ValueError") (lit "Error extracting text from TXT: Text file is empty")).
Proof.
  intros result. unfold result, DocumentProcessor._extract_from_txt. cbv zeta.
  set (text := match decode_utf8 content with Some t => t | None => decode_latin1 content end).
  assert (Et : text = default (decode_latin1 content) (decode_utf8 content))
    by (unfold text; by destruct (decode_utf8 content)).
  destruct (truthy (strip text)) eqn:E; simpl.
  - split; [|done]. intros ? [= <-].
    assert (Hb : ¬ blank text).
    { intros Hb. apply strip_truthy_iff in Hb. congruence. }
    split_and!; [done..|]. intros fuel settings strategy.
    rewrite chunk_step_not_blank by done.
    destruct (get_chunking_strategy settings strategy) as [e|chunker]; [done|].
    destruct (Ingestion.chunk_with fuel chunker text) as [chunks|]; [|done].
    by destruct (negb (truthy chunks)).
  - split; [done|]. intros ? [= <-]. split; [|done].
    rewrite <- Et. by apply strip_truthy_iff.
Qed.

(** X14. The chunking step of [ingest_document] refuses a blank text with a 400
    before it looks at the strategy, and refuses an unknown strategy name
    with a 400 that carries the message of the factory. *)
Theorem chunk_step_rejections (fuel : nat) (settings : Settings.t)
    (chunking_strategy text : str) :
  (blank text →
   Ingestion.chunk_step fuel settings chunking_strategy text =
     Some (inl (HTTPException 400
                  (DetailText (lit "No text could be extracted from the file"))))) ∧
  (¬ blank text →
   chunking_strategy ≠ lit "fixed" → chunking_strategy ≠ lit "semantic" →
   Ingestion.chunk_step fuel settings chunking_strategy text =
     Some (inl (HTTPException 400
                  (DetailText (lit "Chunking failed: Unknown chunking strategy: " ++
                               chunking_strategy ++
                               lit ". Available strategies: ['fixed', 'semantic']"))))).
Proof.
  split.
  - apply chunk_step_blank.
  - intros Hb H1 H2. rewrite chunk_step_not_blank by done.
    unfold get_chunking_strategy. rewrite !bool_decide_eq_false_2 by done.
    reflexivity.
Qed.

(** X15. With valid settings the chunking step with the fixed strategy returns on
    every text that is not blank, with at least one chunk. *)
Theorem chunk_step_fixed_accepts (settings : Settings.t) (text : str) :
  0 < Settings.chunk_size settings →
  0 ≤ Settings.chunk_overlap settings < Settings.chunk_size settings →
  ¬ blank text →
  ∃ chunks,
    chunks ≠ [] ∧
    returns (fun fuel => Ingestion.chunk_step fuel settings (lit "fixed") text) (inr chunks).
Proof.
  intros Hs Ho Hb.
  set (self := {| FixedSizeChunking.chunk_size := Settings.chunk_size settings;
                  FixedSizeChunking.chunk_overlap := Settings.chunk_overlap settings |}).
  assert (Hv : valid_fixed self) by (by split).
  destruct (loop_result self Hv (FixedSizeChunking._clean_text text))
    as (st & Hsome & _ & _ & _).
  exists (FixedSizeChunking.chunks st).
  assert (Hne : FixedSizeChunking.chunks st ≠ []).
  { intros E. apply Hb.
    apply (fixed_nil_iff_blank self text
             (window_steps self (len (FixedSizeChunking._clean_text text)))
             (FixedSizeChunking.chunks st) Hv); [|done].
    unfold FixedSizeChunking.chunk. apply Hsome. lia. }
  split; [done|].
  exists (window_steps self (len (FixedSizeChunking._clean_text text))). intros fuel Hfuel.
  rewrite chunk_step_not_blank by done.
  change (get_chunking_strategy settings (lit "fixed")) with (inr (B := ChunkingStrategy) (A := exn) (Fixed self)).
  cbn [Ingestion.chunk_with]. unfold FixedSizeChunking.chunk. rewrite Hsome by done.
  by destruct (FixedSizeChunking.chunks st).
Qed.

Lemma chunk_step_fixed_accepts_witness :
  0 < Settings.chunk_size Settings.default ∧
  0 ≤ Settings.chunk_overlap Settings.default < Settings.chunk_size Settings.default ∧
  ¬ blank text_100 ∧
  ∃ chunks,
    chunks ≠ [] ∧
    returns (fun fuel => Ingestion.chunk_step fuel Settings.default (lit "fixed") text_100)
      (inr chunks).
Proof.
  assert (H1 : 0 < Settings.chunk_size Settings.default) by (simpl; lia).
  assert (H2 : 0 ≤ Settings.chunk_overlap Settings.default < Settings.chunk_size Settings.default)
    by (simpl; lia).
  assert (H3 : ¬ blank text_100).
  { intros H. apply Forall_cons in H as [H _]. discriminate H. }
  split; [exact H1|]. split; [exact H2|]. split; [exact H3|].
  exact (chunk_step_fixed_accepts Settings.default text_100 H1 H2 H3).
Defined.

(** X16. With the semantic strategy of the factory, whose floor is 100, the
    chunking step refuses every text whose cleaned form has fewer than 100
    characters: chunking produced no results. *)
Theorem chunk_step_semantic_short (fuel : nat) (settings : Settings.t) (text : str) :
  ¬ blank text →
  len (SemanticChunking._clean_text text) < 100 →
  Ingestion.chunk_step fuel settings (lit "semantic") text =
    Some (inl (HTTPException 400 (DetailText (lit "Chunking produced no results")))).
Proof.
  intros Hb Hlen. rewrite chunk_step_not_blank by done.
  change (get_chunking_strategy settings (lit "semantic"))
    with (inr (B := ChunkingStrategy) (A := exn)
            (Semantic (SemanticChunking.__init__ settings None None))).
  cbn [Ingestion.chunk_with]. by rewrite semantic_short_nil.
Qed.

Lemma chunk_step_semantic_short_witness :
  ¬ blank (lit "Hi there.") ∧
  len (SemanticChunking._clean_text (lit "Hi there.")) < 100 ∧
  Ingestion.chunk_step 0 Settings.default (lit "semantic") (lit "Hi there.") =
    Some (inl (HTTPException 400 (DetailText (lit "Chunking produced no results")))).
Proof.
  assert (H1 : ¬ blank (lit "Hi there.")).
  { intros H. apply Forall_cons in H as [H _]. discriminate H. }
  assert (H2 : len (SemanticChunking._clean_text (lit "Hi there.")) < 100) by reflexivity.
  split_and!; [exact H1 | exact H2 |].
  exact (chunk_step_semantic_short 0 Settings.default (lit "Hi there.") H1 H2).
Defined.

(** X17. After [save_message] the history of the session is the former one
    followed by the message, the length has grown by one, the session
    exists, and the other sessions read as before. *)
Theorem save_message_appends (db : gmap str (list Message.t))
    (session_id role content : str) :
  let db' := RedisService.save_message db session_id role content in
  RedisService.get_conversation_history db' session_id None =
    RedisService.get_conversation_history db session_id None ++
      [ {| Message.role := Some role; Message.content := Some content |} ] ∧
  RedisService.get_conversation_length db' session_id =
    RedisService.get_conversation_length db session_id + 1 ∧
  RedisService.session_exists db' session_id = true ∧
  ∀ other limit, other ≠ session_id →
    RedisService.get_conversation_history db' other limit =
      RedisService.get_conversation_history db other limit.
Proof.
  intros db'. split_and!.
  - rewrite !history_all. apply stored_history_save.
  - unfold RedisService.get_conversation_length.
    change (len (stored_history db' session_id) = len (stored_history db session_id) + 1).
    unfold db'. rewrite stored_history_save. unfold len. rewrite length_app. simpl. lia.
  - unfold RedisService.session_exists, db', RedisService.save_message, RedisService.rpush.
    rewrite lookup_insert_eq. by apply bool_decide_eq_true.
  - intros other limit Hne.
    assert (E : db' !! RedisService._get_session_key other =
                db !! RedisService._get_session_key other).
    { unfold db', RedisService.save_message, RedisService.rpush.
      rewrite lookup_insert_ne; [done|]. intros E. by apply session_key_inj in E. }
    unfold RedisService.get_conversation_history, RedisService.lrange. by rewrite E.
Qed.

(** X18. A positive limit gives the last messages, in order; a limit of zero
    gives the whole history; a negative limit drops that many messages from
    the start. *)
Theorem history_limit (db : gmap str (list Message.t)) (session_id : str) (n : Z) :
  let all := RedisService.get_conversation_history db session_id None in
  let limited := RedisService.get_conversation_history db session_id (Some n) in
  (0 < n → limited = last_n (Z.to_nat n) all) ∧
  (n = 0 → limited = all) ∧
  (n < 0 → limited = drop (Z.to_nat (- n)) all).
Proof.
  intros all limited. unfold all, limited. rewrite history_all.
  unfold RedisService.get_conversation_history, stored_history. split_and!.
  - intros Hn. destruct (n =? 0) eqn:E; [lia|]. apply lrange_last. lia.
  - intros ->. simpl. apply lrange_all.
  - intros Hn. destruct (n =? 0) eqn:E; [lia|]. apply lrange_skip. lia.
Qed.

(** X19. After [clear_conversation] the session has no history, a length of zero
    and does not exist; a message saved next is alone; the other sessions
    read as before. *)
Theorem clear_conversation_forgets (db : gmap str (list Message.t)) (session_id : str) :
  let db' := RedisService.clear_conversation db session_id in
  (∀ limit, RedisService.get_conversation_history db' session_id limit = []) ∧
  RedisService.get_conversation_length db' session_id = 0 ∧
  RedisService.session_exists db' session_id = false ∧
  (∀ role content,
     RedisService.get_conversation_history
       (RedisService.save_message db' session_id role content) session_id None =
       [ {| Message.role := Some role; Message.content := Some content |} ]) ∧
  ∀ other limit, other ≠ session_id →
    RedisService.get_conversation_history db' other limit =
      RedisService.get_conversation_history db other limit.
Proof.
  intros db'.
  assert (E : db' !! RedisService._get_session_key session_id = None).
  { unfold db', RedisService.clear_conversation. apply lookup_delete_eq. }
  split_and!.
  - intros limit. unfold RedisService.get_conversation_history.
    destruct limit as [l|]; [destruct (l =? 0)|]; by apply lrange_missing.
  - unfold RedisService.get_conversation_length. by rewrite E.
  - unfold RedisService.session_exists. rewrite E. apply bool_decide_eq_false.
    by intros [? ?].
  - intros role content. rewrite history_all, stored_history_save.
    unfold stored_history. by rewrite E.
  - intros other limit Hne.
    assert (E' : db' !! RedisService._get_session_key other =
                 db !! RedisService._get_session_key other).
    { unfold db', RedisService.clear_conversation.
      rewrite lookup_delete_ne; [done|]. intros E'. by apply session_key_inj in E'. }
    unfold RedisService.get_conversation_history, RedisService.lrange. by rewrite E'.
Qed.

(** X20. In a store without empty lists a session exists exactly when its length
    is positive, and [save_message] and [clear_conversation] keep the store
    without empty lists. *)
Theorem session_exists_iff_messages (db : gmap str (list Message.t)) :
  no_empty_list db →
  (∀ session_id,
     RedisService.session_exists db session_id = true ↔
     0 < RedisService.get_conversation_length db session_id) ∧
  (∀ session_id role content,
     no_empty_list (RedisService.save_message db session_id role content)) ∧
  (∀ session_id, no_empty_list (RedisService.clear_conversation db session_id)).
Proof.
  intros Hdb. split_and!.
  - intros session_id. unfold RedisService.session_exists, RedisService.get_conversation_length.
    rewrite bool_decide_eq_true.
    destruct (db !! RedisService._get_session_key session_id) as [l|] eqn:E; simpl.
    + specialize (Hdb _ _ E). split; [|by eexists].
      intros _. unfold len. destruct l; [done|]. simpl. lia.
    + split; [by intros [? ?] | unfold len; simpl; lia].
  - intros session_id role content key l.
    unfold RedisService.save_message, RedisService.rpush.
    destruct (decide (key = RedisService._get_session_key session_id)) as [->|Hne].
    + rewrite lookup_insert_eq. intros [= <-]. by destruct (default [] _).
    + rewrite lookup_insert_ne by done. apply Hdb.
  - intros session_id key l. unfold RedisService.clear_conversation.
    destruct (decide (key = RedisService._get_session_key session_id)) as [->|Hne].
    + by rewrite lookup_delete_eq.
    + rewrite lookup_delete_ne by done. apply Hdb.
Qed.

Lemma session_exists_iff_messages_witness :
  no_empty_list ∅ ∧
  no_empty_list (RedisService.save_message ∅ (lit "s1") (lit "user") (lit "Hi")) ∧
  (RedisService.session_exists ∅ (lit "s1") = true ↔
   0 < RedisService.get_conversation_length ∅ (lit "s1")).
Proof.
  assert (H : no_empty_list ∅).
  { intros key l Hl. rewrite lookup_empty in Hl. discriminate Hl. }
  destruct (session_exists_iff_messages ∅ H) as (Hiff & Hsave & _).
  split_and!; [exact H | apply Hsave | apply Hiff].
Defined.

(** X21. A detected booking intent stays detected when text is put before and
    after the query and when the case of its letters changes. *)
Theorem booking_intent_monotone (query before after : str) :
  RAGService._is_booking_intent query = true →
  RAGService._is_booking_intent (before ++ query ++ after) = true ∧
  RAGService._is_booking_intent (map upper_char query) = true ∧
  RAGService._is_booking_intent (lower query) = true.
Proof.
  intros H. apply is_booking_intent_spec in H as (kw & a & b & Hkw & E).
  split_and!; apply is_booking_intent_spec; exists kw.
  - exists (lower before ++ a), (b ++ lower after). split; [done|].
    unfold lower in *. rewrite !map_app, E. by rewrite <- !app_assoc.
  - exists a, b. split; [done|]. rewrite <- E. unfold lower.
    rewrite map_map. apply map_ext. intros c. apply lower_upper_char.
  - exists a, b. split; [done|]. rewrite <- E. unfold lower.
    rewrite map_map. apply map_ext. intros c. apply lower_lower_char.
Qed.

Lemma booking_intent_monotone_witness :
  RAGService._is_booking_intent (lit "book") = true ∧
  RAGService._is_booking_intent (lit "my face" ++ lit "book" ++ lit " page") = true.
Proof.
  assert (H : RAGService._is_booking_intent (lit "book") = true) by reflexivity.
  split; [exact H|].
  exact (proj1 (booking_intent_monotone (lit "book") (lit "my face") (lit " page") H)).
Defined.

(** X22. The context has one block per result, in order, numbered from one, and
    is empty exactly when there is no result. *)
Theorem context_blocks_numbered {float : Type} (results : list (SearchResult.t float)) :
  length (RAGService.context_parts results) = length results ∧
  (∀ i, RAGService.context_parts results !! i = source_block (S i) <$> results !! i) ∧
  (RAGService.context_text results = [] ↔ results = []).
Proof.
  split_and!.
  - by rewrite context_parts_imap, length_imap.
  - intros i. rewrite context_parts_imap, list_lookup_imap. done.
  - apply context_text_nil_iff.
Qed.

(** X23. The history string is empty exactly when none of the last six messages
    has a role and a content; then, with no result, the prompt is the bare
    prompt with its two placeholders. *)
Theorem prompt_placeholders {float : Type} (query : str)
    (results : list (SearchResult.t float)) (history : list Message.t) :
  (RAGService.history_text history = [] ↔
   Forall (fun m => ¬ has_role_and_content m) (last_n 6 history)) ∧
  (Forall (fun m => ¬ has_role_and_content m) (last_n 6 history) → results = [] →
   prompt_of query results history = bare_prompt query).
Proof.
  split.
  - apply history_text_nil_iff.
  - intros Hh ->. unfold prompt_of, RAGService.user_prompt.
    apply history_text_nil_iff in Hh. rewrite Hh. done.
Qed.

(** X24. [_generate_answer] never raises: it logs one call to the model, leaves
    Redis alone and returns the stripped content of the first choice, or
    the error text for a raised exception, an empty list of choices or a
    missing content. *)
Theorem generate_answer_never_raises {float : Type}
    (self : RAGService.collaborators) (settings : Settings.t) (query : str)
    (results : list (SearchResult.t float)) (history : list Message.t)
    (w : RAGService.world) :
  let prompt := prompt_of query results history in
  let response :=
    RAGService.chat_completions_create self (Settings.llm_model settings)
      RAGService.system_prompt prompt in
  ∃ answer,
    RAGService._generate_answer self settings query results history w =
      ({| RAGService.redis := RAGService.redis w;
          RAGService.calls := RAGService.calls w ++
            [RAGService.CallLLM (Settings.llm_model settings) RAGService.system_prompt prompt] |},
       inr answer) ∧
    (∀ content rest, response = inr (Some content :: rest) →
                     answer = strip content ∧ trimmed answer) ∧
    (∀ rest, response = inr (None :: rest) →
       answer = lit "Error generating answer: 'NoneType' object has no attribute 'strip'") ∧
    (response = inr [] → answer = lit "Error generating answer: list index out of range") ∧
    (∀ e, response = inl e → answer = lit "Error generating answer: " ++ exn_str e).
Proof.
  intros prompt response. exists (answer_of response). split_and!.
  - apply generate_answer_run.
  - intros content rest E. rewrite E. simpl. split; [done|]. apply trimmed_strip_of.
  - intros rest E. by rewrite E.
  - intros E. by rewrite E.
  - intros e E. by rewrite E.
Qed.

(** X25. A failure of the embedding or of the search comes out of [query] as it
    is: Redis is unchanged and no call other than the embedding and the
    search has been made. *)
Theorem retrieval_failure_aborts {float : Type} (round4 : float → float) (zero : float)
    (self : RAGService.collaborators) (settings : Settings.t)
    (user_query session_id : str) (top_k : Z) (w : RAGService.world) (e : exn) :
  RAGService._is_booking_intent user_query = false →
  RAGService.generate_embedding self user_query = inl e ∨
  (∃ v, RAGService.generate_embedding self user_query = inr v ∧
        RAGService.search self v top_k = inl e) →
  let run := RAGService.query round4 zero self settings user_query session_id top_k w in
  run.2 = inl e ∧
  RAGService.redis run.1 = RAGService.redis w ∧
  ∃ made, RAGService.calls run.1 = RAGService.calls w ++ made ∧
          ∀ c, c ∈ made →
               match c with
               | RAGService.CallEmbedding _ | RAGService.CallSearch _ _ => True
               | _ => False
               end.
Proof.
  intros Hb [He | (v & He & Hs)] run; unfold run.
  - rewrite (query_embedding_raises round4 zero self settings _ _ _ _ e) by done.
    split_and!; [done..|]. eexists. split; [done|].
    intros c Hc. apply list_elem_of_singleton in Hc as ->. done.
  - rewrite (query_search_raises round4 zero self settings _ _ _ _ v e) by done.
    split_and!; [done..|]. eexists. split; [done|].
    intros c Hc. apply elem_of_cons in Hc as [-> | Hc]; [done|].
    apply list_elem_of_singleton in Hc as ->. done.
Qed.

Lemma retrieval_failure_aborts_witness :
  RAGService._is_booking_intent (lit "What is RAG?") = false ∧
  (RAGService.query (fun x => x) 0 failing_embedding Settings.default
     (lit "What is RAG?") (lit "s1") 5 empty_world).2 =
    inl (Raise (lit "RuntimeError") (lit "model not loaded")) ∧
  RAGService.redis
    (RAGService.query (fun x => x) 0 failing_embedding Settings.default
       (lit "What is RAG?") (lit "s1") 5 empty_world).1 = RAGService.redis empty_world.
Proof.
  assert (Hb : RAGService._is_booking_intent (lit "What is RAG?") = false) by reflexivity.
  destruct (retrieval_failure_aborts (fun x => x) 0 failing_embedding Settings.default
              (lit "What is RAG?") (lit "s1") 5 empty_world
              (Raise (lit "RuntimeError") (lit "model not loaded")) Hb (or_introl eq_refl))
    as (Hr & Hredis & _).
  split_and!; [exact Hb | exact Hr | exact Hredis].
Defined.

(** X26. A query leaves the history of every other session as it was. *)
Theorem query_session_isolation {float : Type} (round4 : float → float) (zero : float)
    (self : RAGService.collaborators) (settings : Settings.t)
    (user_query session_id other : str) (top_k : Z) (w : RAGService.world) :
  other ≠ session_id →
  let w' := (RAGService.query round4 zero self settings user_query session_id top_k w).1 in
  ∀ limit,
    RedisService.get_conversation_history (RAGService.redis w') other limit =
      RedisService.get_conversation_history (RAGService.redis w) other limit.
Proof.
  intros Hne w' limit.
  destruct (query_redis_cases round4 zero self settings user_query session_id top_k w)
    as [E | [answer E]]; fold w' in E; rewrite E; [done|].
  assert (Ek : ∀ db role content,
             RedisService.save_message db session_id role content
               !! RedisService._get_session_key other =
             db !! RedisService._get_session_key other).
  { intros db role content. unfold RedisService.save_message, RedisService.rpush.
    rewrite lookup_insert_ne; [done|]. intros Ek. by apply session_key_inj in Ek. }
  unfold RedisService.get_conversation_history, RedisService.lrange. by rewrite !Ek.
Qed.

Lemma query_session_isolation_witness :
  lit "s2" ≠ lit "s1" ∧
  ∀ limit,
    RedisService.get_conversation_history
      (RAGService.redis
         (RAGService.query (fun x => x) 0 failing_llm Settings.default
            (lit "What is RAG?") (lit "s1") 5 empty_world).1) (lit "s2") limit =
    RedisService.get_conversation_history (RAGService.redis empty_world) (lit "s2") limit.
Proof.
  assert (H : lit "s2" ≠ lit "s1") by discriminate.
  split; [exact H|].
  exact (query_session_isolation (fun x => x) 0 failing_llm Settings.default
           (lit "What is RAG?") (lit "s1") (lit "s2") 5 empty_world H).
Defined.

(** X27. After an answered query the next query of the session reads the last
    ten messages of the history extended with this turn; the lines of its
    prompt end with the two lines of this turn, after at most four older
    lines, and with the user line alone when the answer was empty. *)
Theorem next_turn_sees_last_turn {float : Type} (round4 : float → float) (zero : float)
    (self : RAGService.collaborators) (settings : Settings.t)
    (user_query session_id : str) (top_k : Z) (w : RAGService.world)
    (v : list float) (results : list (SearchResult.t float)) :
  RAGService._is_booking_intent user_query = false →
  RAGService.generate_embedding self user_query = inr v →
  RAGService.search self v top_k = inr results →
  let run := RAGService.query round4 zero self settings user_query session_id top_k w in
  ∃ answer,
    run.2 = inr {| QueryResult.type := lit "answer";
                   QueryResult.message := None;
                   QueryResult.answer := Some answer;
                   QueryResult.sources := RAGService._format_sources round4 zero results |} ∧
    let next_history :=
      RedisService.get_conversation_history (RAGService.redis run.1) session_id (Some 10) in
    next_history =
      last_n 10 (stored_history (RAGService.redis w) session_id ++
                 [user_message user_query; assistant_message answer]) ∧
    (user_query ≠ [] → answer ≠ [] →
     ∃ earlier, (length earlier ≤ 4)%nat ∧
       RAGService.history_parts next_history =
         earlier ++ [lit "User: " ++ user_query; lit "Assistant: " ++ answer]) ∧
    (user_query ≠ [] → answer = [] →
     ∃ earlier, (length earlier ≤ 4)%nat ∧
       RAGService.history_parts next_history = earlier ++ [lit "User: " ++ user_query]).
Proof.
  intros Hb He Hs run. unfold run.
  rewrite (query_answer_run round4 zero self settings _ _ _ _ v results) by done.
  cbv zeta. cbn [fst snd RAGService.redis].
  set (answer := answer_of _). exists answer. split; [done|].
  set (old := stored_history (RAGService.redis w) session_id).
  assert (Hread : RedisService.get_conversation_history
            (RedisService.save_message
               (RedisService.save_message (RAGService.redis w) session_id (lit "user") user_query)
               session_id (lit "assistant") answer) session_id (Some 10) =
          last_n 10 (old ++ [user_message user_query; assistant_message answer])).
  { rewrite history_last by lia. rewrite !stored_history_save.
    change (Z.to_nat 10) with 10%nat. by rewrite <- app_assoc. }
  rewrite Hread. split; [done|].
  assert (Hparts : ∀ keep : list Message.t,
            filter has_role_and_content [user_message user_query; assistant_message answer] = keep →
            ∃ earlier, (length earlier ≤ 4)%nat ∧
              RAGService.history_parts
                (last_n 10 (old ++ [user_message user_query; assistant_message answer])) =
              earlier ++ map render keep).
  { intros keep Hkeep. rewrite history_parts_spec, last_n_last_n by lia.
    rewrite (last_n_app_short old [user_message user_query; assistant_message answer] 6)
      by (simpl; lia).
    rewrite filter_app, map_app, Hkeep.
    eexists. split; [|done]. rewrite length_map.
    etransitivity; [apply length_filter|]. rewrite length_last_n. cbn [length]. lia. }
  split.
  - intros Hq Ha. apply (Hparts [user_message user_query; assistant_message answer]).
    rewrite !filter_cons_True; [done| |]; split; done.
  - intros Hq Ha. apply (Hparts [user_message user_query]).
    rewrite filter_cons_True by (split; done).
    rewrite filter_cons_False; [done|]. intros [_ H]. simpl in H. by rewrite Ha in H.
Qed.

Lemma next_turn_sees_last_turn_witness :
  ∃ earlier,
    RAGService.history_parts
      (RedisService.get_conversation_history
         (RAGService.redis
            (RAGService.query (fun x => x) 0 failing_llm Settings.default
               (lit "What is RAG?") (lit "s1") 5 empty_world).1) (lit "s1") (Some 10)) =
    earlier ++ [lit "User: What is RAG?";
                lit "Assistant: Error generating answer: Request timed out."].
Proof.
  destruct (next_turn_sees_last_turn (fun x => x) 0 failing_llm Settings.default
              (lit "What is RAG?") (lit "s1") 5 empty_world [1; 2] _
              eq_refl eq_refl eq_refl) as (answer & Hr & _ & Hparts & _).
  injection Hr as Ha.
  destruct (Hparts ltac:(discriminate) ltac:(rewrite <- Ha; discriminate))
    as (earlier & _ & E).
  exists earlier. rewrite E, <- Ha. reflexivity.
Defined.

(** X28. A booking intent is answered by a 400 that carries the message of the
    service; the state of the endpoint is unchanged. *)
Theorem chat_booking_intent_is_400 {float : Type} (round4 : float → float) (zero : float)
    (rag_service : RAGService.collaborators) (settings : Settings.t)
    (request : ChatRequest.t) (st : ChatEndpoint.state (float := float)) :
  RAGService._is_booking_intent (ChatRequest.query request) = true →
  ChatEndpoint.chat round4 zero rag_service settings request st =
    (st, inl (HTTPException 400
                (DetailBooking (lit "booking_intent_detected")
                   (Some (lit "I detected you want to book an interview. Please provide: name, email, date (YYYY-MM-DD), and time (HH:MM)"))
                   (lit "Please use the /book-interview endpoint with complete booking details")))).
Proof.
  intros Hb. unfold ChatEndpoint.chat, RAGService.query. rewrite Hb.
  unfold RAGService.ret. cbn [QueryResult.type QueryResult.message].
  rewrite bool_decide_eq_true_2 by done. by destruct st.
Qed.

Lemma chat_booking_intent_is_400_witness :
  RAGService._is_booking_intent (ChatRequest.query booking_request) = true ∧
  ∃ detail,
    ChatEndpoint.chat (fun x => x) 0 failing_llm Settings.default booking_request empty_state =
      (empty_state, inl (HTTPException 400 detail)).
Proof.
  assert (H : RAGService._is_booking_intent (ChatRequest.query booking_request) = true)
    by reflexivity.
  split; [exact H|]. eexists.
  exact (chat_booking_intent_is_400 (fun x => x) 0 failing_llm Settings.default
           booking_request empty_state H).
Defined.

(** X29. When the embedding and the search succeed the endpoint returns a
    response whatever the model does; the answer, the error text when the
    model raised, goes to a new row of the table and to Redis. *)
Theorem chat_model_failure_is_answered {float : Type} (round4 : float → float) (zero : float)
    (rag_service : RAGService.collaborators) (settings : Settings.t)
    (request : ChatRequest.t) (st : ChatEndpoint.state (float := float))
    (v : list float) (results : list (SearchResult.t float)) :
  RAGService._is_booking_intent (ChatRequest.query request) = false →
  RAGService.generate_embedding rag_service (ChatRequest.query request) = inr v →
  RAGService.search rag_service v 5 = inr results →
  let history :=
    RedisService.get_conversation_history (RAGService.redis (ChatEndpoint.service st))
      (ChatRequest.session_id request) (Some 10) in
  let response :=
    RAGService.chat_completions_create rag_service (Settings.llm_model settings)
      RAGService.system_prompt (prompt_of (ChatRequest.query request) results history) in
  ∃ st' answer,
    ChatEndpoint.chat round4 zero rag_service settings request st =
      (st', inr {| ChatResponse.answer := answer;
                   ChatResponse.sources := RAGService._format_sources round4 zero results;
                   ChatResponse.session_id := ChatRequest.session_id request |}) ∧
    (∀ e, response = inl e → answer = lit "Error generating answer: " ++ exn_str e) ∧
    ChatEndpoint.chat_history st' =
      ChatEndpoint.chat_history st ++
        [ {| ChatHistory.session_id := ChatRequest.session_id request;
             ChatHistory.user_id := ChatRequest.user_id request;
             ChatHistory.query := ChatRequest.query request;
             ChatHistory.response := answer |} ] ∧
    stored_history (RAGService.redis (ChatEndpoint.service st')) (ChatRequest.session_id request) =
      stored_history (RAGService.redis (ChatEndpoint.service st)) (ChatRequest.session_id request) ++
        [user_message (ChatRequest.query request); assistant_message answer].
Proof.
  intros Hb He Hs history response.
  eexists. exists (answer_of response).
  rewrite (chat_of_query round4 zero rag_service settings request st _ _
             (query_answer_run round4 zero rag_service settings _ _ _ _ v results Hb He Hs)).
  cbn [QueryResult.type QueryResult.answer QueryResult.sources].
  rewrite bool_decide_eq_false_2 by done.
  split_and!; [done| |done|].
  - intros e E. by rewrite E.
  - cbn [ChatEndpoint.service RAGService.redis]. rewrite !stored_history_save.
    by rewrite <- app_assoc.
Qed.

Lemma chat_model_failure_is_answered_witness :
  ∃ st',
    ChatEndpoint.chat (fun x => x) 0 failing_llm Settings.default sample_request empty_state =
      (st', inr {| ChatResponse.answer := lit "Error generating answer: Request timed out.";
                   ChatResponse.sources :=
                     RAGService._format_sources (fun x => x) 0
                       [ {| SearchResult.score := Some 5;
                            SearchResult.metadata :=
                              Some {| Metadata.document_id := Some (lit "d1");
                                      Metadata.filename := None;
                                      Metadata.chunk_text := Some (lit "some text") |} |} ];
                   ChatResponse.session_id := lit "s1" |}) ∧
    length (ChatEndpoint.chat_history st') = 1%nat.
Proof.
  destruct (chat_model_failure_is_answered (fun x => x) 0 failing_llm Settings.default
              sample_request empty_state [1; 2] _ eq_refl eq_refl eq_refl)
    as (st' & answer & Hchat & Herr & Hrows & _).
  specialize (Herr _ eq_refl). subst answer.
  exists st'. split; [exact Hchat|]. rewrite Hrows. reflexivity.
Defined.

(** X30. When the embedding or the search raises, the endpoint raises a 500 that
    carries the text of the exception; no row is added and Redis is
    unchanged. *)
Theorem chat_retrieval_failure_is_500 {float : Type} (round4 : float → float) (zero : float)
    (rag_service : RAGService.collaborators) (settings : Settings.t)
    (request : ChatRequest.t) (st : ChatEndpoint.state (float := float)) (e : exn) :
  RAGService._is_booking_intent (ChatRequest.query request) = false →
  RAGService.generate_embedding rag_service (ChatRequest.query request) = inl e ∨
  (∃ v, RAGService.generate_embedding rag_service (ChatRequest.query request) = inr v ∧
        RAGService.search rag_service v 5 = inl e) →
  ∃ st',
    ChatEndpoint.chat round4 zero rag_service settings request st =
      (st', inl (HTTPException 500
                   (DetailText (lit "Error processing chat request: " ++ exn_str e)))) ∧
    ChatEndpoint.chat_history st' = ChatEndpoint.chat_history st ∧
    RAGService.redis (ChatEndpoint.service st') = RAGService.redis (ChatEndpoint.service st).
Proof.
  intros Hb [He | (v & He & Hs)]; eexists.
  - rewrite (chat_of_query round4 zero rag_service settings request st _ _
               (query_embedding_raises round4 zero rag_service settings _ _ _ _ e Hb He)).
    done.
  - rewrite (chat_of_query round4 zero rag_service settings request st _ _
               (query_search_raises round4 zero rag_service settings _ _ _ _ v e Hb He Hs)).
    done.
Qed.

Lemma chat_retrieval_failure_is_500_witness :
  ∃ st',
    ChatEndpoint.chat (fun x => x) 0 failing_embedding Settings.default sample_request
        empty_state =
      (st', inl (HTTPException 500
                   (DetailText (lit "Error processing chat request: model not loaded")))) ∧
    ChatEndpoint.chat_history st' = [].
Proof.
  destruct (chat_retrieval_failure_is_500 (fun x => x) 0 failing_embedding Settings.default
              sample_request empty_state (Raise (lit "RuntimeError") (lit "model not loaded"))
              eq_refl (or_introl eq_refl)) as (st' & Hchat & Hrows & _).
  exists st'. split; [exact Hchat | exact Hrows].
Defined.
